(** * Floated bindings: a shallow embedding of the let-floating plugin (lib.js)

    The plugin floats pure call expressions and pure initialisers to the
    outermost function scope in which their free variables are visible,
    wraps them in a memoise-once thunk and forces the thunk at the
    original site.  This file embeds the plugin's functions and states the
    properties of its specification about them.

    Layout: the data model and the functions of lib.js first (syntax tree,
    purity analysis, traversal, scopes, scope resolver, name allocator,
    inserter, runtime helper, the two visitors, the Program visitor), then
    the lemmas and theorems. *)

From stdpp Require Import gmap strings list pretty.
From Stdlib Require Import ZArith Ascii.

Set Warnings "-register-all".
Set Default Proof Using "Type".

(* ===================================================================== *)
(** ** 1. Syntax tree *)
(* ===================================================================== *)

(** The subset of the host parser's node types that the plugin inspects or
    builds, with the host's constructor and field names.

    [marked] models membership of the node object in the plugin's
    [GENERATED] weak set: a weak set of objects is one hidden boolean per
    object.  The plugin only ever asks [GENERATED.has] of call
    expressions (CallExpression visitor), of variable declarators and of
    their parent declaration (VariableDeclarator visitor), so these three
    node types carry the flag. *)
Inductive Node : Type :=
| Identifier (name : string)
| StringLiteral (value : string)
| NumericLiteral (value : Z)
| BooleanLiteral (value : bool)
| NullLiteral
| ThisExpression
| Super
| MetaProperty (meta property : Node)
| CallExpression (marked : bool) (callee : Node) (arguments : list Node)
| NewExpression (callee : Node) (arguments : list Node)
| MemberExpression (object property : Node) (computed : bool)
| BinaryExpression (operator : string) (left right : Node)
| ConditionalExpression (test consequent alternate : Node)
| ArrayExpression (elements : list Node)
| ObjectExpression (properties : list Node)
| ObjectProperty (key value : Node) (computed : bool)
| ArrowFunctionExpression (params : list Node) (body : Node)
| FunctionExpression (id : option Node) (params : list Node) (body : Node)
| FunctionDeclaration (id : Node) (params : list Node) (body : Node)
| BlockStatement (body : list Node)
| ReturnStatement (argument : option Node)
| ExpressionStatement (expression : Node)
| VariableDeclaration (marked : bool) (kind : string) (declarations : list Node)
| VariableDeclarator (marked : bool) (id : Node) (init : option Node)
| ImportDefaultSpecifier (local : Node)
| ImportDeclaration (specifiers : list Node) (source : Node)
| Program (body : list Node).

(** The keys under which a node holds its children. *)
Inductive Key : Type :=
| Kmeta | Kproperty | Kcallee | Karguments | Kobject | Kleft | Kright
| Ktest | Kconsequent | Kalternate | Kelements | Kproperties | Kkey
| Kvalue | Kparams | Kbody | Kid | Kargument | Kexpression
| Kdeclarations | Kinit | Klocal | Kspecifiers | Ksource.

Global Instance Key_eq_dec : EqDecision Key.
Proof. solve_decision. Defined.

(** Type tests of the host's [t.isX] family. *)
Definition isIdentifier (n : Node) : bool :=
  match n with Identifier _ => true | _ => false end.

Definition isIdentifierNamed (n : Node) (s : string) : bool :=
  match n with Identifier x => bool_decide (x = s) | _ => false end.

Definition isCallExpression (n : Node) : bool :=
  match n with CallExpression _ _ _ => true | _ => false end.

Definition isStringLiteral (n : Node) : bool :=
  match n with StringLiteral _ => true | _ => false end.

Definition isLiteral (n : Node) : bool :=
  match n with
  | StringLiteral _ | NumericLiteral _ | BooleanLiteral _ | NullLiteral => true
  | _ => false
  end.

Definition isFunction (n : Node) : bool :=
  match n with
  | ArrowFunctionExpression _ _ | FunctionExpression _ _ _
  | FunctionDeclaration _ _ _ => true
  | _ => false
  end.

Definition isBlockStatement (n : Node) : bool :=
  match n with BlockStatement _ => true | _ => false end.

Definition isImportDeclaration (n : Node) : bool :=
  match n with ImportDeclaration _ _ => true | _ => false end.

Definition isVariableDeclarator (n : Node) : bool :=
  match n with VariableDeclarator _ _ _ => true | _ => false end.

(** The children of a node, each with the key that holds it, in the order
    in which the host enumerates them. *)
Definition optNode (k : Key) (o : option Node) : list (Key * Node) :=
  match o with Some c => [(k, c)] | None => [] end.

Definition children (n : Node) : list (Key * Node) :=
  match n with
  | Identifier _ | StringLiteral _ | NumericLiteral _ | BooleanLiteral _
  | NullLiteral | ThisExpression | Super => []
  | MetaProperty m p => [(Kmeta, m); (Kproperty, p)]
  | CallExpression _ c args => (Kcallee, c) :: map (pair Karguments) args
  | NewExpression c args => (Kcallee, c) :: map (pair Karguments) args
  | MemberExpression o p _ => [(Kobject, o); (Kproperty, p)]
  | BinaryExpression _ l r => [(Kleft, l); (Kright, r)]
  | ConditionalExpression t c a =>
      [(Ktest, t); (Kconsequent, c); (Kalternate, a)]
  | ArrayExpression es => map (pair Kelements) es
  | ObjectExpression ps => map (pair Kproperties) ps
  | ObjectProperty k v _ => [(Kkey, k); (Kvalue, v)]
  | ArrowFunctionExpression ps b => map (pair Kparams) ps ++ [(Kbody, b)]
  | FunctionExpression i ps b =>
      optNode Kid i ++ map (pair Kparams) ps ++ [(Kbody, b)]
  | FunctionDeclaration i ps b =>
      (Kid, i) :: map (pair Kparams) ps ++ [(Kbody, b)]
  | BlockStatement b => map (pair Kbody) b
  | ReturnStatement a => optNode Kargument a
  | ExpressionStatement e => [(Kexpression, e)]
  | VariableDeclaration _ _ ds => map (pair Kdeclarations) ds
  | VariableDeclarator _ i e => (Kid, i) :: optNode Kinit e
  | ImportDefaultSpecifier l => [(Klocal, l)]
  | ImportDeclaration ss s => map (pair Kspecifiers) ss ++ [(Ksource, s)]
  | Program b => map (pair Kbody) b
  end.

(** [Subnode s n]: [s] is [n] or occurs inside [n] at some depth. *)
Inductive Subnode (s : Node) : Node -> Prop :=
| Subnode_here : Subnode s s
| Subnode_below n k c :
    In (k, c) (children n) -> Subnode s c -> Subnode s n.

(** The number of nodes of a tree; the measure of the induction on nodes. *)
Fixpoint nodeSize (n : Node) : nat :=
  let each (l : list Node) := list_sum (map nodeSize l) in
  let opt (o : option Node) := match o with Some c => nodeSize c | None => 0 end in
  S match n with
    | Identifier _ | StringLiteral _ | NumericLiteral _ | BooleanLiteral _
    | NullLiteral | ThisExpression | Super => 0
    | MetaProperty m p => nodeSize m + nodeSize p
    | CallExpression _ c args => nodeSize c + each args
    | NewExpression c args => nodeSize c + each args
    | MemberExpression o p _ => nodeSize o + nodeSize p
    | BinaryExpression _ l r => nodeSize l + nodeSize r
    | ConditionalExpression t c a => nodeSize t + nodeSize c + nodeSize a
    | ArrayExpression es => each es
    | ObjectExpression ps => each ps
    | ObjectProperty k v _ => nodeSize k + nodeSize v
    | ArrowFunctionExpression ps b => each ps + nodeSize b
    | FunctionExpression i ps b => opt i + each ps + nodeSize b
    | FunctionDeclaration i ps b => nodeSize i + each ps + nodeSize b
    | BlockStatement b => each b
    | ReturnStatement a => opt a
    | ExpressionStatement e => nodeSize e
    | VariableDeclaration _ _ ds => each ds
    | VariableDeclarator _ i e => nodeSize i + opt e
    | ImportDefaultSpecifier l => nodeSize l
    | ImportDeclaration ss s => each ss + nodeSize s
    | Program b => each b
    end.

(* ===================================================================== *)
(** ** 2. Purity analysis (lib.js, lines 39-63) *)
(* ===================================================================== *)

(** [isNullaryCall]: a call expression with an empty argument array. *)
Definition isNullaryCall (n : Node) : bool :=
  match n with CallExpression _ _ [] => true | _ => false end.

(** The inner [walk] of [exprContainsNullaryCall].  The closure variable
    [bad] is threaded through: [walk x bad] is the value of [bad] after
    the call [walk(x)].  The [for (k in x)] loop visits the fields of the
    node; fields that hold neither a node nor an array of nodes are passed
    over by the loop body and are not represented. *)
Fixpoint walk (x : Node) (bad : bool) : bool :=
  if bad then bad
  else if isNullaryCall x then true
  else
    let each (l : list Node) (b : bool) := fold_left (fun b v => walk v b) l b in
    let opt (o : option Node) (b : bool) :=
      match o with Some v => walk v b | None => b end in
    match x with
    | Identifier _ | StringLiteral _ | NumericLiteral _ | BooleanLiteral _
    | NullLiteral | ThisExpression | Super => bad
    | MetaProperty m p => walk p (walk m bad)
    | CallExpression _ c args => each args (walk c bad)
    | NewExpression c args => each args (walk c bad)
    | MemberExpression o p _ => walk p (walk o bad)
    | BinaryExpression _ l r => walk r (walk l bad)
    | ConditionalExpression t c a => walk a (walk c (walk t bad))
    | ArrayExpression es => each es bad
    | ObjectExpression ps => each ps bad
    | ObjectProperty k v _ => walk v (walk k bad)
    | ArrowFunctionExpression ps b => walk b (each ps bad)
    | FunctionExpression i ps b => walk b (each ps (opt i bad))
    | FunctionDeclaration i ps b => walk b (each ps (walk i bad))
    | BlockStatement b => each b bad
    | ReturnStatement a => opt a bad
    | ExpressionStatement e => walk e bad
    | VariableDeclaration _ _ ds => each ds bad
    | VariableDeclarator _ i e => opt e (walk i bad)
    | ImportDefaultSpecifier l => walk l bad
    | ImportDeclaration ss s => walk s (each ss bad)
    | Program b => each b bad
    end.

Definition exprContainsNullaryCall (n : Node) : bool := walk n false.

(** [isPureEnoughInit(node)]; [None] is a missing (null) node. *)
Definition isPureEnoughInit (node : option Node) : bool :=
  match node with
  | None => false
  | Some n => if exprContainsNullaryCall n then false else true
  end.

(* ===================================================================== *)
(** ** 3. Paths and traversal *)
(* ===================================================================== *)

(** A path of the host: a node, the key under which its parent holds it,
    and the nodes above it, nearest first ([parentPath], its [parentPath],
    and so on).  Of the key only the field name is kept; the plugin never
    looks at the index inside an array field. *)
Record NodePath : Type := MkPath {
  node : Node;
  pkey : Key;
  ancestors : list Node
}.

Definition parentNode (p : NodePath) : option Node := head (ancestors p).

(** [path.get(k)] for a single-node field. *)
Definition getChild (p : NodePath) (k : Key) : option NodePath :=
  match List.filter (fun kc => bool_decide (kc.1 = k)) (children (node p)) with
  | (_, c) :: _ => Some (MkPath c k (node p :: ancestors p))
  | [] => None
  end.

(** [path.findParent(f)]: the nearest node above the path that satisfies
    [f]. *)
Definition findParent (f : Node -> bool) (p : NodePath) : option Node :=
  List.find f (ancestors p).

(** [path.getFunctionParent()]. *)
Definition getFunctionParentPath (p : NodePath) : option Node :=
  findParent isFunction p.

(** [descend anc n]: the paths of all nodes strictly below [n], in the
    order in which the host's traversal enters them (children by visitor
    key, depth first).  The node the traversal starts from is not itself
    entered. *)
Fixpoint descend (anc : list Node) (n : Node) : list NodePath :=
  let up := n :: anc in
  let sub (k : Key) (c : Node) := MkPath c k up :: descend up c in
  let opt (k : Key) (o : option Node) :=
    match o with Some c => sub k c | None => [] end in
  match n with
  | Identifier _ | StringLiteral _ | NumericLiteral _ | BooleanLiteral _
  | NullLiteral | ThisExpression | Super => []
  | MetaProperty m p => sub Kmeta m ++ sub Kproperty p
  | CallExpression _ c args => sub Kcallee c ++ flat_map (sub Karguments) args
  | NewExpression c args => sub Kcallee c ++ flat_map (sub Karguments) args
  | MemberExpression o p _ => sub Kobject o ++ sub Kproperty p
  | BinaryExpression _ l r => sub Kleft l ++ sub Kright r
  | ConditionalExpression t c a =>
      sub Ktest t ++ sub Kconsequent c ++ sub Kalternate a
  | ArrayExpression es => flat_map (sub Kelements) es
  | ObjectExpression ps => flat_map (sub Kproperties) ps
  | ObjectProperty k v _ => sub Kkey k ++ sub Kvalue v
  | ArrowFunctionExpression ps b => flat_map (sub Kparams) ps ++ sub Kbody b
  | FunctionExpression i ps b =>
      opt Kid i ++ flat_map (sub Kparams) ps ++ sub Kbody b
  | FunctionDeclaration i ps b =>
      sub Kid i ++ flat_map (sub Kparams) ps ++ sub Kbody b
  | BlockStatement b => flat_map (sub Kbody) b
  | ReturnStatement a => opt Kargument a
  | ExpressionStatement e => sub Kexpression e
  | VariableDeclaration _ _ ds => flat_map (sub Kdeclarations) ds
  | VariableDeclarator _ i e => sub Kid i ++ opt Kinit e
  | ImportDefaultSpecifier l => sub Klocal l
  | ImportDeclaration ss s => flat_map (sub Kspecifiers) ss ++ sub Ksource s
  | Program b => flat_map (sub Kbody) b
  end.

(** [path.traverse(visitor)] enters exactly these paths. *)
Definition traverse (p : NodePath) : list NodePath :=
  descend (ancestors p) (node p).

(** [Inside anc n p]: [p] is the path of a node strictly inside [n],
    where [anc] are the nodes above [n]. *)
Inductive Inside (anc : list Node) (n : Node) : NodePath -> Prop :=
| Inside_child k c :
    In (k, c) (children n) -> Inside anc n (MkPath c k (n :: anc))
| Inside_deeper k c p :
    In (k, c) (children n) -> Inside (n :: anc) c p -> Inside anc n p.

(** [Within root p]: [p] is [root] or the path of a node inside it. *)
Definition Within (root p : NodePath) : Prop :=
  p = root \/ Inside (ancestors root) (node root) p.

(** A function with a receiver and arguments of its own (not an arrow). *)
Definition isOrdinaryFunction (n : Node) : bool :=
  match n with
  | FunctionExpression _ _ _ | FunctionDeclaration _ _ _ => true
  | _ => false
  end.

(** The nodes between a path inside [root] and [root], [root] included. *)
Definition ancestorsWithin (root p : NodePath) : list Node :=
  take (length (ancestors p) - length (ancestors root)) (ancestors p).

(** The host's [isReferenced(node, parent, grandparent)] on the node types
    above: whether an identifier held by [parent] under [k] is a reference
    (a read of a binding) rather than a declaration, a property name or a
    label.  The grandparent only matters below an object pattern, which the
    subset does not contain. *)
Definition isReferenced (parent : Node) (k : Key) : bool :=
  match parent with
  | MemberExpression _ _ computed =>
      match k with Kproperty => computed | Kobject => true | _ => false end
  | VariableDeclarator _ _ _ => bool_decide (k = Kinit)
  | ArrowFunctionExpression _ _ => bool_decide (k = Kbody)
  | ObjectProperty _ _ computed =>
      match k with Kkey => computed | _ => true end
  | FunctionDeclaration _ _ _ | FunctionExpression _ _ _ => false
  | ImportDefaultSpecifier _ => false
  | MetaProperty _ _ => false
  | _ => true
  end.

(** [p.isReferencedIdentifier()]. *)
Definition isReferencedIdentifier (p : NodePath) : bool :=
  isIdentifier (node p) &&
  match parentNode p with
  | Some parent => isReferenced parent (pkey p)
  | None => true
  end.

(** The four visitor functions of [containsFrameSensitiveThings], as one
    test on the entered path: does this visit set [bad]? *)
Definition frameSensitiveVisit (p : NodePath) : bool :=
  match node p with
  | ThisExpression => true
  | Identifier name => bool_decide (name = "arguments") && isReferencedIdentifier p
  | Super => true
  | MetaProperty m pr => isIdentifierNamed m "new" && isIdentifierNamed pr "target"
  | _ => false
  end.

(** [containsFrameSensitiveThings(anyPath)]: [bad] is set by the first
    entered path on which a visitor fires; [p.stop()] only ends the
    traversal early. *)
Definition containsFrameSensitiveThings (anyPath : NodePath) : bool :=
  existsb frameSensitiveVisit (traverse anyPath).

(** [isPureEnoughDecl(declPath)]. *)
Definition isPureEnoughDecl (declPath : NodePath) : bool :=
  match getChild declPath Kinit with
  | None => false
  | Some initPath =>
      if negb (isPureEnoughInit (Some (node initPath))) then false
      else if containsFrameSensitiveThings initPath then false
      else true
  end.

(** A JavaScript [Set] of strings keeps its elements in insertion order;
    [Set_add] is [names.add(x)]. *)
Definition Set_add (names : list string) (x : string) : list string :=
  if bool_decide (x ∈ names) then names else names ++ [x].

(** The [Identifier] visitor of [freeVarsOfNode]. *)
Definition freeVarsVisit (names : list string) (p : NodePath) : list string :=
  if negb (isReferencedIdentifier p) then names
  else match node p with
       | Identifier name => Set_add names name
       | _ => names
       end.

(** [freeVarsOfNode(nodePath)]: [Array.from(names)] after the traversal. *)
Definition freeVarsOfNode (nodePath : NodePath) : list string :=
  fold_left freeVarsVisit (traverse nodePath) [].

(** [freeVarsOfDecl(declPath)]; the visitor only calls it on a declarator
    that has an initialiser. *)
Definition freeVarsOfDecl (declPath : NodePath) : list string :=
  match getChild declPath Kinit with
  | Some initPath => freeVarsOfNode initPath
  | None => []
  end.

(* ===================================================================== *)
(** ** 4. Scopes and bindings (the host's scope facility) *)
(* ===================================================================== *)

(** The kinds of binding the host records. *)
Inductive BindingKind : Type :=
| BVar | BLet | BConst | BModule | BHoisted | BParam | BLocal | BUnknown.

(** A binding: its kind and the number of its reference sites
    ([binding.referencePaths.length]).  The owning scope
    ([binding.scope]) is the scope whose table holds the binding. *)
Record Binding : Type := MkBinding {
  bkind : BindingKind;
  referenceCount : nat
}.

(** What a scope knows by itself: an identity ([uid], the host numbers
    its scopes), its own bindings and the names it records as ambient
    (global). *)
Record ScopeData : Type := MkScopeData {
  uid : nat;
  bindings : gmap string Binding;
  globals : gset string
}.

(** What a nested scope is the scope of: a function (with the parameter
    nodes of [scope.path.node.params]) or a block-like construct. *)
Inductive ScopeBlock : Type :=
| FunctionBlock (params : list Node)
| OtherBlock.

(** A scope with its chain of parents.  The scope without parent is the
    scope of the program, and no other scope is. *)
Inductive Scope : Type :=
| ProgramScope (d : ScopeData)
| NestedScope (d : ScopeData) (b : ScopeBlock) (parent : Scope).

Definition data (s : Scope) : ScopeData :=
  match s with ProgramScope d => d | NestedScope d _ _ => d end.

(** [scope.parent]. *)
Definition parentScope (s : Scope) : option Scope :=
  match s with ProgramScope _ => None | NestedScope _ _ p => Some p end.

(** [scope.path.isProgram()] and [scope.path.isFunction()]. *)
Definition scopeIsProgram (s : Scope) : bool :=
  match s with ProgramScope _ => true | _ => false end.

Definition scopeIsFunction (s : Scope) : bool :=
  match s with NestedScope _ (FunctionBlock _) _ => true | _ => false end.

(** [scope.path.node.params] of a function scope. *)
Definition scopeParams (s : Scope) : list Node :=
  match s with NestedScope _ (FunctionBlock ps) _ => ps | _ => [] end.

(** [a === b] on scope objects. *)
Definition sameScope (a b : Scope) : bool := bool_decide (uid (data a) = uid (data b)).

(** The scope itself followed by its parents, innermost first. *)
Fixpoint chain (s : Scope) : list Scope :=
  match s with
  | ProgramScope _ => [s]
  | NestedScope _ _ p => s :: chain p
  end.

(** [scope.hasOwnBinding(name)]. *)
Definition hasOwnBinding (s : Scope) (name : string) : bool :=
  bool_decide (is_Some (bindings (data s) !! name)).

(** [scope.hasGlobal(name)]: the name is recorded as global by the scope
    or by one of its parents. *)
Fixpoint hasGlobal (s : Scope) (name : string) : bool :=
  bool_decide (name ∈ globals (data s)) ||
  match s with
  | ProgramScope _ => false
  | NestedScope _ _ p => hasGlobal p name
  end.

(** [scope.getBinding(name)]: the nearest own binding of the name on the
    chain, with the scope that owns it.  (The host has special cases for
    the name [arguments] and for bindings met while leaving a parameter
    pattern; the plugin's candidates never hold a referenced [arguments],
    see [containsFrameSensitiveThings].) *)
Fixpoint getBinding (s : Scope) (name : string) : option (Binding * Scope) :=
  match bindings (data s) !! name with
  | Some b => Some (b, s)
  | None =>
      match s with
      | ProgramScope _ => None
      | NestedScope _ _ p => getBinding p name
      end
  end.

(** [scope.hasBinding(name)]: some scope of the chain binds the name.
    (The host also answers yes for the names of its fixed list of
    built-in globals and for the identifiers it generated itself; these
    are left out.) *)
Definition hasBinding (s : Scope) (name : string) : bool :=
  bool_decide (is_Some (getBinding s name)).

(** [scope.getFunctionParent()]: the nearest function scope, the scope
    itself included; [None] is the host's null. *)
Fixpoint getFunctionParent (s : Scope) : option Scope :=
  if scopeIsFunction s then Some s
  else match s with
       | ProgramScope _ => None
       | NestedScope _ _ p => getFunctionParent p
       end.

(** [scope.getProgramParent()]. *)
Fixpoint getProgramParent (s : Scope) : Scope :=
  match s with
  | ProgramScope _ => s
  | NestedScope _ _ p => getProgramParent p
  end.

(** Number of parents above a scope. *)
Fixpoint depth (s : Scope) : nat :=
  match s with
  | ProgramScope _ => 0
  | NestedScope _ _ p => S (depth p)
  end.

(* ===================================================================== *)
(** ** 5. Scope resolver (lib.js, lines 122-213) *)
(* ===================================================================== *)

(** The first loop: [name] is found from the use-site when some scope of
    the chain has it as own binding or as global. *)
Fixpoint foundOnChain (scope : Scope) (name : string) : bool :=
  if hasOwnBinding scope name || hasGlobal scope name then true
  else match scope with
       | ProgramScope _ => false
       | NestedScope _ _ p => foundOnChain p name
       end.

(** The search for [parentFunc]: the first function or program scope from
    [searchScope] upwards. *)
Fixpoint nextFunctionOrProgram (searchScope : Scope) : option Scope :=
  if scopeIsFunction searchScope || scopeIsProgram searchScope
  then Some searchScope
  else match searchScope with
       | ProgramScope _ => None
       | NestedScope _ _ p => nextFunctionOrProgram p
       end.

(** The loop [while (s) { if (s === binding.scope) ...; s = s.parent }]:
    [owner] is [s] or one of its parents. *)
Fixpoint visibleFrom (s owner : Scope) : bool :=
  if sameScope s owner then true
  else match s with
       | ProgramScope _ => false
       | NestedScope _ _ p => visibleFrom p owner
       end.

(** [parentFunc.path.node.params.some(p => t.isIdentifier(p) && p.name === name)]. *)
Definition isParamOf (parentFunc : Scope) (name : string) : bool :=
  existsb (fun p => isIdentifierNamed p name) (scopeParams parentFunc).

(** The body of the loop over [allNames] for one name: may the name still
    be seen from [parentFunc]? *)
Definition nameVisibleIn (startScope parentFunc : Scope) (name : string) : bool :=
  match getBinding startScope name with
  | None => hasGlobal parentFunc name
  | Some (_, owner) =>
      let visible := visibleFrom parentFunc owner in
      let visible :=
        if negb visible && scopeIsFunction parentFunc
        then (if isParamOf parentFunc name then true else visible)
        else visible in
      let visible :=
        if negb visible && hasGlobal parentFunc name then true else visible in
      visible
  end.

(** [canHoistToParent] after the loop over [allNames]. *)
Definition canHoistToParent (allNames : list string) (startScope parentFunc : Scope) : bool :=
  forallb (nameVisibleIn startScope parentFunc) allNames.

(** The loop [while (targetScope.parent)].  Every round that does not
    leave the loop replaces [targetScope] by a scope strictly above it,
    so [depth targetScope] rounds always suffice; [outermostScopeWith]
    passes that number as [fuel]. *)
Fixpoint widen (fuel : nat) (allNames : list string) (startScope targetScope : Scope) : Scope :=
  match fuel with
  | O => targetScope
  | S fuel' =>
      match parentScope targetScope with
      | None => targetScope
      | Some searchScope =>
          match nextFunctionOrProgram searchScope with
          | None => targetScope
          | Some parentFunc =>
              if canHoistToParent allNames startScope parentFunc
              then widen fuel' allNames startScope parentFunc
              else targetScope
          end
      end
  end.

(** [currentScope]: [scope.getFunctionParent() || scope.getProgramParent()]. *)
Definition enclosingFunctionScope (s : Scope) : Scope :=
  match getFunctionParent s with
  | Some f => f
  | None => getProgramParent s
  end.

(** [outermostScopeWith(allNames, startPath)], on [startPath.scope];
    [None] is the result null.  The test [if (!currentScope) return null]
    never fires: a program scope always exists. *)
Definition outermostScopeWith (allNames : list string) (startScope : Scope) : option Scope :=
  match allNames with
  | [] => Some (getProgramParent startScope)
  | _ =>
      let currentScope := enclosingFunctionScope startScope in
      if negb (forallb (foundOnChain startScope) allNames) then Some currentScope
      else Some (widen (depth currentScope) allNames startScope currentScope)
  end.

(** *** The resolver in the words of the specification (section 4.3)

    The definitions below follow the text of the specification, not the
    source; the theorems compare them with [outermostScopeWith]. *)

(** "Resolvable by walking the scope chain from the use-site outward (own
    binding or ambient/global at some ancestor)". *)
Definition Resolvable (useSite : Scope) (name : string) : Prop :=
  exists s, In s (chain useSite) /\
            (hasOwnBinding s name = true \/ name ∈ globals (data s)).

(** "The nearest enclosing function scope (or the top-level unit if
    none)". *)
Definition nearestFunctionOrTop (useSite : Scope) : Scope :=
  match List.filter scopeIsFunction (chain useSite) with
  | f :: _ => f
  | [] => getProgramParent useSite
  end.

(** "The next enclosing function/top-level scope", again and again: the
    function and top-level scopes strictly above [target], nearest first. *)
Definition functionOrTop (s : Scope) : bool := scopeIsFunction s || scopeIsProgram s.

Definition widerScopes (target : Scope) : list Scope :=
  match parentScope target with
  | Some p => List.filter functionOrTop (chain p)
  | None => []
  end.

(** "For every free variable, one of the following holds: the owning
    scope [of the binding as seen from the original use-site] is the
    prospective wider scope or an ancestor of it; the name is a parameter
    of the wider scope's function; or the wider scope can see the name as
    ambient/global". *)
Definition ownerIsWiderOrAncestor (useSite wider : Scope) (name : string) : bool :=
  match getBinding useSite name with
  | Some (_, owner) => existsb (fun s => sameScope s owner) (chain wider)
  | None => false
  end.

Definition acceptsWidening (freeVars : list string) (useSite wider : Scope) : bool :=
  forallb (fun name =>
             ownerIsWiderOrAncestor useSite wider name
             || existsb (fun p => isIdentifierNamed p name) (scopeParams wider)
             || hasGlobal wider name) freeVars.

(** "If all free variables pass, advance the candidate target outward and
    repeat; otherwise stop and return the last successful candidate". *)
Fixpoint lastAccepted (accept : Scope -> bool) (target : Scope) (wider : list Scope) : Scope :=
  match wider with
  | [] => target
  | w :: rest => if accept w then lastAccepted accept w rest else target
  end.

(** Steps 1, 3 and 4 together. *)
Definition resolveSpec (freeVars : list string) (useSite : Scope) : Scope :=
  match freeVars with
  | [] => getProgramParent useSite
  | _ =>
      let target := nearestFunctionOrTop useSite in
      lastAccepted (acceptsWidening freeVars useSite) target (widerScopes target)
  end.

(** What the host guarantees of the scopes of a chain: they are distinct
    objects, so their identities differ. *)
Definition uidsDistinct (s : Scope) : Prop :=
  List.NoDup (map (fun s' => uid (data s')) (chain s)).

(** What the host guarantees of the scopes of a chain: a parameter of a
    function that is a plain identifier is an own binding of the
    function's scope. *)
Definition paramsBound (s : Scope) : bool :=
  forallb (fun f =>
             forallb (fun p => match p with
                               | Identifier x => hasOwnBinding f x
                               | _ => true
                               end) (scopeParams f)) (chain s).

(* ===================================================================== *)
(** ** 6. Name allocator (lib.js, lines 12-19 and 215-275) *)
(* ===================================================================== *)

(** [RESERVED_NAMES]: a weak map from scope objects to sets of names,
    keyed here by the scope's [uid]. *)
Abbreviation Reserved := (gmap nat (gset string)).

(** [getReserved(scope)]: the set of the scope, created from the names of
    the scope's own bindings when the scope has none yet.  Returns the set
    and the updated table. *)
Definition getReserved (R : Reserved) (scope : Scope) : gset string * Reserved :=
  match R !! uid (data scope) with
  | Some set => (set, R)
  | None =>
      let set := dom (bindings (data scope)) in
      (set, <[uid (data scope) := set]> R)
  end.

(** [RESERVED_NAMES.get(s)] followed by [set && set.has(n)]. *)
Definition reservedHas (R : Reserved) (s : Scope) (n : string) : bool :=
  match R !! uid (data s) with
  | Some set => bool_decide (n ∈ set)
  | None => false
  end.

(** [reserved.add(name)] on the set object of [targetScope]. *)
Definition reserve (R : Reserved) (targetScope : Scope) (name : string) : Reserved :=
  match R !! uid (data targetScope) with
  | Some set => <[uid (data targetScope) := set ∪ {[name]}]> R
  | None => R
  end.

(** The character class [[A-Za-z0-9_$]]. *)
Definition identChar (c : ascii) : bool :=
  let n := nat_of_ascii c in
  ((65 <=? n) && (n <=? 90)) || ((97 <=? n) && (n <=? 122)) ||
  ((48 <=? n) && (n <=? 57)) || (n =? 95) || (n =? 36).

Fixpoint replaceNonIdent (s : string) : string :=
  match s with
  | EmptyString => EmptyString
  | String c r => String (if identChar c then c else "_"%char) (replaceNonIdent r)
  end.

(** [sanitizeBase(base)]. *)
Definition sanitizeBase (base : string) : string :=
  let cleaned := replaceNonIdent base in
  if bool_decide (cleaned = "") then "fb" else cleaned.

(** Part (a) of [taken]: reserved, bound or global at [s] or above. *)
Fixpoint takenAbove (R : Reserved) (s : Scope) (n : string) : bool :=
  if reservedHas R s n then true
  else if hasBinding s n || hasGlobal s n then true
  else match s with
       | ProgramScope _ => false
       | NestedScope _ _ p => takenAbove R p n
       end.

(** Part (b) of [taken]: reserved or own binding in a scope from the
    use-site upwards, until [targetScope] is reached. *)
Fixpoint takenBelow (R : Reserved) (targetScope u : Scope) (n : string) : bool :=
  if sameScope u targetScope then false
  else if reservedHas R u n || hasOwnBinding u n then true
  else match u with
       | ProgramScope _ => false
       | NestedScope _ _ p => takenBelow R targetScope p n
       end.

(** The closure [taken] of [makeUniqueFbName]. *)
Definition taken (R : Reserved) (targetScope useScope : Scope) (n : string) : bool :=
  if takenAbove R targetScope n then true
  else takenBelow R targetScope useScope n.

(** The names the allocator tries: [base__fb], then [base__fb_i]. *)
Definition fbName0 (base : string) : string := base +:+ "__fb".

Definition fbNameN (base : string) (i : nat) : string :=
  base +:+ "__fb_" +:+ pretty i.

(** The loop [while (taken(`${base}__fb_${i}`)) i++], run for at most
    [fuel] tests; [None] when the fuel runs out. *)
Fixpoint firstFree (fuel : nat) (tk : string -> bool) (base : string) (i : nat) : option nat :=
  match fuel with
  | O => None
  | S fuel' =>
      if tk (fbNameN base i) then firstFree fuel' tk base (S i) else Some i
  end.

(** [makeUniqueFbName(base, targetScope, useSitePath)], on
    [useSitePath.scope]: the chosen name and the table after it was
    reserved. *)
Definition makeUniqueFbName (fuel : nat) (R : Reserved) (base : string)
    (targetScope useScope : Scope) : option (string * Reserved) :=
  let base := sanitizeBase base in
  let R1 := (getReserved R targetScope).2 in
  let name := fbName0 base in
  if negb (taken R1 targetScope useScope name) then
    Some (name, reserve R1 targetScope name)
  else
    match firstFree fuel (taken R1 targetScope useScope) base 1 with
    | Some i => let name := fbNameN base i in Some (name, reserve R1 targetScope name)
    | None => None
    end.

(** *** The allocator in the words of the specification (section 4.4)

    As for the resolver, these definitions follow the specification. *)

(** "<base>__fb, <base>__fb_1, <base>__fb_2, ...": the candidate number
    [k].  The first is the base followed by [__fb]; candidate [k], from 1
    on, is the base followed by [__fb_] and the decimal numeral of [k]. *)
Definition fbCandidate (base : string) (k : nat) : string :=
  match k with
  | O => base +:+ "__fb"
  | S _ => base +:+ "__fb_" +:+ pretty k
  end.

(** The decimal numerals "1", "2", ...: a string of the digits 0 to 9
    ([decimalDigits]), read from the left ([decimalValueFrom]). *)
Fixpoint decimalDigits (ds : string) : bool :=
  match ds with
  | EmptyString => true
  | String c r =>
      (48 <=? nat_of_ascii c) && (nat_of_ascii c <=? 57) && decimalDigits r
  end.

Fixpoint decimalValueFrom (acc : nat) (ds : string) : nat :=
  match ds with
  | EmptyString => acc
  | String c r => decimalValueFrom (10 * acc + (nat_of_ascii c - 48)) r
  end.

(** [ds] is the decimal numeral of the positive number [k]: digits only,
    at least one, the first of them not 0, and of value [k]. *)
Definition decimalNumeral (k : nat) (ds : string) : Prop :=
  ds <> "" /\ decimalDigits ds = true /\ String.prefix "0" ds = false /\
  decimalValueFrom 0 ds = k.

(** The scopes "between the use-site and the target scope (inclusive of
    intermediate scopes, exclusive of the target itself)". *)
Fixpoint scopesBelow (targetScope u : Scope) : list Scope :=
  if sameScope u targetScope then []
  else u :: match u with
            | ProgramScope _ => []
            | NestedScope _ _ p => scopesBelow targetScope p
            end.

(** "A candidate is rejected if it collides with: any binding or ambient
    name at the target scope or any of its ancestors; any name already
    reserved by an earlier hoist in this run at the target scope or its
    ancestors; or any own-binding in any scope strictly between the
    use-site and the target scope" (or a name reserved there). *)
Definition Collides (R : Reserved) (targetScope useScope : Scope) (n : string) : Prop :=
  (exists s, In s (chain targetScope) /\
             (hasOwnBinding s n = true \/ n ∈ globals (data s) \/
              reservedHas R s n = true)) \/
  (exists s, In s (scopesBelow targetScope useScope) /\
             (hasOwnBinding s n = true \/ reservedHas R s n = true)).

(** Every name [taken] can answer yes to: the names bound, global or
    reserved in the scopes the closure looks at. *)
Definition scopeNames (R : Reserved) (s : Scope) : gset string :=
  dom (bindings (data s)) ∪ globals (data s) ∪ default ∅ (R !! uid (data s)).

Definition takenNames (R : Reserved) (targetScope useScope : Scope) : gset string :=
  ⋃ (map (scopeNames R) (chain targetScope ++ chain useScope)).

(** A number of tests that the loop of [makeUniqueFbName] never exceeds. *)
Definition nameFuel (R : Reserved) (targetScope useScope : Scope) : nat :=
  S (size (takenNames (getReserved R targetScope).2 targetScope useScope)).

(** [argNames]: the names of the arguments that are identifiers, joined
    with an underscore. *)
Definition argNames (args : list Node) : string :=
  String.concat "_"
    (omap (fun a => match a with
                    | Identifier n => if bool_decide (n = "") then None else Some n
                    | _ => None
                    end) args).

(** [deriveBaseFromCall(path)], on [path.node]. *)
Definition deriveBaseFromCall (n : Node) : string :=
  match n with
  | CallExpression _ callee args =>
      let base :=
        match callee with
        | Identifier c => c
        | CallExpression _ (Identifier c) _ => c
        | _ => "fb"
        end in
      let names := argNames args in
      sanitizeBase (if bool_decide (names = "") then base else base +:+ "_" +:+ names)
  | _ => sanitizeBase "fb"
  end.

(* ===================================================================== *)
(** ** 7. Hoist-site inserter (lib.js, lines 277-325) *)
(* ===================================================================== *)

(** [ensureArrowBlock(funcPath)], on the function node. *)
Definition ensureArrowBlock (func : Node) : Node :=
  match func with
  | ArrowFunctionExpression ps b =>
      if negb (isBlockStatement b)
      then ArrowFunctionExpression ps (BlockStatement [ReturnStatement (Some b)])
      else func
  | _ => func
  end.

(** The two tests of the loop of [insertAfterPrologueAndImports]: an
    import declaration of the program, or an expression statement that is
    a string literal. *)
Definition isAnchor (isProg : bool) (stmt : Node) : bool :=
  if isProg && isImportDeclaration stmt then true
  else match stmt with
       | ExpressionStatement e => isStringLiteral e
       | _ => false
       end.

(** The loop over [bodyPaths]: [scanAnchors isProg body i anchor] is the
    final value of [anchor] (an index into the body) when the loop
    continues at index [i]. *)
Fixpoint scanAnchors (isProg : bool) (body : list Node) (i : nat)
    (anchor : option nat) : option nat :=
  match body with
  | [] => anchor
  | p :: rest =>
      if isAnchor isProg p then scanAnchors isProg rest (S i) (Some i)
      else anchor
  end.

(** [anchor.insertAfter(node)] and [unshiftContainer("body", node)] on the
    statement list. *)
Definition insertAfterIndex (body : list Node) (i : nat) (n : Node) : list Node :=
  take (S i) body ++ n :: drop (S i) body.

(** [insertAfterPrologueAndImports(containerPath, nodeToInsert)], on the
    statement list of the container. *)
Definition insertAfterPrologueAndImports (isProg : bool) (body : list Node)
    (nodeToInsert : Node) : list Node :=
  match scanAnchors isProg body 0 None with
  | Some i => insertAfterIndex body i nodeToInsert
  | None => nodeToInsert :: body
  end.

(** In the words of the specification (section 4.5): an "import-like
    statement" or a "literal-only directive statement". *)
Definition isDirective (stmt : Node) : bool :=
  match stmt with
  | ExpressionStatement (StringLiteral _) => true
  | _ => false
  end.

Definition isLeading (stmt : Node) : bool :=
  isImportDeclaration stmt || isDirective stmt.

(** [getHoistInsertionPath(scope)] followed by the insertion of the
    visitors, on the node [scope.path.node] of a program or function
    scope: the node after the declaration was inserted.  The remaining
    branches of the source (a scope that is neither, a function whose body
    is still no block) do not arise for the scopes the resolver returns
    and give [None]. *)
Definition insertHoisted (scopeNode : Node) (decl : Node) : option Node :=
  match scopeNode with
  | Program body => Some (Program (insertAfterPrologueAndImports true body decl))
  | _ =>
      if isFunction scopeNode then
        match ensureArrowBlock scopeNode with
        | ArrowFunctionExpression ps (BlockStatement body) =>
            Some (ArrowFunctionExpression ps
                    (BlockStatement (insertAfterPrologueAndImports false body decl)))
        | FunctionExpression i ps (BlockStatement body) =>
            Some (FunctionExpression i ps
                    (BlockStatement (insertAfterPrologueAndImports false body decl)))
        | FunctionDeclaration i ps (BlockStatement body) =>
            Some (FunctionDeclaration i ps
                    (BlockStatement (insertAfterPrologueAndImports false body decl)))
        | _ => None
        end
      else None
  end.

(* ===================================================================== *)
(** ** 8. Runtime helper (the function built by [ensureHelper], lines 365-398)

<<
    function floatedBinding(init) {
      let get = () => { const v = init(); get = () => v; return v; };
      return () => get();
    }
>>
*)
(* ===================================================================== *)

(** How a call ends: it returns a value or it throws. *)
Inductive Completion (Value Exn : Type) : Type :=
| Normal (v : Value)
| Throw (e : Exn).
Arguments Normal {Value Exn} v.
Arguments Throw {Value Exn} e.

(** A zero-argument producer that does not invoke the accessor made for
    it: called in a state of the world, it returns a value or throws, and
    leaves a state of the world.  The world stands for everything the
    producer can read or change; the variable [get] of the helper is
    private to the helper's closures and is not part of it.  The
    producers that do invoke their own accessor are those of
    [ReentrantProducer] below. *)
Definition Producer (World Value Exn : Type) : Type :=
  World -> Completion Value Exn * World.

(** A producer that returns normally whenever it is called. *)
Definition returnsNormally {World Value Exn : Type}
    (p : Producer World Value Exn) : Prop :=
  forall w, exists v, (p w).1 = Normal v.

(** The two closures the variable [get] can hold: the initial one, which
    calls [init], and the one it is rebound to, which returns [v]. *)
Inductive GetClosure (Value : Type) : Type :=
| GetInitial
| GetCached (v : Value).
Arguments GetInitial {Value}.
Arguments GetCached {Value} v.

(** [get()]: how the call ends, the closure [get] holds afterwards, and
    the world afterwards.  When [init()] throws, the assignment to [get]
    is not reached. *)
Definition callGet {World Value Exn : Type} (init : Producer World Value Exn)
    (get : GetClosure Value) (w : World)
    : Completion Value Exn * (GetClosure Value * World) :=
  match get with
  | GetInitial =>
      match init w with                          (* const v = init();  *)
      | (Normal v, w') => (Normal v, (GetCached v, w'))
                                                 (* get = () => v; return v; *)
      | (Throw e, w') => (Throw e, (GetInitial, w'))
      end
  | GetCached v => (Normal v, (GetCached v, w))
  end.

(** The accessor [() => get()] that [floatedBinding(init)] returns; its
    private variable [get] starts as [GetInitial]. *)
Definition accessor {World Value Exn : Type} (init : Producer World Value Exn)
    (get : GetClosure Value) (w : World)
    : Completion Value Exn * (GetClosure Value * World) :=
  callGet init get w.

(** What happens between and around the invocations of one accessor:
    [Invoke] calls it (an exception it throws is caught by the caller),
    [Other f] is any other code, which changes the world but cannot reach
    the accessor's private [get]. *)
Inductive Step (World : Type) : Type :=
| Invoke
| Other (f : World -> World).
Arguments Invoke {World}.
Arguments Other {World} f.

(** Running a finite sequence of steps: how the invocations ended, in
    order, and the final closure and world. *)
Fixpoint run {World Value Exn : Type} (init : Producer World Value Exn)
    (steps : list (Step World)) (get : GetClosure Value) (w : World)
    : list (Completion Value Exn) * (GetClosure Value * World) :=
  match steps with
  | [] => ([], (get, w))
  | Invoke :: rest =>
      let '(c, (get', w')) := accessor init get w in
      let '(cs, final) := run init rest get' w' in
      (c :: cs, final)
  | Other f :: rest => run init rest get (f w)
  end.

(** Observing the executions of a producer: the world is paired with a
    log to which every execution of the producer appends how it ended,
    and which no other code touches. *)
Definition logging {World Value Exn : Type} (p : Producer World Value Exn)
    : Producer (World * list (Completion Value Exn)) Value Exn :=
  fun wl => let '(c, w') := p wl.1 in (c, (w', wl.2 ++ [c])).

Definition liftStep {World Log : Type} (s : Step World) : Step (World * Log) :=
  match s with
  | Invoke => Invoke
  | Other f => Other (fun wl => (f wl.1, wl.2))
  end.

Definition isInvoke {World : Type} (s : Step World) : bool :=
  match s with Invoke => true | Other _ => false end.

(** The number of invocations in a sequence of steps. *)
Definition invocations {World : Type} (steps : list (Step World)) : nat :=
  length (List.filter isInvoke steps).

(** The world after a sequence of steps none of which reaches a producer. *)
Fixpoint others {World : Type} (steps : list (Step World)) (w : World) : World :=
  match steps with
  | [] => w
  | Invoke :: rest => others rest w
  | Other f :: rest => others rest (f w)
  end.

(** *** Producers that invoke their own accessor

    The accessor is an ordinary value: the producer can get hold of it
    (through a variable of an enclosing scope, say) and invoke it while
    it runs, that is while [get] is still the initial closure. *)

(** How an execution of a producer that can reach its own accessor goes
    on: it ends, or it invokes the accessor in some world and goes on
    from how that invocation ended and the world it left. *)
Inductive Course (World Value Exn : Type) : Type :=
| Ends (c : Completion Value Exn) (w : World)
| InvokesAccessor (w : World)
    (next : Completion Value Exn -> World -> Course World Value Exn).
Arguments Ends {World Value Exn} c w.
Arguments InvokesAccessor {World Value Exn} w next.

(** A zero-argument producer as the helper takes it: any function, also
    one whose body invokes the accessor that [floatedBinding] returned
    for it. *)
Definition ReentrantProducer (World Value Exn : Type) : Type :=
  World -> Course World Value Exn.

(** A [Producer] as a producer of this kind: its course ends at once. *)
Definition direct {World Value Exn : Type} (p : Producer World Value Exn)
    : ReentrantProducer World Value Exn :=
  fun w => let '(c, w') := p w in Ends c w'.

Definition callsAccessor {World Value Exn : Type} (c : Course World Value Exn) : bool :=
  match c with
  | Ends _ _ => false
  | InvokesAccessor _ _ => true
  end.

(** A producer that never invokes its own accessor. *)
Definition neverCallsAccessor {World Value Exn : Type}
    (p : ReentrantProducer World Value Exn) : Prop :=
  forall w, callsAccessor (p w) = false.

(** A producer every execution of which returns a value, whatever the
    invocations of the accessor it makes give back. *)
Fixpoint courseEndsNormally {World Value Exn : Type} (c : Course World Value Exn) : Prop :=
  match c with
  | Ends (Normal _) _ => True
  | Ends (Throw _) _ => False
  | InvokesAccessor _ next => forall r w, courseEndsNormally (next r w)
  end.

Definition endsNormally {World Value Exn : Type}
    (p : ReentrantProducer World Value Exn) : Prop :=
  forall w, courseEndsNormally (p w).

(** The body of the initial closure of [get], [const v = init(); get =
    () => v; return v;], along the course [c] of [init()]: the
    invocations of the accessor that [init] makes go through [invoke]
    with the closure [get] holds at that time, and may rebind it; when
    [init()] returns [v], [get] is rebound to [() => v], whatever it held;
    when [init()] throws, [get] stays what it is. *)
Fixpoint follow {World Value Exn : Type}
    (invoke : GetClosure Value -> World ->
              option (Completion Value Exn * (GetClosure Value * World)))
    (c : Course World Value Exn) (get : GetClosure Value)
    : option (Completion Value Exn * (GetClosure Value * World)) :=
  match c with
  | Ends (Normal v) w => Some (Normal v, (GetCached v, w))
  | Ends (Throw e) w => Some (Throw e, (get, w))
  | InvokesAccessor w next =>
      match invoke get w with
      | None => None
      | Some (r, (get', w')) => follow invoke (next r w') get'
      end
  end.

(** [get()], that is the accessor [() => get()], for such a producer.
    [depth] bounds the executions of [init] that are nested in one
    another; [None] when they go deeper. *)
Fixpoint reentrantGet {World Value Exn : Type} (depth : nat)
    (init : ReentrantProducer World Value Exn) (get : GetClosure Value) (w : World)
    : option (Completion Value Exn * (GetClosure Value * World)) :=
  match get with
  | GetCached v => Some (Normal v, (GetCached v, w))
  | GetInitial =>
      match depth with
      | O => None
      | S depth' => follow (reentrantGet depth' init) (init w) GetInitial
      end
  end.

(** Running a finite sequence of steps, as [run] does. *)
Fixpoint reentrantRun {World Value Exn : Type} (depth : nat)
    (init : ReentrantProducer World Value Exn)
    (steps : list (Step World)) (get : GetClosure Value) (w : World)
    : option (list (Completion Value Exn) * (GetClosure Value * World)) :=
  match steps with
  | [] => Some ([], (get, w))
  | Invoke :: rest =>
      match reentrantGet depth init get w with
      | None => None
      | Some (c, (get', w')) =>
          match reentrantRun depth init rest get' w' with
          | None => None
          | Some (cs, final) => Some (c :: cs, final)
          end
      end
  | Other f :: rest => reentrantRun depth init rest get (f w)
  end.

(** Observing the executions, as [logging] does: every execution appends
    how it ended to the log when it ends, a nested one before the one
    that made it. *)
Fixpoint logCourse {World Value Exn : Type} (c : Course World Value Exn)
    (log : list (Completion Value Exn))
    : Course (World * list (Completion Value Exn)) Value Exn :=
  match c with
  | Ends r w => Ends r (w, log ++ [r])
  | InvokesAccessor w next =>
      InvokesAccessor (w, log) (fun r wl => logCourse (next r wl.1) wl.2)
  end.

Definition reentrantLogging {World Value Exn : Type}
    (p : ReentrantProducer World Value Exn)
    : ReentrantProducer (World * list (Completion Value Exn)) Value Exn :=
  fun wl => logCourse (p wl.1) wl.2.

(** The end of a course that invokes no accessor. *)
Definition courseEnd {World Value Exn : Type} (c : Course World Value Exn)
    : callsAccessor c = false -> Completion Value Exn * World :=
  match c with
  | Ends r w => fun _ => (r, w)
  | InvokesAccessor _ _ =>
      fun H => match eq_ind true (fun b : bool => if b then True else False) I false H
               return Completion Value Exn * World with end
  end.

(* ===================================================================== *)
(** ** 9. Transform driver: the two visitors (lib.js, lines 457-596) *)
(* ===================================================================== *)

(** The state of a run besides the marks on the nodes: the table of
    reserved names and the helper name stored on the program
    ([getData("fbHelperName")], unset before [ensureHelper] ran). *)
Record RunState : Type := MkRunState {
  reservedNames : Reserved;
  fbHelperName : option string
}.

(** [getHelperName(path)]. *)
Definition getHelperName (st : RunState) : string :=
  match fbHelperName st with
  | Some s => if bool_decide (s = "") then "floatedBinding" else s
  | None => "floatedBinding"
  end.

Definition isDigit (c : ascii) : bool :=
  let n := nat_of_ascii c in (48 <=? n) && (n <=? 57).

Fixpoint stripDigits (s : string) : string :=
  match s with
  | String c r => if isDigit c then stripDigits r else s
  | EmptyString => EmptyString
  end.

(** The test [/__fb(_\d+)?$/] on a name, read from the end of the name. *)
Definition fbThunkName (name : string) : bool :=
  let r := String.rev name in
  let r' := stripDigits r in
  String.prefix "bf__" r ||
  (negb (bool_decide (r' = r)) && String.prefix "_bf__" r').

(** [isInFloatedBinding(path)]: some node above is a call whose callee is
    the helper. *)
Definition isHelperCall (helperName : string) (n : Node) : bool :=
  match n with
  | CallExpression _ callee _ => isIdentifierNamed callee helperName
  | _ => false
  end.

Definition isInFloatedBinding (st : RunState) (p : NodePath) : bool :=
  bool_decide (is_Some (findParent (isHelperCall (getHelperName st)) p)).

(** [GENERATED.has(n)] and [GENERATED.add(n)]. *)
Definition generatedHas (n : Node) : bool :=
  match n with
  | CallExpression m _ _ | VariableDeclaration m _ _ | VariableDeclarator m _ _ => m
  | _ => false
  end.

Definition generatedAdd (n : Node) : Node :=
  match n with
  | CallExpression _ c args => CallExpression true c args
  | VariableDeclaration _ k ds => VariableDeclaration true k ds
  | VariableDeclarator _ i e => VariableDeclarator true i e
  | _ => n
  end.

(** [t.cloneNode(n, true)]: a deep copy; the copies are new objects, so
    none of them is in [GENERATED]. *)
Fixpoint cloneNode (n : Node) : Node :=
  match n with
  | Identifier x => Identifier x
  | StringLiteral s => StringLiteral s
  | NumericLiteral z => NumericLiteral z
  | BooleanLiteral b => BooleanLiteral b
  | NullLiteral => NullLiteral
  | ThisExpression => ThisExpression
  | Super => Super
  | MetaProperty m p => MetaProperty (cloneNode m) (cloneNode p)
  | CallExpression _ c args => CallExpression false (cloneNode c) (map cloneNode args)
  | NewExpression c args => NewExpression (cloneNode c) (map cloneNode args)
  | MemberExpression o p c => MemberExpression (cloneNode o) (cloneNode p) c
  | BinaryExpression op l r => BinaryExpression op (cloneNode l) (cloneNode r)
  | ConditionalExpression t c a =>
      ConditionalExpression (cloneNode t) (cloneNode c) (cloneNode a)
  | ArrayExpression es => ArrayExpression (map cloneNode es)
  | ObjectExpression ps => ObjectExpression (map cloneNode ps)
  | ObjectProperty k v c => ObjectProperty (cloneNode k) (cloneNode v) c
  | ArrowFunctionExpression ps b =>
      ArrowFunctionExpression (map cloneNode ps) (cloneNode b)
  | FunctionExpression i ps b =>
      FunctionExpression (option_map cloneNode i) (map cloneNode ps) (cloneNode b)
  | FunctionDeclaration i ps b =>
      FunctionDeclaration (cloneNode i) (map cloneNode ps) (cloneNode b)
  | BlockStatement b => BlockStatement (map cloneNode b)
  | ReturnStatement a => ReturnStatement (option_map cloneNode a)
  | ExpressionStatement e => ExpressionStatement (cloneNode e)
  | VariableDeclaration _ k ds => VariableDeclaration false k (map cloneNode ds)
  | VariableDeclarator _ i e =>
      VariableDeclarator false (cloneNode i) (option_map cloneNode e)
  | ImportDefaultSpecifier l => ImportDefaultSpecifier (cloneNode l)
  | ImportDeclaration ss s => ImportDeclaration (map cloneNode ss) (cloneNode s)
  | Program b => Program (map cloneNode b)
  end.

(** What one hoist builds: the allocated name, the target scope, the
    marked copy of the expression, the marked declaration
    [const name = helper(() => copy)] and the marked replacement call
    [name()]. *)
Record Hoist : Type := MkHoist {
  hName : string;
  hTarget : Scope;
  hClone : Node;
  hDecl : Node;
  hCall : Node
}.

(** How a visitor leaves a node: [Skipped], returned before any analysis
    (the node is not a candidate); [Untouched], analysed and left as it
    is; [Floated], hoisted. *)
Inductive Outcome : Type :=
| Skipped
| Untouched
| Floated (h : Hoist).

(** The declaration and the replacement call both visitors build. *)
Definition buildHoist (st : RunState) (fbName : string) (targetScope : Scope)
    (expr : Node) : Hoist :=
  let cloned := generatedAdd (cloneNode expr) in
  let fbDecl :=
    generatedAdd
      (VariableDeclaration false "const"
         [VariableDeclarator false (Identifier fbName)
            (Some (CallExpression false (Identifier (getHelperName st))
                     [ArrowFunctionExpression [] cloned]))]) in
  let fbCall := generatedAdd (CallExpression false (Identifier fbName) []) in
  MkHoist fbName targetScope cloned fbDecl fbCall.

(** The returns of the CallExpression visitor that come before
    "Purity/eligibility": is the call a bare call-expression candidate? *)
Definition callIsCandidate (st : RunState) (path : NodePath) : bool :=
  match node path with
  | CallExpression _ callee _ =>
      if generatedHas (node path) then false
      else if match callee with Identifier c => fbThunkName c | _ => false end then false
      else if isIdentifierNamed callee (getHelperName st) then false
      else if isInFloatedBinding st path then false
      else if negb (bool_decide (is_Some (getFunctionParentPath path))) then false
      else if match parentNode path with
              | Some parent => isVariableDeclarator parent && bool_decide (pkey path = Kinit)
              | None => false
              end then false
      else true
  | _ => false
  end.

(** [dependsOnLocalVar]. *)
Definition localVarKind (k : BindingKind) : bool :=
  match k with
  | BParam => false
  | BVar | BLet | BConst => true
  | _ => false
  end.

Definition dependsOnLocalVar (fvs : list string) (scope : Scope) : bool :=
  existsb (fun n => match getBinding scope n with
                    | None => false
                    | Some (b, _) => localVarKind (bkind b)
                    end) fvs.

(** The CallExpression visitor on a path whose scope ([path.scope]) is
    [scope].  [None] only when the name search ran out of [fuel]. *)
Definition visitCallExpression (fuel : nat) (st : RunState) (path : NodePath)
    (scope : Scope) : option (Outcome * RunState) :=
  if negb (callIsCandidate st path) then Some (Skipped, st)
  else if negb (isPureEnoughInit (Some (node path))) then Some (Untouched, st)
  else if containsFrameSensitiveThings path then Some (Untouched, st)
  else
    let fvs := freeVarsOfNode path in
    match outermostScopeWith fvs scope with
    | None => Some (Untouched, st)
    | Some targetScope =>
        let currentScope := enclosingFunctionScope scope in
        if sameScope targetScope currentScope then Some (Untouched, st)
        else if dependsOnLocalVar fvs scope then Some (Untouched, st)
        else
          let base := deriveBaseFromCall (node path) in
          match makeUniqueFbName fuel (reservedNames st) base targetScope scope with
          | None => None
          | Some (fbName, R) =>
              Some (Floated (buildHoist st fbName targetScope (node path)),
                    MkRunState R (fbHelperName st))
          end
    end.

(** The returns of the VariableDeclarator visitor up to
    [if (!path.node.init) return]: is the declarator a declaration
    candidate? *)
Definition declIsCandidate (path : NodePath) : bool :=
  match node path, parentNode path with
  | VariableDeclarator _ i init, Some vd =>
      if negb (isIdentifier i) then false
      else match vd with
           | VariableDeclaration _ kind _ =>
               if negb (bool_decide (kind = "const") || bool_decide (kind = "let")
                        || bool_decide (kind = "var")) then false
               else if generatedHas (node path) || generatedHas vd then false
               else if negb (bool_decide (is_Some (getFunctionParentPath path))) then false
               else if negb (bool_decide (is_Some init)) then false
               else true
           | _ => false
           end
  | _, _ => false
  end.

(** The VariableDeclarator visitor. *)
Definition visitVariableDeclarator (fuel : nat) (st : RunState) (path : NodePath)
    (scope : Scope) : option (Outcome * RunState) :=
  match node path with
  | VariableDeclarator _ (Identifier idName) (Some init) =>
      if negb (declIsCandidate path) then Some (Skipped, st)
      else if negb (isPureEnoughDecl path) then Some (Untouched, st)
      else
        match getBinding scope idName with
        | None => Some (Untouched, st)
        | Some (binding, _) =>
            if referenceCount binding <? 1 then Some (Untouched, st)
            else
              let fvs := freeVarsOfDecl path in
              if bool_decide (fvs = []) && negb (isLiteral init) then Some (Untouched, st)
              else
                match outermostScopeWith fvs scope with
                | None => Some (Untouched, st)
                | Some targetScope =>
                    let currentScope := enclosingFunctionScope scope in
                    if sameScope targetScope currentScope then Some (Untouched, st)
                    else
                      match makeUniqueFbName fuel (reservedNames st) idName targetScope scope with
                      | None => None
                      | Some (fbName, R) =>
                          Some (Floated (buildHoist st fbName targetScope init),
                                MkRunState R (fbHelperName st))
                      end
                end
        end
  | _ => Some (Skipped, st)
  end.

(* ===================================================================== *)
(** ** 10. The Program visitor: [ensureHelper] (lib.js, lines 335-402 and 452-454) *)
(* ===================================================================== *)

(** [helperBase] and [`${helperBase}_${i}`]. *)
Definition helperBase : string := "floatedBinding".

Definition helperNameN (i : nat) : string := helperBase +:+ "_" +:+ pretty i.

(** The loop [while (taken(`${helperBase}_${i}`)) i++], run for at most
    [fuel] tests; [None] when the fuel runs out. *)
Fixpoint firstFreeHelper (fuel : nat) (tk : string -> bool) (i : nat) : option nat :=
  match fuel with
  | O => None
  | S fuel' => if tk (helperNameN i) then firstFreeHelper fuel' tk (S i) else Some i
  end.

(** The program as [ensureHelper] sees it: the datum
    [_floated_binding_helper_injected] of the program path, the state of
    the run (the table of reserved names and the datum [fbHelperName]) and
    the statements of the program ([programPath.node.body]). *)
Record ProgramPath : Type := MkProgramPath {
  helperInjected : bool;
  programState : RunState;
  programBody : list Node
}.

(** The names the helper can get, numbered: [floatedBinding],
    [floatedBinding_1], [floatedBinding_2], ... *)
Definition helperCandidate (k : nat) : string :=
  match k with
  | O => helperBase
  | S _ => helperNameN k
  end.

Section EnsureHelper.

(** The host's builder [t.assignmentExpression].  Assignment expressions
    are outside the subset of [Node]; the one assignment of the helper,
    [get = () => v], is kept as the node this builder returns. *)
Variable assignmentExpression : string -> Node -> Node -> Node.

(** The function declaration built for the helper (lines 365-398). *)
Definition helperDeclaration (helperName : string) : Node :=
  FunctionDeclaration (Identifier helperName) [Identifier "init"]
    (BlockStatement
       [VariableDeclaration false "let"
          [VariableDeclarator false (Identifier "get")
             (Some (ArrowFunctionExpression []
                      (BlockStatement
                         [VariableDeclaration false "const"
                            [VariableDeclarator false (Identifier "v")
                               (Some (CallExpression false (Identifier "init") []))];
                          ExpressionStatement
                            (assignmentExpression "=" (Identifier "get")
                               (ArrowFunctionExpression [] (Identifier "v")));
                          ReturnStatement (Some (Identifier "v"))])))];
        ReturnStatement
          (Some (ArrowFunctionExpression []
                   (CallExpression false (Identifier "get") [])))]).

(** [ensureHelper(programPath)], with [programPath.scope] as
    [programScope]: the program path afterwards.  The closure [taken] of
    [ensureHelper] is part (a) of the closure of [makeUniqueFbName].
    [None] only when the name search ran out of [fuel].  The Program
    visitor is this function. *)
Definition ensureHelper (fuel : nat) (programScope : Scope) (programPath : ProgramPath)
    : option ProgramPath :=
  if helperInjected programPath then Some programPath
  else
    let R1 := (getReserved (reservedNames (programState programPath)) programScope).2 in
    let taken := takenAbove R1 programScope in
    let chosen :=
      if taken helperBase then
        match firstFreeHelper fuel taken 1 with
        | Some i => Some (helperNameN i)
        | None => None
        end
      else Some helperBase in
    match chosen with
    | None => None
    | Some helperName =>
        Some (MkProgramPath true
                (MkRunState (reserve R1 programScope helperName) (Some helperName))
                (insertAfterPrologueAndImports true (programBody programPath)
                   (helperDeclaration helperName)))
    end.

End EnsureHelper.

(* ===================================================================== *)
(** ** 11. Vocabulary of the further properties *)
(* ===================================================================== *)

(** Strings made of digits ([\d*]), and of the characters of
    [[A-Za-z0-9_$]] that [sanitizeBase] keeps. *)
Fixpoint allDigits (s : string) : bool :=
  match s with
  | EmptyString => true
  | String c r => isDigit c && allDigits r
  end.

Fixpoint allIdentChars (s : string) : bool :=
  match s with
  | EmptyString => true
  | String c r => identChar c && allIdentChars r
  end.

(** The names the pattern [/__fb(_\d+)?$/] matches: they end in [__fb], or
    in [__fb_] and one or more digits. *)
Definition endsLikeThunk (name : string) : Prop :=
  (exists pre, name = pre +:+ "__fb") \/
  (exists pre ds, ds <> "" /\ allDigits ds = true /\ name = pre +:+ "__fb_" +:+ ds).

(** A name [sanitizeBase] leaves as it is. *)
Definition cleanName (x : string) : Prop := x <> "" /\ allIdentChars x = true.

(** A hoist from a use-site with scope [scope] is well scoped: the target
    is a function or program scope strictly above the function of the
    use-site, the names [fvs] are resolvable from it, and the name of the
    thunk is neither visible at the target nor bound between use-site and
    target. *)
Definition WellScoped (scope : Scope) (fvs : list string) (h : Hoist) : Prop :=
  functionOrTop (hTarget h) = true /\
  In (hTarget h) (chain scope) /\
  depth (hTarget h) < depth (enclosingFunctionScope scope) /\
  (forall n, In n fvs -> Resolvable (hTarget h) n) /\
  hasBinding (hTarget h) (hName h) = false /\
  hasGlobal (hTarget h) (hName h) = false /\
  (forall s, In s (scopesBelow (hTarget h) scope) -> hasOwnBinding s (hName h) = false).

(** What the two collectors read off an entered path: the name
    [freeVarsOfNode] adds, if any, and whether
    [containsFrameSensitiveThings] sets [bad]. *)
Definition referencedName (p : NodePath) : option string :=
  if isReferencedIdentifier p
  then match node p with Identifier x => Some x | _ => None end
  else None.

Definition observe (p : NodePath) : option string * bool :=
  (referencedName p, frameSensitiveVisit p).

(** The code before the transform: at every use the expression is
    evaluated in place, that is, the producer is called each time. *)
Fixpoint callEachTime {World Value Exn : Type} (p : Producer World Value Exn)
    (steps : list (Step World)) (w : World)
    : list (Completion Value Exn) * World :=
  match steps with
  | [] => ([], w)
  | Invoke :: rest =>
      let '(c, w') := p w in
      let '(cs, final) := callEachTime p rest w' in
      (c :: cs, final)
  | Other f :: rest => callEachTime p rest (f w)
  end.

(** A producer that neither reads nor changes the world: it ends the same
    way whenever it is called. *)
Definition constantProducer {World Value Exn : Type} (p : Producer World Value Exn) : Prop :=
  exists c, forall w, p w = (c, w).

(** Names without shadowing on the chain of a scope: no name is an own
    binding of two scopes of the chain, and no name that a scope of the
    chain binds is also recorded as global. *)
Definition unshadowed (scope : Scope) : Prop :=
  (forall n s1 s2, In s1 (chain scope) -> In s2 (chain scope) ->
     hasOwnBinding s1 n = true -> hasOwnBinding s2 n = true -> s1 = s2) /\
  (forall n s1, In s1 (chain scope) -> hasOwnBinding s1 n = true ->
     hasGlobal scope n = false).

(* ===================================================================== *)
(** ** 12. Sample programs *)
(* ===================================================================== *)

(** The program of test_data/3 and test_data/4:
<<
    function add(x) { return function (y) { return x + y; }; }
    function main(x) {
      return function (y) {
        return function (z) { BODY };
      };
    }
>>
    The scopes of [main], of the function of [y] and of the function of
    [z]; [addKind] is the kind of the binding of [add] ([BHoisted] for the
    function declaration above, [BVar] for [var add = function ...]), and
    [zLocals] are the bindings of the innermost function besides [z]. *)
Definition param : Binding := MkBinding BParam 1.

Definition sampleProgramScope (addKind : BindingKind) : Scope :=
  ProgramScope
    (MkScopeData 0
       (<["add" := MkBinding addKind 1]> (<["main" := MkBinding BHoisted 0]> ∅)) ∅).

Definition sampleMainScope (addKind : BindingKind) : Scope :=
  NestedScope (MkScopeData 1 (<["x" := param]> ∅) ∅) (FunctionBlock [Identifier "x"])
    (sampleProgramScope addKind).

Definition sampleYScope (addKind : BindingKind) : Scope :=
  NestedScope (MkScopeData 2 (<["y" := param]> ∅) ∅) (FunctionBlock [Identifier "y"])
    (sampleMainScope addKind).

Definition sampleZScope (addKind : BindingKind) (zLocals : gmap string Binding) : Scope :=
  NestedScope (MkScopeData 3 (<["z" := param]> zLocals) ∅) (FunctionBlock [Identifier "z"])
    (sampleYScope addKind).

(** The nodes from a statement list [body] of the innermost function up to
    the declaration of [main]. *)
Definition aboveBody (body : list Node) : list Node :=
  let fz := FunctionExpression None [Identifier "z"] (BlockStatement body) in
  let fy := FunctionExpression None [Identifier "y"]
              (BlockStatement [ReturnStatement (Some fz)]) in
  let fmain := FunctionDeclaration (Identifier "main") [Identifier "x"]
                 (BlockStatement [ReturnStatement (Some fy)]) in
  [BlockStatement body; fz; ReturnStatement (Some fz);
   BlockStatement [ReturnStatement (Some fz)]; fy; ReturnStatement (Some fy);
   BlockStatement [ReturnStatement (Some fy)]; fmain].

(** [add(x)(y)]. *)
Definition addXY : Node :=
  CallExpression false (CallExpression false (Identifier "add") [Identifier "x"])
    [Identifier "y"].

(** test_data/3: [BODY] is [return add(x)(y) + z]; the path of
    [add(x)(y)]. *)
Definition sumPath : NodePath :=
  let sum := BinaryExpression "+" addXY (Identifier "z") in
  MkPath addXY Kleft
    (sum :: ReturnStatement (Some sum) :: aboveBody [ReturnStatement (Some sum)]).

(** A variant of test_data/4: [BODY] is [var xy = add(x)(y); return z], so
    [xy] is never read; the path of the declarator of [xy]. *)
Definition unusedDeclarator : Node :=
  VariableDeclarator false (Identifier "xy") (Some addXY).

Definition unusedPath : NodePath :=
  let decl := VariableDeclaration false "var" [unusedDeclarator] in
  MkPath unusedDeclarator Kdeclarations
    (decl :: aboveBody [decl; ReturnStatement (Some (Identifier "z"))]).

(** test_data/4: [BODY] is [var xy = add(x)(y); return add(xy)(z)]; the
    paths of the declarator of [xy], of its initialiser, of [add(xy)(z)]
    and of [add(xy)], and the scope of the innermost function. *)
Definition xyDeclarator : Node :=
  VariableDeclarator false (Identifier "xy") (Some addXY).

Definition addXyZ : Node :=
  CallExpression false (CallExpression false (Identifier "add") [Identifier "xy"])
    [Identifier "z"].

Definition xyBody : list Node :=
  [VariableDeclaration false "var" [xyDeclarator]; ReturnStatement (Some addXyZ)].

Definition xyPath : NodePath :=
  MkPath xyDeclarator Kdeclarations
    (VariableDeclaration false "var" [xyDeclarator] :: aboveBody xyBody).

Definition xyInitPath : NodePath :=
  MkPath addXY Kinit (xyDeclarator :: ancestors xyPath).

Definition addXyZPath : NodePath :=
  MkPath addXyZ Kargument (ReturnStatement (Some addXyZ) :: aboveBody xyBody).

Definition addXyPath : NodePath :=
  MkPath (CallExpression false (Identifier "add") [Identifier "xy"]) Kcallee
    (addXyZ :: ReturnStatement (Some addXyZ) :: aboveBody xyBody).

Definition xyScope : Scope :=
  sampleZScope BHoisted (<["xy" := MkBinding BVar 1]> ∅).

(** [BODY] is [return k(function (q) { return q; })] with an undeclared
    (global) [k]; the path of the call of [k]. *)
Definition identityFunction : Node :=
  FunctionExpression None [Identifier "q"]
    (BlockStatement [ReturnStatement (Some (Identifier "q"))]).

Definition callbackCall : Node :=
  CallExpression false (Identifier "k") [identityFunction].

Definition callbackPath : NodePath :=
  MkPath callbackCall Kargument
    (ReturnStatement (Some callbackCall)
       :: aboveBody [ReturnStatement (Some callbackCall)]).

Definition callbackScope : Scope :=
  NestedScope (MkScopeData 3 (<["z" := param]> ∅) ∅) (FunctionBlock [Identifier "z"])
    (NestedScope (MkScopeData 2 (<["y" := param]> ∅) ∅) (FunctionBlock [Identifier "y"])
       (NestedScope (MkScopeData 1 (<["x" := param]> ∅) ∅) (FunctionBlock [Identifier "x"])
          (ProgramScope
             (MkScopeData 0 (<["main" := MkBinding BHoisted 0]> ∅) {["k"]})))).

(** [BODY] is [return k(function () { return this; })], and the same
    with [y] in the place of [this]; the paths of the calls of [k]. *)
Definition callbackReturning (e : Node) : Node :=
  CallExpression false (Identifier "k")
    [FunctionExpression None [] (BlockStatement [ReturnStatement (Some e)])].

Definition callbackReturningPath (e : Node) : NodePath :=
  MkPath (callbackReturning e) Kargument
    (ReturnStatement (Some (callbackReturning e))
       :: aboveBody [ReturnStatement (Some (callbackReturning e))]).

Definition receiverPath : NodePath := callbackReturningPath ThisExpression.

(** The state of a run after [ensureHelper]: the helper is named
    [floatedBinding] and reserved at the program scope. *)
Definition sampleState : RunState :=
  MkRunState (<[0 := {["add"; "main"; "floatedBinding"]}]> ∅) (Some "floatedBinding").

(** A program in which the floated expression contains a function with a
    declaration of its own, and the names that function binds are also
    bound outside ([k] and [h] are undeclared, hence global):
<<
    function main(w, a) {
      return function (y) {
        return function (z) {
          return k(function (a) { var w = h(y); return w(a); });
        };
      };
    }
>>
    The scopes of [main], of the function of [y] and of the function of
    [z], and the path of the call of [k]. *)
Definition shadowMainScope : Scope :=
  NestedScope (MkScopeData 1 (<["w" := param]> (<["a" := param]> ∅)) ∅)
    (FunctionBlock [Identifier "w"; Identifier "a"])
    (ProgramScope
       (MkScopeData 0 (<["main" := MkBinding BHoisted 0]> ∅) {["k"; "h"]})).

Definition shadowYScope : Scope :=
  NestedScope (MkScopeData 2 (<["y" := param]> ∅) ∅) (FunctionBlock [Identifier "y"])
    shadowMainScope.

Definition shadowZScope : Scope :=
  NestedScope (MkScopeData 3 (<["z" := param]> ∅) ∅) (FunctionBlock [Identifier "z"])
    shadowYScope.

Definition shadowDeclarator : Node :=
  VariableDeclarator false (Identifier "w")
    (Some (CallExpression false (Identifier "h") [Identifier "y"])).

Definition shadowCallback : Node :=
  FunctionExpression None [Identifier "a"]
    (BlockStatement
       [VariableDeclaration false "var" [shadowDeclarator];
        ReturnStatement (Some (CallExpression false (Identifier "w") [Identifier "a"]))]).

Definition shadowCall : Node := CallExpression false (Identifier "k") [shadowCallback].

Definition shadowPath : NodePath :=
  MkPath shadowCall Kargument
    (ReturnStatement (Some shadowCall) :: aboveBody [ReturnStatement (Some shadowCall)]).

Definition shadowState : RunState :=
  MkRunState (<[0 := {["main"; "floatedBinding"]}]> ∅) (Some "floatedBinding").

(** After the hoist [h] of the call of [k] into the function of [y]: the
    nodes above the inserted declaration (the body of that function now
    starts with it, and the innermost function returns the replacement
    call), and the scopes of the producer arrow and of the copied callback
    inside the declaration. *)
Definition aboveHoisted (h : Hoist) : list Node :=
  let fz := FunctionExpression None [Identifier "z"]
              (BlockStatement [ReturnStatement (Some (hCall h))]) in
  let bodyY := insertAfterPrologueAndImports false [ReturnStatement (Some fz)] (hDecl h) in
  let fy := FunctionExpression None [Identifier "y"] (BlockStatement bodyY) in
  [BlockStatement bodyY; fy; ReturnStatement (Some fy)].

Definition copyArrowScope : Scope :=
  NestedScope (MkScopeData 4 ∅ ∅) (FunctionBlock []) shadowYScope.

Definition copyCallbackScope : Scope :=
  NestedScope (MkScopeData 5 (<["a" := param]> (<["w" := MkBinding BVar 1]> ∅)) ∅)
    (FunctionBlock [Identifier "a"]) copyArrowScope.

(** The path on which the traversal of the inserted declaration enters
    the copied declarator of [w]. *)
Definition copiedDeclaratorPath (h : Hoist) : option NodePath :=
  List.find (fun p => match node p with
                      | VariableDeclarator _ (Identifier x) _ => bool_decide (x = "w")
                      | _ => false
                      end)
    (descend (aboveHoisted h) (hDecl h)).

(** A function whose parameter has the name of a parameter of the
    function around it ([g] is undeclared, hence global):
<<
    function outer(a) { return function (a) { return g(a); }; }
>>
    The scopes of the two functions and the path of [g(a)]. *)
Definition sameNameOuterScope : Scope :=
  NestedScope (MkScopeData 1 (<["a" := param]> ∅) ∅) (FunctionBlock [Identifier "a"])
    (ProgramScope (MkScopeData 0 (<["outer" := MkBinding BHoisted 0]> ∅) {["g"]})).

Definition sameNameInnerScope : Scope :=
  NestedScope (MkScopeData 2 (<["a" := param]> ∅) ∅) (FunctionBlock [Identifier "a"])
    sameNameOuterScope.

Definition sameNamePath : NodePath :=
  let call := CallExpression false (Identifier "g") [Identifier "a"] in
  let inner := FunctionExpression None [Identifier "a"]
                 (BlockStatement [ReturnStatement (Some call)]) in
  let outer := FunctionDeclaration (Identifier "outer") [Identifier "a"]
                 (BlockStatement [ReturnStatement (Some inner)]) in
  MkPath call Kargument
    [ReturnStatement (Some call); BlockStatement [ReturnStatement (Some call)]; inner;
     ReturnStatement (Some inner); BlockStatement [ReturnStatement (Some inner)]; outer].

(** A function with a variable of its own that has the name of a
    parameter of the function around it ([g] is undeclared, hence
    global):
<<
    function outer(a) { return function (b) { var a = b; return g(a); }; }
>>
    The scope of the inner function and the path of [g(a)]. *)
Definition localVarScope : Scope :=
  NestedScope (MkScopeData 2 (<["b" := param]> (<["a" := MkBinding BVar 1]> ∅)) ∅)
    (FunctionBlock [Identifier "b"]) sameNameOuterScope.

Definition localVarPath : NodePath :=
  let call := CallExpression false (Identifier "g") [Identifier "a"] in
  let body :=
    [VariableDeclaration false "var"
       [VariableDeclarator false (Identifier "a") (Some (Identifier "b"))];
     ReturnStatement (Some call)] in
  let inner := FunctionExpression None [Identifier "b"] (BlockStatement body) in
  let outer := FunctionDeclaration (Identifier "outer") [Identifier "a"]
                 (BlockStatement [ReturnStatement (Some inner)]) in
  MkPath call Kargument
    [ReturnStatement (Some call); BlockStatement body; inner;
     ReturnStatement (Some inner); BlockStatement [ReturnStatement (Some inner)]; outer].

(** A variant of test_data/4: [BODY] is [var pair = [1, 2]; return pair];
    the path of the declarator of [pair] and the scope of the innermost
    function. *)
Definition pairDeclarator : Node :=
  VariableDeclarator false (Identifier "pair")
    (Some (ArrayExpression [NumericLiteral 1; NumericLiteral 2])).

Definition pairPath : NodePath :=
  let decl := VariableDeclaration false "var" [pairDeclarator] in
  MkPath pairDeclarator Kdeclarations
    (decl :: aboveBody [decl; ReturnStatement (Some (Identifier "pair"))]).

Definition pairScope : Scope :=
  sampleZScope BHoisted (<["pair" := MkBinding BVar 1]> ∅).

(** A producer that invokes the accessor the first time it runs, in world
    0, and adds one to what it gets (0 were the invocation to throw);
    otherwise it returns 0. *)
Definition selfInvoking : ReentrantProducer nat nat unit :=
  fun w =>
    if Nat.eqb w 0
    then InvokesAccessor 1
           (fun r w' => match r with
                        | Normal v => Ends (Normal (S v)) w'
                        | Throw _ => Ends (Normal 0) w'
                        end)
    else Ends (Normal 0) w.

(* ===================================================================== *)
(** ** 13. Lemmas *)
(* ===================================================================== *)

(** *** Induction on nodes *)

Lemma list_sum_In (f : Node -> nat) (l : list Node) (x : Node) :
  In x l -> f x <= list_sum (map f l).
Proof.
  induction l as [|a l IH]; simpl; [tauto|].
  intros [->|H]; [lia|]. specialize (IH H). lia.
Qed.

Lemma In_pair_map (k0 k : Key) (c : Node) (l : list Node) :
  In (k, c) (map (pair k0) l) -> k = k0 /\ In c l.
Proof.
  intros H. apply in_map_iff in H as (x & Heq & Hx). by inversion Heq; subst.
Qed.

Lemma In_optNode (k0 k : Key) (c : Node) (o : option Node) :
  In (k, c) (optNode k0 o) -> k = k0 /\ o = Some c.
Proof.
  destruct o; simpl; [|tauto]. intros [Heq|[]]. by inversion Heq; subst.
Qed.

Ltac split_children :=
  repeat match goal with
    | H : _ \/ _ |- _ => destruct H
    | H : False |- _ => destruct H
    | H : (_, _) = (_, _) |- _ => inversion H; subst; clear H
    | H : In _ (_ ++ _) |- _ => apply in_app_or in H
    | H : In _ (_ :: _) |- _ => simpl in H
    | H : In _ [] |- _ => destruct H
    | H : In _ (map (pair _) _) |- _ => apply In_pair_map in H as [-> H]
    | H : In _ (optNode _ _) |- _ => apply In_optNode in H as [-> ->]
    end.

Lemma child_smaller (n : Node) (k : Key) (c : Node) :
  In (k, c) (children n) -> nodeSize c < nodeSize n.
Proof.
  destruct n; simpl; intros Hin; split_children;
    try match goal with
      | H : In c ?l |- _ => apply (list_sum_In nodeSize) in H
      end; lia.
Qed.

Lemma Node_children_ind (P : Node -> Prop) :
  (forall n, (forall k c, In (k, c) (children n) -> P c) -> P n) ->
  forall n, P n.
Proof.
  intros step.
  assert (H : forall m n, nodeSize n < m -> P n).
  { induction m as [|m IH]; intros n Hn; [lia|].
    apply step. intros k c Hin. apply IH.
    apply child_smaller in Hin. lia. }
  intros n. apply (H (S (nodeSize n))). lia.
Qed.

(** *** Purity analysis *)

Lemma walk_bad (x : Node) : walk x true = true.
Proof. by destruct x. Qed.

Lemma walk_or (x : Node) (b : bool) : walk x b = b || walk x false.
Proof. destruct b; [apply walk_bad | done]. Qed.

Lemma walk_each (l : list Node) (b : bool) :
  fold_left (fun b v => walk v b) l b = b || existsb (fun v => walk v false) l.
Proof.
  revert b. induction l as [|a l IH]; intros b; simpl.
  - by rewrite orb_false_r.
  - rewrite IH, (walk_or a b). by rewrite orb_assoc.
Qed.

Lemma existsb_walk_map (k : Key) (l : list Node) :
  existsb (fun kc : Key * Node => walk kc.2 false) (map (pair k) l) =
  existsb (fun v => walk v false) l.
Proof. induction l as [|a l IH]; simpl; [done|]. by rewrite IH. Qed.

Ltac walk_flags :=
  repeat match goal with
    | |- context [walk ?x ?b] =>
        lazymatch b with
        | false => fail
        | _ => rewrite (walk_or x b)
        end
    end.

(** One round of [walk]: the node itself, then its children. *)
Lemma walk_children (x : Node) :
  walk x false =
  isNullaryCall x || existsb (fun kc => walk kc.2 false) (children x).
Proof.
  destruct x; try reflexivity;
    try (destruct arguments);
    try (destruct id);
    try (destruct argument);
    try (destruct init);
    cbn -[walk isNullaryCall];
    unfold walk at 1; fold walk; cbn -[walk];
    rewrite ?existsb_app, ?existsb_walk_map, ?walk_each; cbn -[walk];
    walk_flags;
    rewrite ?orb_false_r, <- ?orb_assoc; reflexivity.
Qed.

(** The walk answers exactly whether a nullary call occurs in the node. *)
Lemma exprContainsNullaryCall_iff (n : Node) :
  exprContainsNullaryCall n = true <->
  exists s, Subnode s n /\ isNullaryCall s = true.
Proof.
  unfold exprContainsNullaryCall.
  induction n as [n IH] using Node_children_ind.
  rewrite walk_children, orb_true_iff, existsb_exists. split.
  - intros [Hn | ([k c] & Hin & Hc)].
    + exists n. split; [constructor | done].
    + apply (IH k c Hin) in Hc as (s & Hs & Hnull).
      exists s. split; [|done]. eapply Subnode_below; eauto.
  - intros (s & Hs & Hnull). destruct Hs as [|n k c Hin Hs]; [by left|].
    right. exists (k, c). split; [done|]. apply (IH k c Hin). eauto.
Qed.

Lemma exprContainsNullaryCall_false (n : Node) :
  exprContainsNullaryCall n = false <->
  forall s, Subnode s n -> isNullaryCall s = false.
Proof.
  split.
  - intros Hn s Hs. destruct (isNullaryCall s) eqn:E; [|done].
    assert (exprContainsNullaryCall n = true) by (apply exprContainsNullaryCall_iff; eauto).
    congruence.
  - intros H. destruct (exprContainsNullaryCall n) eqn:E; [|done].
    apply exprContainsNullaryCall_iff in E as (s & Hs & Hnull).
    rewrite (H s Hs) in Hnull. done.
Qed.

(** Copies and marks do not change what the walk sees. *)
Lemma children_cloneNode (n : Node) :
  children (cloneNode n) = map (fun kc => (kc.1, cloneNode kc.2)) (children n).
Proof.
  destruct n; try reflexivity;
    try (destruct id); try (destruct argument); try (destruct init);
    cbn; rewrite ?map_app, ?map_map; reflexivity.
Qed.

Lemma children_generatedAdd (n : Node) : children (generatedAdd n) = children n.
Proof. by destruct n. Qed.

Lemma isNullaryCall_cloneNode (n : Node) :
  isNullaryCall (cloneNode n) = isNullaryCall n.
Proof. destruct n; try reflexivity. by destruct arguments. Qed.

Lemma isNullaryCall_generatedAdd (n : Node) :
  isNullaryCall (generatedAdd n) = isNullaryCall n.
Proof. by destruct n. Qed.

Lemma walk_cloneNode (n : Node) : walk (cloneNode n) false = walk n false.
Proof.
  induction n as [n IH] using Node_children_ind.
  rewrite (walk_children (cloneNode n)), (walk_children n).
  rewrite isNullaryCall_cloneNode, children_cloneNode. f_equal.
  induction (children n) as [|[k c] l IHl]; simpl; [done|].
  rewrite (IH k c) by (by left). f_equal. apply IHl.
  intros k' c' Hin. apply (IH k'). by right.
Qed.

Lemma walk_generatedAdd (n : Node) : walk (generatedAdd n) false = walk n false.
Proof.
  by rewrite (walk_children (generatedAdd n)), (walk_children n),
    isNullaryCall_generatedAdd, children_generatedAdd.
Qed.

Lemma exprContainsNullaryCall_copy (n : Node) :
  exprContainsNullaryCall (generatedAdd (cloneNode n)) = exprContainsNullaryCall n.
Proof.
  unfold exprContainsNullaryCall. by rewrite walk_generatedAdd, walk_cloneNode.
Qed.

(** *** The visitors, read backwards from their result *)

(** When the CallExpression visitor floats. *)
Lemma visitCallExpression_Floated fuel st path scope h st' :
  visitCallExpression fuel st path scope = Some (Floated h, st') <->
  callIsCandidate st path = true /\
  isPureEnoughInit (Some (node path)) = true /\
  containsFrameSensitiveThings path = false /\
  exists targetScope fbName R,
    outermostScopeWith (freeVarsOfNode path) scope = Some targetScope /\
    sameScope targetScope (enclosingFunctionScope scope) = false /\
    dependsOnLocalVar (freeVarsOfNode path) scope = false /\
    makeUniqueFbName fuel (reservedNames st) (deriveBaseFromCall (node path))
      targetScope scope = Some (fbName, R) /\
    h = buildHoist st fbName targetScope (node path) /\
    st' = MkRunState R (fbHelperName st).
Proof.
  unfold visitCallExpression.
  destruct (callIsCandidate st path); cbn [negb]; [|split; [inversion 1 | intros [? _]; congruence]].
  destruct (isPureEnoughInit (Some (node path))); cbn [negb];
    [|split; [inversion 1 | intros (_ & ? & _); congruence]].
  destruct (containsFrameSensitiveThings path);
    [split; [inversion 1 | intros (_ & _ & ? & _); congruence]|].
  destruct (outermostScopeWith (freeVarsOfNode path) scope) as [t|];
    [|split; [inversion 1 | intros (_ & _ & _ & ? & ? & ? & ? & _); congruence]].
  destruct (sameScope t (enclosingFunctionScope scope)) eqn:Esame.
  { split; [inversion 1|]. intros (_ & _ & _ & t' & ? & ? & Ht & E & _).
    inversion Ht; subst. congruence. }
  destruct (dependsOnLocalVar (freeVarsOfNode path) scope) eqn:Edep.
  { split; [inversion 1|]. intros (_ & _ & _ & t' & ? & ? & Ht & _ & ? & _); congruence. }
  destruct (makeUniqueFbName _ _ _ t scope) as [[name R]|] eqn:Ename.
  - split.
    + intros H. inversion H; subst. repeat split. by exists t, name, R.
    + intros (_ & _ & _ & t' & name' & R' & Ht & _ & _ & Hn & -> & ->).
      inversion Ht; subst. rewrite Ename in Hn. by inversion Hn; subst.
  - split; [inversion 1|].
    intros (_ & _ & _ & t' & name' & R' & Ht & _ & _ & Hn & _).
    inversion Ht; subst. congruence.
Qed.

(** A result of the CallExpression visitor other than [Floated] leaves
    the state as it was. *)
Lemma visitCallExpression_state fuel st path scope o st' :
  visitCallExpression fuel st path scope = Some (o, st') ->
  (forall h, o <> Floated h) -> st' = st.
Proof.
  unfold visitCallExpression. intros H Ho.
  repeat match type of H with
    | (if ?c then _ else _) = _ => destruct c
    | match ?c with _ => _ end = _ => destruct c
    | (let '(_, _) := ?c in _) = _ => destruct c
    end; inversion H; subst; try done.
  by destruct (Ho _ eq_refl).
Qed.

(** When the VariableDeclarator visitor floats. *)
Lemma visitVariableDeclarator_Floated fuel st path scope h st' :
  visitVariableDeclarator fuel st path scope = Some (Floated h, st') <->
  exists m idName init binding owner targetScope fbName R,
    node path = VariableDeclarator m (Identifier idName) (Some init) /\
    declIsCandidate path = true /\
    isPureEnoughDecl path = true /\
    getBinding scope idName = Some (binding, owner) /\
    1 <= referenceCount binding /\
    (freeVarsOfDecl path <> [] \/ isLiteral init = true) /\
    outermostScopeWith (freeVarsOfDecl path) scope = Some targetScope /\
    sameScope targetScope (enclosingFunctionScope scope) = false /\
    makeUniqueFbName fuel (reservedNames st) idName targetScope scope
      = Some (fbName, R) /\
    h = buildHoist st fbName targetScope init /\
    st' = MkRunState R (fbHelperName st).
Proof.
  unfold visitVariableDeclarator.
  destruct (node path) as [| | | | | | | | | | | | | | | | | | | | | | |m i init| | |] eqn:En;
    try (split; [inversion 1 | intros (? & ? & ? & ? & ? & ? & ? & ? & ? & _); congruence]).
  destruct i as [idName| | | | | | | | | | | | | | | | | | | | | | | | | |];
    try (split; [inversion 1 | intros (? & ? & ? & ? & ? & ? & ? & ? & ? & _); congruence]).
  destruct init as [init|];
    [|split; [inversion 1 | intros (? & ? & ? & ? & ? & ? & ? & ? & ? & _); congruence]].
  destruct (declIsCandidate path); cbn [negb];
    [|split; [inversion 1 | intros (? & ? & ? & ? & ? & ? & ? & ? & _ & ? & _); congruence]].
  destruct (isPureEnoughDecl path); cbn [negb];
    [|split; [inversion 1 | intros (? & ? & ? & ? & ? & ? & ? & ? & _ & _ & ? & _); congruence]].
  destruct (getBinding scope idName) as [[b o]|] eqn:Eb;
    [|split; [inversion 1|];
      intros (? & ? & ? & ? & ? & ? & ? & ? & E & _ & _ & ? & _);
      inversion E; subst; congruence].
  destruct (referenceCount b <? 1) eqn:Eref.
  { split; [inversion 1|].
    intros (? & ? & ? & ? & ? & ? & ? & ? & E & _ & _ & Hb & Hr & _).
    inversion E; subst. rewrite Eb in Hb. inversion Hb; subst.
    apply Nat.ltb_lt in Eref. lia. }
  apply Nat.ltb_ge in Eref.
  destruct (bool_decide (freeVarsOfDecl path = []) && negb (isLiteral init)) eqn:Efv.
  { split; [inversion 1|].
    intros (? & ? & ? & ? & ? & ? & ? & ? & E & _ & _ & _ & _ & Hfv & _).
    inversion E; subst. apply andb_true_iff in Efv as [Hnil Hlit].
    apply bool_decide_eq_true in Hnil. apply negb_true_iff in Hlit.
    destruct Hfv; congruence. }
  assert (Hfv : freeVarsOfDecl path <> [] \/ isLiteral init = true).
  { apply andb_false_iff in Efv as [Hnil|Hlit].
    - left. by apply bool_decide_eq_false in Hnil.
    - right. by apply negb_false_iff in Hlit. }
  destruct (outermostScopeWith (freeVarsOfDecl path) scope) as [t|] eqn:Et;
    [|split; [inversion 1|]; intros (? & ? & ? & ? & ? & ? & ? & ? & _ & _ & _ & _ & _ & _ & ? & _); congruence].
  destruct (sameScope t (enclosingFunctionScope scope)) eqn:Esame.
  { split; [inversion 1|].
    intros (? & ? & ? & ? & ? & ? & ? & ? & _ & _ & _ & _ & _ & _ & Ht & E & _).
    inversion Ht; subst. congruence. }
  destruct (makeUniqueFbName _ _ _ t scope) as [[name R]|] eqn:Ename.
  - split.
    + intros H. inversion H; subst.
      exists m, idName, init, b, o, t, name, R. by repeat split.
    + intros (? & ? & ? & ? & ? & ? & ? & ? & E & _ & _ & _ & _ & _ & Ht & _ & Hn & -> & ->).
      inversion E; subst. inversion Ht; subst. rewrite Ename in Hn.
      by inversion Hn; subst.
  - split; [inversion 1|].
    intros (? & ? & ? & ? & ? & ? & ? & ? & E & _ & _ & _ & _ & _ & Ht & _ & Hn & _).
    inversion E; subst. inversion Ht; subst. congruence.
Qed.

Lemma visitVariableDeclarator_state fuel st path scope o st' :
  visitVariableDeclarator fuel st path scope = Some (o, st') ->
  (forall h, o <> Floated h) -> st' = st.
Proof.
  unfold visitVariableDeclarator. intros H Ho.
  repeat match type of H with
    | (if ?c then _ else _) = _ => destruct c
    | match ?c with _ => _ end = _ => destruct c
    | (let '(_, _) := ?c in _) = _ => destruct c
    end; inversion H; subst; try done.
  by destruct (Ho _ eq_refl).
Qed.

(** *** Scope chains *)

Lemma chain_self (s : Scope) : In s (chain s).
Proof. destruct s; simpl; auto. Qed.

Lemma chain_incl (s s' : Scope) : In s' (chain s) -> incl (chain s') (chain s).
Proof.
  induction s as [d|d b p IH]; simpl.
  - intros [<-|[]]. apply incl_refl.
  - intros [<-|H]; [apply incl_refl|]. apply incl_tl. auto.
Qed.

Lemma depth_chain (s s' : Scope) : In s' (chain s) -> depth s' <= depth s.
Proof.
  induction s as [d|d b p IH]; simpl.
  - intros [<-|[]]. done.
  - intros [<-|H]; [done|]. specialize (IH H). lia.
Qed.

Lemma getProgramParent_chain (s : Scope) : In (getProgramParent s) (chain s).
Proof. induction s; simpl; auto. Qed.

Lemma getFunctionParent_chain (s f : Scope) :
  getFunctionParent s = Some f -> In f (chain s).
Proof.
  induction s as [d|d b p IH]; simpl.
  - done.
  - destruct b; simpl; [intros [= <-]; auto|]. intros H. right. auto.
Qed.

Lemma enclosingFunctionScope_chain (s : Scope) :
  In (enclosingFunctionScope s) (chain s).
Proof.
  unfold enclosingFunctionScope.
  destruct (getFunctionParent s) eqn:E.
  - by apply getFunctionParent_chain.
  - apply getProgramParent_chain.
Qed.

Lemma hasGlobal_chain (s : Scope) (name : string) :
  hasGlobal s name = true <-> exists s', In s' (chain s) /\ name ∈ globals (data s').
Proof.
  induction s as [d|d b p IH]; simpl.
  - rewrite orb_false_r, bool_decide_eq_true. split.
    + intros H. exists (ProgramScope d). auto.
    + intros (s' & [<-|[]] & H). done.
  - rewrite orb_true_iff, bool_decide_eq_true, IH. split.
    + intros [H | (s' & Hin & H)]; [exists (NestedScope d b p) | exists s']; auto.
    + intros (s' & [<-|Hin] & H); [by left | right; eauto].
Qed.

(** The first loop of the resolver decides [Resolvable]. *)
Lemma foundOnChain_Resolvable (s : Scope) (name : string) :
  foundOnChain s name = true <-> Resolvable s name.
Proof.
  unfold Resolvable. induction s as [d|d b p IH].
  - cbn [foundOnChain chain].
    destruct (hasOwnBinding (ProgramScope d) name) eqn:Eown; cbn [orb].
    + split; [|done]. intros _. exists (ProgramScope d). simpl. auto.
    + destruct (hasGlobal (ProgramScope d) name) eqn:Eg.
      * split; [|done]. intros _. apply hasGlobal_chain in Eg as (s' & Hin & Hg).
        exists s'. auto.
      * split; [done|]. intros (s' & [<-|[]] & [H|H]); [congruence|].
        assert (hasGlobal (ProgramScope d) name = true); [|congruence].
        apply hasGlobal_chain. exists (ProgramScope d). simpl. auto.
  - cbn [foundOnChain chain].
    destruct (hasOwnBinding (NestedScope d b p) name) eqn:Eown; cbn [orb].
    + split; [|done]. intros _. exists (NestedScope d b p). simpl. auto.
    + destruct (hasGlobal (NestedScope d b p) name) eqn:Eg.
      * split; [|done]. intros _. apply hasGlobal_chain in Eg as (s' & Hin & Hg).
        exists s'. auto.
      * rewrite IH. split.
        -- intros (s' & Hin & H). exists s'. split; [by right | done].
        -- intros (s' & [<-|Hin] & [H|H]); [congruence | | eauto | eauto].
           assert (hasGlobal (NestedScope d b p) name = true); [|congruence].
           apply hasGlobal_chain. exists (NestedScope d b p). simpl. auto.
Qed.

Lemma getBinding_owner (s : Scope) (name : string) (b : Binding) (o : Scope) :
  getBinding s name = Some (b, o) ->
  In o (chain s) /\ bindings (data o) !! name = Some b.
Proof.
  induction s as [d|d blk p IH]; simpl.
  - destruct (bindings d !! name) eqn:E; [|done]. intros [= <- <-]. auto.
  - destruct (bindings d !! name) eqn:E.
    + intros [= <- <-]. auto.
    + intros H. destruct (IH H). auto.
Qed.

Lemma getBinding_None (s : Scope) (name : string) :
  getBinding s name = None ->
  forall s', In s' (chain s) -> hasOwnBinding s' name = false.
Proof.
  unfold hasOwnBinding. induction s as [d|d blk p IH]; simpl.
  - destruct (bindings d !! name) eqn:E; [done|]. intros _ s' [<-|[]].
    simpl. rewrite E. apply bool_decide_eq_false. by intros [? ?].
  - destruct (bindings d !! name) eqn:E; [done|]. intros H s' [<-|Hin]; [|auto].
    simpl. rewrite E. apply bool_decide_eq_false. by intros [? ?].
Qed.

Lemma visibleFrom_chain (s owner : Scope) :
  visibleFrom s owner = existsb (fun s' => sameScope s' owner) (chain s).
Proof.
  induction s as [d|d b p IH]; simpl.
  - destruct (sameScope (ProgramScope d) owner); done.
  - rewrite IH. destruct (sameScope (NestedScope d b p) owner); done.
Qed.

Lemma sameScope_refl (s : Scope) : sameScope s s = true.
Proof. unfold sameScope. by apply bool_decide_eq_true. Qed.

(** *** The resolver against the specification's words *)

Lemma enclosingFunctionScope_nearest (s : Scope) :
  enclosingFunctionScope s = nearestFunctionOrTop s.
Proof.
  unfold enclosingFunctionScope, nearestFunctionOrTop.
  induction s as [d|d b p IH]; [done|].
  cbn [getFunctionParent chain List.filter getProgramParent].
  destruct (scopeIsFunction (NestedScope d b p)); [done|]. apply IH.
Qed.

Lemma isParamOf_bound (start f : Scope) (name : string) :
  paramsBound start = true -> In f (chain start) ->
  isParamOf f name = true -> hasOwnBinding f name = true.
Proof.
  unfold paramsBound, isParamOf. intros Hwf Hin Hp.
  rewrite forallb_forall in Hwf. specialize (Hwf f Hin).
  rewrite forallb_forall in Hwf.
  apply existsb_exists in Hp as (p & Hp & Hname).
  specialize (Hwf p Hp). destruct p; try done.
  simpl in Hname. apply bool_decide_eq_true in Hname. by subst.
Qed.

Lemma scopeParams_function (s : Scope) :
  scopeIsFunction s = false -> scopeParams s = [].
Proof. destruct s as [|? [] ?]; done. Qed.

(** For scopes of the use-site's chain, the test of the loop body is the
    specification's disjunction. *)
Lemma nameVisibleIn_spec (start wider : Scope) (name : string) :
  paramsBound start = true -> In wider (chain start) ->
  nameVisibleIn start wider name =
  ownerIsWiderOrAncestor start wider name
  || existsb (fun p => isIdentifierNamed p name) (scopeParams wider)
  || hasGlobal wider name.
Proof.
  intros Hwf Hin. unfold nameVisibleIn, ownerIsWiderOrAncestor.
  fold (isParamOf wider name).
  destruct (getBinding start name) as [[b owner]|] eqn:Eb.
  - rewrite <- visibleFrom_chain.
    destruct (visibleFrom wider owner); [done|]. cbn [negb andb orb].
    destruct (scopeIsFunction wider) eqn:Ef.
    + destruct (isParamOf wider name); [done|]. cbn [negb andb orb].
      by destruct (hasGlobal wider name).
    + unfold isParamOf. rewrite scopeParams_function by done. cbn.
      by destruct (hasGlobal wider name).
  - destruct (isParamOf wider name) eqn:Ep; [|done].
    apply (isParamOf_bound start) in Ep; [|done..].
    rewrite (getBinding_None start name Eb wider Hin) in Ep. done.
Qed.

Lemma canHoistToParent_spec (names : list string) (start wider : Scope) :
  paramsBound start = true -> In wider (chain start) ->
  canHoistToParent names start wider = acceptsWidening names start wider.
Proof.
  intros Hwf Hin. unfold canHoistToParent, acceptsWidening.
  induction names as [|n names IH]; [done|]. cbn [forallb].
  by rewrite IH, nameVisibleIn_spec.
Qed.

Lemma nextFunctionOrProgram_filter (p : Scope) :
  List.filter functionOrTop (chain p) =
  match nextFunctionOrProgram p with
  | Some w => w :: widerScopes w
  | None => []
  end.
Proof.
  unfold widerScopes, functionOrTop.
  induction p as [d|d b p IH]; [done|].
  cbn [chain List.filter nextFunctionOrProgram].
  destruct (scopeIsFunction (NestedScope d b p) || scopeIsProgram (NestedScope d b p)); [done|].
  apply IH.
Qed.

Lemma nextFunctionOrProgram_chain (p w : Scope) :
  nextFunctionOrProgram p = Some w -> In w (chain p).
Proof.
  induction p as [d|d b p IH]; cbn [nextFunctionOrProgram chain].
  - cbn. intros [= <-]. auto.
  - destruct (scopeIsFunction _ || scopeIsProgram _).
    + intros [= <-]. by left.
    + intros H. right. auto.
Qed.

(** The loop, with fuel that covers the depth of the target, returns the
    last accepted scope of the list of wider scopes. *)
Lemma widen_lastAccepted (fuel : nat) (names : list string) (start t : Scope) :
  depth t <= fuel ->
  widen fuel names start t =
  lastAccepted (canHoistToParent names start) t (widerScopes t).
Proof.
  revert t. induction fuel as [|fuel IH]; intros t Hd.
  - destruct t; simpl in Hd; [done | lia].
  - destruct t as [d|d b p]; [done|].
    cbn [widen parentScope]. unfold widerScopes at 1. cbn [parentScope].
    rewrite nextFunctionOrProgram_filter.
    destruct (nextFunctionOrProgram p) as [w|] eqn:Ew; [|done].
    cbn [lastAccepted].
    destruct (canHoistToParent names start w); [|done].
    apply IH. apply nextFunctionOrProgram_chain, depth_chain in Ew.
    simpl in Hd. lia.
Qed.

Lemma lastAccepted_ext (f g : Scope -> bool) (t : Scope) (l : list Scope) :
  (forall w, In w l -> f w = g w) -> lastAccepted f t l = lastAccepted g t l.
Proof.
  revert t. induction l as [|w l IH]; intros t H; [done|].
  cbn [lastAccepted]. rewrite (H w) by (by left).
  destruct (g w); [|done]. apply IH. intros w' Hw'. apply H. by right.
Qed.

Lemma widerScopes_chain (t w : Scope) : In w (widerScopes t) -> In w (chain t).
Proof.
  unfold widerScopes. destruct t as [d|d b p]; [done|]. cbn.
  intros H. apply filter_In in H as [H _]. by right.
Qed.

(** The resolver computes what the specification describes. *)
Lemma outermostScopeWith_resolveSpec (names : list string) (start : Scope) :
  paramsBound start = true ->
  (forall n, In n names -> Resolvable start n) ->
  outermostScopeWith names start = Some (resolveSpec names start).
Proof.
  intros Hwf Hres. unfold outermostScopeWith, resolveSpec.
  destruct names as [|n0 names]; [done|].
  assert (Hall : forallb (foundOnChain start) (n0 :: names) = true).
  { apply forallb_forall. intros n Hn. apply foundOnChain_Resolvable. auto. }
  rewrite Hall. cbn [negb]. f_equal.
  rewrite widen_lastAccepted by done.
  rewrite <- enclosingFunctionScope_nearest.
  apply lastAccepted_ext. intros w Hw. apply canHoistToParent_spec; [done|].
  apply (chain_incl start (enclosingFunctionScope start)).
  - apply enclosingFunctionScope_chain.
  - by apply widerScopes_chain.
Qed.

(** With a name that is not resolvable the resolver answers the current
    function scope. *)
Lemma outermostScopeWith_unresolvable (names : list string) (start : Scope) (n : string) :
  In n names -> ~ Resolvable start n ->
  outermostScopeWith names start = Some (enclosingFunctionScope start).
Proof.
  intros Hin Hn. unfold outermostScopeWith.
  destruct names as [|n0 names]; [done|].
  destruct (forallb (foundOnChain start) (n0 :: names)) eqn:Hall; [|done].
  rewrite forallb_forall in Hall. specialize (Hall n Hin).
  by apply foundOnChain_Resolvable in Hall.
Qed.

(** *** Name allocator *)

Lemma hasBinding_chain (s : Scope) (n : string) :
  hasBinding s n = true <-> exists s', In s' (chain s) /\ hasOwnBinding s' n = true.
Proof.
  unfold hasBinding. rewrite bool_decide_eq_true. split.
  - intros [[b o] H]. apply getBinding_owner in H as [Hin Hb].
    exists o. split; [done|]. unfold hasOwnBinding.
    apply bool_decide_eq_true. by rewrite Hb.
  - intros (s' & Hin & Hown). destruct (getBinding s n) eqn:E; [done|].
    rewrite (getBinding_None s n E s' Hin) in Hown. done.
Qed.

Lemma takenAbove_iff (R : Reserved) (t : Scope) (n : string) :
  takenAbove R t n = true <->
  exists s, In s (chain t) /\
            (hasOwnBinding s n = true \/ n ∈ globals (data s) \/
             reservedHas R s n = true).
Proof.
  induction t as [d|d b p IH].
  - cbn [takenAbove chain].
    destruct (reservedHas R (ProgramScope d) n) eqn:Er.
    { split; [|done]. intros _. exists (ProgramScope d). simpl. auto. }
    destruct (hasBinding (ProgramScope d) n) eqn:Eb; cbn [orb].
    { split; [|done]. intros _. apply hasBinding_chain in Eb as (s & Hs & H).
      exists s. auto. }
    destruct (hasGlobal (ProgramScope d) n) eqn:Eg.
    { split; [|done]. intros _. apply hasGlobal_chain in Eg as (s & Hs & H).
      exists s. auto. }
    split; [done|]. intros (s & [<-|[]] & [H|[H|H]]); [| |congruence].
    + assert (hasBinding (ProgramScope d) n = true); [|congruence].
      apply hasBinding_chain. exists (ProgramScope d). simpl. auto.
    + assert (hasGlobal (ProgramScope d) n = true); [|congruence].
      apply hasGlobal_chain. exists (ProgramScope d). simpl. auto.
  - cbn [takenAbove chain].
    destruct (reservedHas R (NestedScope d b p) n) eqn:Er.
    { split; [|done]. intros _. exists (NestedScope d b p). simpl. auto. }
    destruct (hasBinding (NestedScope d b p) n) eqn:Eb; cbn [orb].
    { split; [|done]. intros _. apply hasBinding_chain in Eb as (s & Hs & H).
      exists s. auto. }
    destruct (hasGlobal (NestedScope d b p) n) eqn:Eg.
    { split; [|done]. intros _. apply hasGlobal_chain in Eg as (s & Hs & H).
      exists s. auto. }
    rewrite IH. split.
    + intros (s & Hs & H). exists s. split; [by right | done].
    + intros (s & [<-|Hs] & H); [|eauto].
      destruct H as [H|[H|H]]; [| |congruence].
      * assert (hasBinding (NestedScope d b p) n = true); [|congruence].
        apply hasBinding_chain. exists (NestedScope d b p). simpl. auto.
      * assert (hasGlobal (NestedScope d b p) n = true); [|congruence].
        apply hasGlobal_chain. exists (NestedScope d b p). simpl. auto.
Qed.

Lemma takenBelow_iff (R : Reserved) (t u : Scope) (n : string) :
  takenBelow R t u n = true <->
  exists s, In s (scopesBelow t u) /\
            (hasOwnBinding s n = true \/ reservedHas R s n = true).
Proof.
  induction u as [d|d b p IH]; cbn [takenBelow scopesBelow].
  - destruct (sameScope (ProgramScope d) t).
    { split; [done|]. by intros (s & [] & _). }
    destruct (reservedHas R (ProgramScope d) n) eqn:Er; cbn [orb].
    { split; [|done]. intros _. exists (ProgramScope d). simpl. auto. }
    destruct (hasOwnBinding (ProgramScope d) n) eqn:Eo.
    { split; [|done]. intros _. exists (ProgramScope d). simpl. auto. }
    split; [done|]. intros (s & [<-|[]] & [H|H]); congruence.
  - destruct (sameScope (NestedScope d b p) t).
    { split; [done|]. by intros (s & [] & _). }
    destruct (reservedHas R (NestedScope d b p) n) eqn:Er; cbn [orb].
    { split; [|done]. intros _. exists (NestedScope d b p). simpl. auto. }
    destruct (hasOwnBinding (NestedScope d b p) n) eqn:Eo.
    { split; [|done]. intros _. exists (NestedScope d b p). simpl. auto. }
    rewrite IH. split.
    + intros (s & Hs & H). exists s. split; [by right | done].
    + intros (s & [<-|Hs] & H); [|eauto]. destruct H; congruence.
Qed.

(** The closure [taken] decides the specification's collisions. *)
Lemma taken_Collides (R : Reserved) (t u : Scope) (n : string) :
  taken R t u n = true <-> Collides R t u n.
Proof.
  unfold taken, Collides. rewrite <- takenAbove_iff, <- takenBelow_iff.
  destruct (takenAbove R t n); [by split; auto|].
  split; [by right|]. by intros [|].
Qed.

Lemma scopesBelow_chain (t u s : Scope) : In s (scopesBelow t u) -> In s (chain u).
Proof.
  induction u as [d|d b p IH]; cbn [scopesBelow chain].
  - destruct (sameScope _ _); [done|]. done.
  - destruct (sameScope _ _); [done|]. intros [<-|H]; [by left | right; auto].
Qed.

Lemma scopeNames_own (R : Reserved) (s : Scope) (n : string) :
  hasOwnBinding s n = true -> n ∈ scopeNames R s.
Proof.
  unfold hasOwnBinding, scopeNames. rewrite bool_decide_eq_true.
  intros H. apply elem_of_union_l, elem_of_union_l. by apply elem_of_dom.
Qed.

Lemma scopeNames_global (R : Reserved) (s : Scope) (n : string) :
  n ∈ globals (data s) -> n ∈ scopeNames R s.
Proof. unfold scopeNames. set_solver. Qed.

Lemma scopeNames_reserved (R : Reserved) (s : Scope) (n : string) :
  reservedHas R s n = true -> n ∈ scopeNames R s.
Proof.
  unfold reservedHas, scopeNames. destruct (R !! uid (data s)); [|done].
  rewrite bool_decide_eq_true. simpl. set_solver.
Qed.

Lemma takenNames_elem (R : Reserved) (t u s : Scope) (n : string) :
  In s (chain t ++ chain u) -> n ∈ scopeNames R s -> n ∈ takenNames R t u.
Proof.
  unfold takenNames. intros Hin Hn. apply elem_of_union_list.
  exists (scopeNames R s). split; [|done].
  apply list_elem_of_In, in_map, Hin.
Qed.

(** A taken name is one of finitely many. *)
Lemma taken_takenNames (R : Reserved) (t u : Scope) (n : string) :
  taken R t u n = true -> n ∈ takenNames R t u.
Proof.
  rewrite taken_Collides. intros [(s & Hs & H) | (s & Hs & H)].
  - apply (takenNames_elem R t u s); [apply in_or_app; by left|].
    destruct H as [H|[H|H]];
      [by apply scopeNames_own | by apply scopeNames_global | by apply scopeNames_reserved].
  - apply (takenNames_elem R t u s);
      [apply in_or_app; right; by apply (scopesBelow_chain t)|].
    destruct H as [H|H]; [by apply scopeNames_own | by apply scopeNames_reserved].
Qed.

Lemma fbNameN_inj (base : string) : Inj (=) (=) (fbNameN base).
Proof.
  intros i j H. unfold fbNameN in H.
  apply String.app_inj, String.app_inj in H. by apply (inj pretty) in H.
Qed.

Lemma forallb_false_In {A : Type} (f : A -> bool) (l : list A) :
  forallb f l = false -> exists x, In x l /\ f x = false.
Proof.
  induction l as [|a l IH]; simpl; [done|].
  destruct (f a) eqn:E; simpl.
  - intros H. destruct (IH H) as (x & Hx & Hf). eauto.
  - intros _. eauto.
Qed.

(** Among more candidates than there are taken names, one is free. *)
Lemma free_candidate (tk : string -> bool) (T : gset string) (base : string) :
  (forall n, tk n = true -> n ∈ T) ->
  exists i, 1 <= i <= S (size T) /\ tk (fbNameN base i) = false.
Proof.
  intros HT. set (l := seq 1 (S (size T))).
  destruct (forallb (fun i => tk (fbNameN base i)) l) eqn:E.
  - exfalso. rewrite forallb_forall in E.
    assert (Hsub : list_to_set (fbNameN base <$> l) ⊆ T).
    { intros n Hn. apply elem_of_list_to_set, list_elem_of_fmap in Hn as (i & -> & Hi).
      apply HT, E. by apply list_elem_of_In. }
    apply subseteq_size in Hsub.
    rewrite size_list_to_set in Hsub.
    + rewrite length_fmap in Hsub. unfold l in Hsub. rewrite length_seq in Hsub. lia.
    + apply NoDup_fmap_2; [apply fbNameN_inj | apply NoDup_seq].
  - apply forallb_false_In in E as (i & Hi & Hf).
    exists i. apply in_seq in Hi. split; [lia | done].
Qed.

Lemma least_false (P : nat -> bool) (n : nat) :
  P n = false ->
  exists k, k <= n /\ P k = false /\ forall j, j < k -> P j = true.
Proof.
  induction n as [n IH] using lt_wf_ind. intros Hn.
  destruct (forallb P (seq 0 n)) eqn:E.
  - exists n. split; [done|]. split; [done|]. intros j Hj.
    rewrite forallb_forall in E. apply E, in_seq. lia.
  - apply forallb_false_In in E as (m & Hm & Hf). apply in_seq in Hm.
    destruct (IH m) as (k & Hk & Hkf & Hlt); [lia | done |].
    exists k. split; [lia | done].
Qed.

Lemma firstFree_least (fuel : nat) (tk : string -> bool) (base : string) (i k : nat) :
  i <= k -> k < i + fuel ->
  tk (fbNameN base k) = false ->
  (forall j, i <= j < k -> tk (fbNameN base j) = true) ->
  firstFree fuel tk base i = Some k.
Proof.
  revert i. induction fuel as [|fuel IH]; intros i Hik Hk Hfree Hbelow; [lia|].
  cbn [firstFree]. destruct (decide (i = k)) as [->|Hne].
  - by rewrite Hfree.
  - rewrite Hbelow by lia. apply IH; [lia | lia | done |].
    intros j Hj. apply Hbelow. lia.
Qed.

Lemma reservedHas_reserve (R : Reserved) (t : Scope) (n : string) :
  is_Some (R !! uid (data t)) -> reservedHas (reserve R t n) t n = true.
Proof.
  intros [set Hset]. unfold reservedHas, reserve. rewrite Hset.
  rewrite lookup_insert_eq. apply bool_decide_eq_true. set_solver.
Qed.

Lemma getReserved_has (R : Reserved) (t : Scope) :
  is_Some ((getReserved R t).2 !! uid (data t)).
Proof.
  unfold getReserved. destruct (R !! uid (data t)) eqn:E; simpl.
  - by rewrite E.
  - by rewrite lookup_insert_eq.
Qed.

(** The allocator returns the first candidate that is not taken, whenever
    the fuel is at least [nameFuel]. *)
Lemma makeUniqueFbName_first (R : Reserved) (base : string) (t u : Scope) :
  let b := sanitizeBase base in
  let R1 := (getReserved R t).2 in
  exists k,
    (forall fuel, nameFuel R t u <= fuel ->
       makeUniqueFbName fuel R base t u =
       Some (fbCandidate b k, reserve R1 t (fbCandidate b k))) /\
    taken R1 t u (fbCandidate b k) = false /\
    (forall j, j < k -> taken R1 t u (fbCandidate b j) = true).
Proof.
  intros b R1.
  destruct (free_candidate (taken R1 t u) (takenNames R1 t u) b
              (taken_takenNames R1 t u)) as (i & Hi & Hfree).
  destruct (least_false (fun k => taken R1 t u (fbCandidate b k)) i) as (k & Hk & Hkf & Hlt).
  { destruct i; [lia | done]. }
  exists k. split; [|done].
  intros fuel Hfuel. unfold nameFuel in Hfuel. fold R1 in Hfuel.
  unfold makeUniqueFbName. fold b R1.
  destruct k as [|k].
  - change (fbCandidate b 0) with (fbName0 b) in *. by rewrite Hkf.
  - pose proof (Hlt 0 ltac:(lia)) as H0. change (fbCandidate b 0) with (fbName0 b) in H0.
    rewrite H0. cbn [negb].
    rewrite (firstFree_least fuel _ b 1 (S k)); [done | lia | lia | done |].
    intros j Hj. specialize (Hlt j). destruct j; [lia|]. apply Hlt. lia.
Qed.

(** *** Traversal *)

Lemma flat_map_pair {B : Type} (f : Key * Node -> list B) (k : Key) (l : list Node) :
  flat_map f (map (pair k) l) = flat_map (fun c => f (k, c)) l.
Proof. induction l as [|a l IH]; simpl; [done|]. by rewrite IH. Qed.

(** One round of the traversal. *)
Lemma descend_children (anc : list Node) (n : Node) :
  descend anc n =
  flat_map (fun kc => MkPath kc.2 kc.1 (n :: anc) :: descend (n :: anc) kc.2)
    (children n).
Proof.
  destruct n; try reflexivity;
    try (destruct id); try (destruct argument); try (destruct init);
    cbn -[descend]; unfold descend at 1; fold descend; cbn -[descend];
    rewrite ?flat_map_app, ?flat_map_pair; cbn -[descend];
    rewrite ?app_nil_r, <- ?app_assoc; try reflexivity.
Qed.

(** The traversal enters exactly the paths inside the node. *)
Lemma In_descend (n : Node) : forall anc p,
  In p (descend anc n) <-> Inside anc n p.
Proof.
  induction n as [n IH] using Node_children_ind. intros anc p.
  rewrite descend_children, in_flat_map. split.
  - intros ([k c] & Hin & [<-|Hp]); simpl in *.
    + by apply Inside_child.
    + eapply Inside_deeper; [done|]. by apply (IH k c Hin).
  - intros [k c Hin | k c p' Hin Hp].
    + exists (k, c). split; [done|]. by left.
    + exists (k, c). split; [done|]. right. by apply (IH k c Hin).
Qed.

Lemma In_traverse (root p : NodePath) :
  In p (traverse root) <-> Inside (ancestors root) (node root) p.
Proof. apply In_descend. Qed.

(** *** Frame-sensitive references *)

Lemma containsFrameSensitiveThings_iff (path : NodePath) :
  containsFrameSensitiveThings path = true <->
  exists p, Inside (ancestors path) (node path) p /\ frameSensitiveVisit p = true.
Proof.
  unfold containsFrameSensitiveThings. rewrite existsb_exists.
  split; intros (p & Hp & Hv); exists p; (split; [by apply In_traverse | done]).
Qed.

(** *** Free variables *)

Lemma Set_add_In (names : list string) (x y : string) :
  In y (Set_add names x) <-> In y names \/ y = x.
Proof.
  unfold Set_add. case_bool_decide as Hx.
  - split; [auto|]. intros [H | ->]; [done|]. by apply list_elem_of_In.
  - rewrite in_app_iff. simpl.
    split; [intros [H|[<-|[]]]; auto | intros [H| ->]; auto].
Qed.

Lemma Set_add_NoDup (names : list string) (x : string) :
  List.NoDup names -> List.NoDup (Set_add names x).
Proof.
  unfold Set_add. case_bool_decide as Hx; [done|]. intros Hnd.
  apply NoDup_ListNoDup, NoDup_app. apply NoDup_ListNoDup in Hnd.
  split; [done|]. split; [|apply NoDup_singleton].
  intros y Hy Hy'. apply list_elem_of_singleton in Hy'. by subst.
Qed.

Lemma freeVarsVisit_In (names : list string) (p : NodePath) (y : string) :
  In y (freeVarsVisit names p) <->
  In y names \/ (node p = Identifier y /\ isReferencedIdentifier p = true).
Proof.
  unfold freeVarsVisit. destruct (isReferencedIdentifier p) eqn:E; cbn [negb].
  - destruct (node p) eqn:En;
      try (split; [auto | by intros [H | [H _]]]).
    rewrite Set_add_In. split; intros [H|H]; auto.
    + subst. auto.
    + destruct H as [[= ->] _]. auto.
  - split; [auto|]. by intros [H | [_ H]].
Qed.

Lemma freeVars_fold_In (l : list NodePath) (names : list string) (y : string) :
  In y (fold_left freeVarsVisit l names) <->
  In y names \/
  exists p, In p l /\ node p = Identifier y /\ isReferencedIdentifier p = true.
Proof.
  revert names. induction l as [|p l IH]; intros names; simpl.
  - split; [auto|]. by intros [H | (p & [] & _)].
  - rewrite IH, freeVarsVisit_In. split.
    + intros [[H|H]|(q & Hq & H)]; eauto 6.
    + intros [H|(q & [<-|Hq] & H)]; eauto 6.
Qed.

Lemma freeVars_fold_NoDup (l : list NodePath) (names : list string) :
  List.NoDup names -> List.NoDup (fold_left freeVarsVisit l names).
Proof.
  revert names. induction l as [|p l IH]; intros names Hnd; simpl; [done|].
  apply IH. unfold freeVarsVisit.
  destruct (negb _); [done|]. destruct (node p); try done. by apply Set_add_NoDup.
Qed.

(** The collected names are those of the identifiers in reference
    position inside the node, each once. *)
Lemma freeVarsOfNode_In (path : NodePath) (x : string) :
  In x (freeVarsOfNode path) <->
  exists p, Inside (ancestors path) (node path) p /\
            node p = Identifier x /\ isReferencedIdentifier p = true.
Proof.
  unfold freeVarsOfNode. rewrite freeVars_fold_In. split.
  - intros [[] | (p & Hp & H)]. exists p. split; [by apply In_traverse | done].
  - intros (p & Hp & H). right. exists p. split; [by apply In_traverse | done].
Qed.

Lemma freeVarsOfNode_NoDup (path : NodePath) : List.NoDup (freeVarsOfNode path).
Proof. apply freeVars_fold_NoDup. constructor. Qed.

Lemma getChild_init (declPath : NodePath) (m : bool) (i init : Node) :
  node declPath = VariableDeclarator m i (Some init) ->
  getChild declPath Kinit =
  Some (MkPath init Kinit (node declPath :: ancestors declPath)).
Proof. intros H. unfold getChild. rewrite H. done. Qed.

(** *** Inserter *)

Lemma scanAnchors_prefix (isProg : bool) (body : list Node) : forall i a,
  exists pre post,
    body = pre ++ post /\
    Forall (fun s => isAnchor isProg s = true) pre /\
    (forall s rest, post = s :: rest -> isAnchor isProg s = false) /\
    scanAnchors isProg body i a =
      match pre with [] => a | _ => Some (i + length pre - 1) end.
Proof.
  induction body as [|s body IH]; intros i a.
  - exists [], []. by repeat split.
  - cbn [scanAnchors]. destruct (isAnchor isProg s) eqn:Es.
    + destruct (IH (S i) (Some i)) as (pre & post & -> & Hpre & Hpost & Hscan).
      exists (s :: pre), post. split; [done|]. split; [by constructor|].
      split; [done|]. rewrite Hscan. destruct pre; simpl; f_equal; lia.
    + exists [], (s :: body). split; [done|]. split; [constructor|].
      split; [|done]. by intros ? ? [= <- <-].
Qed.

(** The declaration lands between the leading anchors and the rest. *)
Lemma insertAfterPrologueAndImports_split (isProg : bool) (body : list Node) (decl : Node) :
  exists pre post,
    body = pre ++ post /\
    insertAfterPrologueAndImports isProg body decl = pre ++ decl :: post /\
    Forall (fun s => isAnchor isProg s = true) pre /\
    (forall s rest, post = s :: rest -> isAnchor isProg s = false).
Proof.
  destruct (scanAnchors_prefix isProg body 0 None) as (pre & post & -> & Hpre & Hpost & Hscan).
  exists pre, post. split; [done|]. split; [|done].
  unfold insertAfterPrologueAndImports. rewrite Hscan.
  destruct pre as [|s pre]; [done|]. unfold insertAfterIndex.
  replace (S (0 + length (s :: pre) - 1)) with (length (s :: pre)) by (simpl; lia).
  by rewrite take_app_length, drop_app_length.
Qed.

Lemma isAnchor_isLeading (isProg : bool) (stmt : Node) :
  (isProg = false -> isImportDeclaration stmt = false) ->
  isAnchor isProg stmt = isLeading stmt.
Proof.
  unfold isAnchor, isLeading, isDirective. intros H.
  destruct isProg; cbn [andb].
  - destruct (isImportDeclaration stmt); [done|]. cbn [orb].
    by destruct stmt.
  - rewrite H by done. cbn [orb]. by destruct stmt.
Qed.

(** *** Runtime helper *)

Section Helper.
Context {World Value Exn : Type}.
Implicit Types (init : Producer World Value Exn) (steps : list (Step World)).

(** Once [get] is rebound, the producer is out of reach. *)
Lemma run_cached init steps (v : Value) (w : World) :
  run init steps (GetCached v) w =
  (repeat (Normal v) (invocations steps), (GetCached v, others steps w)).
Proof.
  revert w. induction steps as [|[|f] steps IH]; intros w; [done| |].
  - cbn [run accessor callGet]. rewrite IH. done.
  - cbn [run others]. rewrite IH. done.
Qed.

(** Before the first invocation nothing calls the producer. *)
Lemma run_idle init steps (w : World) :
  existsb isInvoke steps = false ->
  run init steps GetInitial w = ([], (GetInitial, others steps w)).
Proof.
  revert w. induction steps as [|[|f] steps IH]; intros w H; [done|done|].
  cbn [run others]. by apply IH.
Qed.

(** When the first invocation's call of the producer returns, every
    later invocation returns its value. *)
Lemma run_first init (pre post : list (Step World)) (w w1 : World) (v : Value) :
  existsb isInvoke pre = false ->
  init (others pre w) = (Normal v, w1) ->
  run init (pre ++ Invoke :: post) GetInitial w =
  (Normal v :: repeat (Normal v) (invocations post), (GetCached v, others post w1)).
Proof.
  revert w. induction pre as [|[|f] pre IH]; intros w H Hinit; [|done|].
  - cbn [app run accessor callGet others] in *.
    rewrite Hinit, run_cached. done.
  - cbn [app run others] in *. by apply IH.
Qed.

Lemma first_invoke steps :
  existsb isInvoke steps = true ->
  exists pre post, steps = pre ++ Invoke :: post /\ existsb isInvoke pre = false.
Proof.
  induction steps as [|[|f] steps IH]; [done| |].
  - intros _. by exists [], steps.
  - cbn [existsb isInvoke orb]. intros H.
    destruct (IH H) as (pre & post & -> & Hpre). by exists (Other f :: pre), post.
Qed.

Lemma first_invoke_unique (pre pre' post post' : list (Step World)) :
  pre ++ Invoke :: post = pre' ++ Invoke :: post' ->
  existsb isInvoke pre = false -> existsb isInvoke pre' = false ->
  pre = pre' /\ post = post'.
Proof.
  revert pre'. induction pre as [|[|f] pre IH]; intros [|[|f'] pre']; simpl; try done.
  - by intros [= ->].
  - intros [= -> H] Hp Hp'. destruct (IH pre' H Hp Hp') as [-> ->]. done.
Qed.

Lemma invocations_app steps (steps' : list (Step World)) :
  invocations (steps ++ steps') = invocations steps + invocations steps'.
Proof. unfold invocations. by rewrite List.filter_app, length_app. Qed.

Lemma invocations_idle steps : existsb isInvoke steps = false -> invocations steps = 0.
Proof.
  induction steps as [|[|f] steps IH]; [done|done|]. apply IH.
Qed.

Lemma others_lift {Log : Type} steps (w : World) (l : Log) :
  others (map liftStep steps) (w, l) = (others steps w, l).
Proof.
  revert w. induction steps as [|[|f] steps IH]; intros w; [done| |]; apply IH.
Qed.

Lemma isInvoke_lift {Log : Type} steps :
  existsb isInvoke (map (@liftStep World Log) steps) = existsb isInvoke steps.
Proof. induction steps as [|[|f] steps IH]; [done|done|]. apply IH. Qed.

Lemma invocations_lift {Log : Type} steps :
  invocations (map (@liftStep World Log) steps) = invocations steps.
Proof.
  unfold invocations. induction steps as [|[|f] steps IH]; [done| |].
  - simpl. by rewrite IH.
  - apply IH.
Qed.

End Helper.

(** The whole course of an accessor: the producer is executed again by
    every invocation while it throws, and never after it returned. *)
Lemma run_logging {World Value Exn : Type} (p : Producer World Value Exn)
    (steps : list (Step World)) :
  forall (w : World) (log : list (Completion Value Exn)),
  let out := run (logging p) (map liftStep steps) GetInitial (w, log) in
  (exists es,
     out.1 = map Throw es /\ out.2.1 = GetInitial /\
     out.2.2.2 = log ++ map Throw es) \/
  (exists es v k,
     out.1 = map Throw es ++ repeat (Normal v) (S k) /\ out.2.1 = GetCached v /\
     out.2.2.2 = log ++ map Throw es ++ [Normal v]).
Proof.
  induction steps as [|[|f] steps IH]; intros w log.
  - left. exists []. cbn. by rewrite app_nil_r.
  - cbv zeta.
    remember (run (logging p) (map liftStep (Invoke :: steps)) GetInitial (w, log))
      as out eqn:Hout.
    cbn [map liftStep run accessor callGet] in Hout.
    destruct (p w) as [[v|e] w'] eqn:Ep.
    + assert (Hl : logging p (w, log) = (Normal v, (w', log ++ [Normal v]))).
      { unfold logging. cbn [fst snd]. by rewrite Ep. }
      rewrite Hl in Hout. cbv beta iota in Hout.
      rewrite run_cached, others_lift, invocations_lift in Hout. subst out.
      cbn [fst snd]. right. by exists [], v, (invocations steps).
    + assert (Hl : logging p (w, log) = (Throw e, (w', log ++ [Throw e]))).
      { unfold logging. cbn [fst snd]. by rewrite Ep. }
      rewrite Hl in Hout. cbv beta iota in Hout.
      specialize (IH w' (log ++ [Throw e])). cbv zeta in IH.
      destruct (run (logging p) (map liftStep steps) GetInitial (w', log ++ [Throw e]))
        as [cs [get wl]].
      subst out. cbn [fst snd] in *.
      destruct IH as [(es & -> & -> & ->) | (es & v & k & -> & -> & ->)].
      * left. exists (e :: es). by rewrite <- app_assoc.
      * right. exists (e :: es), v, k. by rewrite <- app_assoc.
  - cbn [map liftStep run fst snd]. apply IH.
Qed.

(** *** Producers that invoke their own accessor *)

Section Reentrant.
Context {World Value Exn : Type}.
Implicit Types (init : ReentrantProducer World Value Exn) (steps : list (Step World)).

Lemma reentrantGet_cached depth init (v : Value) (w : World) :
  reentrantGet depth init (GetCached v) w = Some (Normal v, (GetCached v, w)).
Proof. by destruct depth. Qed.

(** An execution that returns a value leaves [get] rebound to it. *)
Lemma follow_normal invoke (c : Course World Value Exn) (get get' : GetClosure Value)
    (v : Value) (w' : World) :
  follow invoke c get = Some (Normal v, (get', w')) -> get' = GetCached v.
Proof.
  revert get. induction c as [[u|e] w|w next IH]; intros get; cbn [follow].
  - by intros [= -> <- _].
  - done.
  - destruct (invoke get w) as [[r [g1 w1]]|]; [|done]. apply IH.
Qed.

Lemma reentrantGet_normal depth init (get get' : GetClosure Value) (v : Value)
    (w w' : World) :
  reentrantGet depth init get w = Some (Normal v, (get', w')) -> get' = GetCached v.
Proof.
  destruct get as [|u].
  - destruct depth as [|d]; [done|]. cbn [reentrantGet]. apply follow_normal.
  - rewrite reentrantGet_cached. by intros [= -> <- _].
Qed.

(** Once [get] is rebound, the producer is out of reach. *)
Lemma reentrantRun_cached depth init steps (v : Value) (w : World) :
  reentrantRun depth init steps (GetCached v) w =
  Some (repeat (Normal v) (invocations steps), (GetCached v, others steps w)).
Proof.
  revert w. induction steps as [|[|f] steps IH]; intros w; [done| |].
  - cbn [reentrantRun]. rewrite reentrantGet_cached, IH. done.
  - cbn [reentrantRun others]. rewrite IH. done.
Qed.

Lemma reentrantRun_app depth init steps (more : list (Step World))
    (get : GetClosure Value) (w : World) :
  reentrantRun depth init (steps ++ more) get w =
  match reentrantRun depth init steps get w with
  | None => None
  | Some (cs, (get', w')) =>
      match reentrantRun depth init more get' w' with
      | None => None
      | Some (cs', final) => Some (cs ++ cs', final)
      end
  end.
Proof.
  revert get w. induction steps as [|[|f] steps IH]; intros get w.
  - cbn [app reentrantRun].
    by destruct (reentrantRun depth init more get w) as [[cs' final]|].
  - cbn [app reentrantRun].
    destruct (reentrantGet depth init get w) as [[c [g1 w1]]|]; [|done].
    rewrite IH.
    destruct (reentrantRun depth init steps g1 w1) as [[cs [g2 w2]]|]; [|done].
    by destruct (reentrantRun depth init more g2 w2) as [[cs' final]|].
  - cbn [app reentrantRun]. apply IH.
Qed.

(** When an invocation made by a step returned a value, [get] holds it
    in the end. *)
Lemma reentrantRun_value depth init steps (get get' : GetClosure Value) (w w' : World)
    (results : list (Completion Value Exn)) (v : Value) :
  reentrantRun depth init steps get w = Some (results, (get', w')) ->
  In (Normal v) results -> get' = GetCached v.
Proof.
  revert get w results. induction steps as [|[|f] steps IH]; intros get w results.
  - by intros [= <- _ _] [].
  - cbn [reentrantRun].
    destruct (reentrantGet depth init get w) as [[c [g1 w1]]|] eqn:Eg; [|done].
    destruct (reentrantRun depth init steps g1 w1) as [[cs [g2 w2]]|] eqn:Er; [|done].
    intros [= <- <- <-] [->|Hin].
    + apply reentrantGet_normal in Eg. subst g1.
      rewrite reentrantRun_cached in Er. by inversion Er.
    + by apply (IH g1 w1 cs).
  - cbn [reentrantRun]. apply IH.
Qed.

(** A producer that invokes no accessor is a [Producer]. *)
Lemma neverCallsAccessor_direct init :
  neverCallsAccessor init -> exists q : Producer World Value Exn, forall w, init w = direct q w.
Proof.
  intros H. exists (fun w => courseEnd (init w) (H w)). intros w.
  unfold direct. generalize (H w). destruct (init w) as [r w'|w' next]; [done|].
  intros E. discriminate E.
Qed.

Lemma reentrantGet_direct depth init (q : Producer World Value Exn)
    (get : GetClosure Value) (w : World) :
  (forall w, init w = direct q w) ->
  reentrantGet (S depth) init get w = Some (callGet q get w).
Proof.
  intros H. destruct get as [|u]; [|done].
  cbn [reentrantGet callGet]. rewrite H. unfold direct.
  by destruct (q w) as [[v|e] w'].
Qed.

Lemma reentrantRun_direct depth init (q : Producer World Value Exn) steps
    (get : GetClosure Value) (w : World) :
  (forall w, init w = direct q w) ->
  reentrantRun (S depth) init steps get w = Some (run q steps get w).
Proof.
  intros H. revert get w. induction steps as [|[|f] steps IH]; intros get w; [done| |].
  - cbn [reentrantRun run]. unfold accessor.
    rewrite (reentrantGet_direct _ _ q) by done.
    destruct (callGet q get w) as [c [g1 w1]]. rewrite IH.
    by destruct (run q steps g1 w1) as [cs final].
  - cbn [reentrantRun run]. apply IH.
Qed.

Lemma reentrantLogging_direct init (q : Producer World Value Exn) :
  (forall w, init w = direct q w) ->
  forall wl, reentrantLogging init wl = direct (logging q) wl.
Proof.
  intros H [w l]. unfold reentrantLogging, direct, logging. cbn [fst snd].
  rewrite H. unfold direct. by destruct (q w) as [c w'].
Qed.

(** The producer is executed once, at the first invocation, when that
    execution returns. *)
Lemma run_logging_first (p : Producer World Value Exn) steps (w0 : World) :
  returnsNormally p ->
  let out := run (logging p) (map liftStep steps) GetInitial (w0, []) in
  length out.2.2.2 <= 1 /\
  (1 <= invocations steps -> length out.2.2.2 = 1) /\
  (invocations steps = 0 -> length out.2.2.2 = 0) /\
  length out.1 = invocations steps /\
  (forall pre post,
     steps = pre ++ Invoke :: post -> existsb isInvoke pre = false ->
     exists v, (p (others pre w0)).1 = Normal v /\
               Forall (fun r => r = Normal v) out.1).
Proof.
  cbv zeta. intros Hp. destruct (existsb isInvoke steps) eqn:E.
  - destruct (first_invoke steps E) as (pre & post & -> & Hpre).
    rewrite map_app. cbn [map liftStep].
    destruct (Hp (others pre w0)) as [v Hv].
    destruct (p (others pre w0)) as [c w1] eqn:Ep. cbn [fst] in Hv. subst c.
    rewrite (run_first _ _ _ _ (w1, [Normal v]) v).
    2:{ by rewrite isInvoke_lift. }
    2:{ rewrite others_lift. unfold logging. cbn [fst snd]. by rewrite Ep. }
    cbn [fst snd]. rewrite others_lift. cbn [fst snd length].
    rewrite invocations_app, (invocations_idle pre Hpre), invocations_lift.
    cbn [invocations List.filter isInvoke length]. fold (invocations post).
    split; [lia|]. split; [done|]. split; [lia|].
    split; [by rewrite repeat_length|].
    intros pre' post' Heq Hpre'.
    destruct (first_invoke_unique _ _ _ _ Heq Hpre Hpre') as [<- <-].
    exists v. rewrite Ep. split; [done|]. constructor; [done|].
    apply Forall_forall. intros r Hr. apply list_elem_of_In in Hr.
    by apply repeat_spec in Hr.
  - rewrite run_idle by (by rewrite isInvoke_lift).
    rewrite others_lift. cbn [fst snd length]. rewrite (invocations_idle steps E).
    split; [lia|]. split; [lia|]. split; [done|]. split; [done|].
    intros pre post -> Hpre. rewrite existsb_app in E. cbn in E.
    by rewrite orb_true_r in E.
Qed.

End Reentrant.

(** *** Nodes a hoist creates *)

Lemma Inside_ancestors (anc : list Node) (n : Node) (p : NodePath) :
  Inside anc n p -> exists l, ancestors p = l ++ n :: anc.
Proof.
  induction 1 as [anc n k c Hin | anc n k c p Hin Hp (l & IH)].
  - by exists [].
  - exists (l ++ [c]). by rewrite IH, <- app_assoc.
Qed.

Lemma Inside_cases (anc : list Node) (n : Node) (p : NodePath) :
  Inside anc n p ->
  exists k c, In (k, c) (children n) /\
              (p = MkPath c k (n :: anc) \/ Inside (n :: anc) c p).
Proof. intros [k c Hin | k c p' Hin Hp]; eauto. Qed.

Lemma descend_ancestors (anc : list Node) (n : Node) (p : NodePath) :
  In p (descend anc n) -> forall a, In a (n :: anc) -> In a (ancestors p).
Proof.
  intros Hp a Ha. apply In_descend, Inside_ancestors in Hp as (l & ->).
  apply in_or_app. by right.
Qed.

Lemma isInFloatedBinding_above (st : RunState) (p : NodePath) (n : Node) :
  In n (ancestors p) -> isHelperCall (getHelperName st) n = true ->
  isInFloatedBinding st p = true.
Proof.
  intros Hin Hn. unfold isInFloatedBinding, findParent.
  apply bool_decide_eq_true.
  destruct (List.find _ (ancestors p)) eqn:E; [done|].
  rewrite (find_none _ _ E n Hin) in Hn. done.
Qed.

Lemma callIsCandidate_inside_helper (st : RunState) (p : NodePath) :
  isInFloatedBinding st p = true -> callIsCandidate st p = false.
Proof.
  intros H. unfold callIsCandidate. rewrite H.
  destruct (node p); try done.
  repeat match goal with
    | |- (if ?c then _ else _) = _ => destruct c
    end; done.
Qed.

Lemma isHelperCall_built (name : string) (args : list Node) :
  isHelperCall name (CallExpression false (Identifier name) args) = true.
Proof. simpl. by apply bool_decide_eq_true. Qed.

(** *** Scope safety *)

Lemma NoDup_map_eq {A B : Type} (f : A -> B) (l : list A) (a b : A) :
  List.NoDup (map f l) -> In a l -> In b l -> f a = f b -> a = b.
Proof.
  induction l as [|x l IH]; simpl; [done|].
  intros Hnd Ha Hb Hf. apply NoDup_cons_iff in Hnd as [Hx Hnd].
  destruct Ha as [->|Ha], Hb as [->|Hb]; auto.
  - destruct Hx. rewrite Hf. by apply in_map.
  - destruct Hx. rewrite <- Hf. by apply in_map.
Qed.

Lemma visibleFrom_owner (start t o : Scope) :
  uidsDistinct start -> In t (chain start) -> In o (chain start) ->
  visibleFrom t o = true -> In o (chain t).
Proof.
  intros Hnd Ht Ho Hv. rewrite visibleFrom_chain in Hv.
  apply existsb_exists in Hv as (s & Hs & Hsame).
  assert (s = o) as <-; [|done].
  apply (NoDup_map_eq (fun s' => uid (data s')) (chain start)); [done| |done|].
  - by apply (chain_incl start t).
  - unfold sameScope in Hsame. by apply bool_decide_eq_true in Hsame.
Qed.

Lemma lastAccepted_cases (f : Scope -> bool) (t : Scope) (l : list Scope) :
  lastAccepted f t l = t \/
  (In (lastAccepted f t l) l /\ f (lastAccepted f t l) = true).
Proof.
  revert t. induction l as [|w l IH]; intros t; [by left|].
  cbn [lastAccepted]. destruct (f w) eqn:Ew; [|by left].
  right. destruct (IH w) as [-> | [Hin Hf]].
  - split; [by left | done].
  - split; [by right | done].
Qed.

(** A target other than the current function scope is a function or
    program scope of the use-site's chain that the loop accepted. *)
Lemma outermostScopeWith_accepted (names : list string) (start target : Scope) :
  outermostScopeWith names start = Some target ->
  sameScope target (enclosingFunctionScope start) = false ->
  names = [] \/
  (In target (chain start) /\ canHoistToParent names start target = true).
Proof.
  unfold outermostScopeWith. destruct names as [|n0 names]; [by left|].
  intros H Hsame. right.
  destruct (negb _).
  { inversion H; subst. by rewrite sameScope_refl in Hsame. }
  inversion H as [Ht]. clear H. rewrite Ht.
  rewrite widen_lastAccepted in Ht by done.
  destruct (lastAccepted_cases (canHoistToParent (n0 :: names) start)
              (enclosingFunctionScope start)
              (widerScopes (enclosingFunctionScope start))) as [E | [Hin Hf]].
  - rewrite E in Ht. subst. by rewrite sameScope_refl in Hsame.
  - rewrite Ht in Hin, Hf. split; [|done].
    apply (chain_incl start (enclosingFunctionScope start));
      [apply enclosingFunctionScope_chain | by apply widerScopes_chain].
Qed.

(** *** Small facts used by the theorems *)

Lemma Within_Inside (path p : NodePath) :
  isIdentifier (node path) = false -> isIdentifier (node p) = true ->
  Within path p <-> Inside (ancestors path) (node path) p.
Proof.
  intros Hroot Hp. unfold Within. split; [|auto].
  intros [-> | H]; [congruence | done].
Qed.

Lemma dependsOnLocalVar_false (fvs : list string) (scope : Scope) :
  dependsOnLocalVar fvs scope = false <->
  forall n b owner,
    In n fvs -> getBinding scope n = Some (b, owner) ->
    ~ In (bkind b) [BVar; BLet; BConst].
Proof.
  unfold dependsOnLocalVar. split.
  - intros H n b owner Hn Hb Hk.
    assert (existsb (fun n => match getBinding scope n with
                              | Some (b, _) => localVarKind (bkind b)
                              | None => false
                              end) fvs = true); [|congruence].
    apply existsb_exists. exists n. split; [done|]. rewrite Hb.
    destruct Hk as [<-|[<-|[<-|[]]]]; done.
  - intros H. destruct (existsb _ fvs) eqn:E; [|done].
    apply existsb_exists in E as (n & Hn & Hk).
    destruct (getBinding scope n) as [[b owner]|] eqn:Hb; [|done].
    destruct (H n b owner Hn Hb). destruct (bkind b); simpl in *; auto; done.
Qed.

Lemma dependsOnLocalVar_true (fvs : list string) (scope : Scope) (n : string)
    (b : Binding) (owner : Scope) :
  In n fvs -> getBinding scope n = Some (b, owner) ->
  In (bkind b) [BVar; BLet; BConst] ->
  dependsOnLocalVar fvs scope = true.
Proof.
  intros Hn Hb Hk. destruct (dependsOnLocalVar fvs scope) eqn:E; [done|].
  destruct (proj1 (dependsOnLocalVar_false fvs scope) E n b owner Hn Hb Hk).
Qed.

(** For an initialiser that is no identifier, the collector returns a
    name exactly when the initialiser holds a referenced identifier. *)
Lemma freeVarsOfDecl_nonempty (path : NodePath) (m : bool) (x : string) (init : Node) :
  node path = VariableDeclarator m (Identifier x) (Some init) ->
  isIdentifier init = false ->
  freeVarsOfDecl path <> [] <->
  exists p y, Within (MkPath init Kinit (node path :: ancestors path)) p /\
              node p = Identifier y /\ isReferencedIdentifier p = true.
Proof.
  intros Hnode Hroot. unfold freeVarsOfDecl.
  rewrite (getChild_init path m _ init Hnode).
  set (initPath := MkPath init Kinit (node path :: ancestors path)). split.
  - intros Hne. destruct (freeVarsOfNode initPath) as [|y l] eqn:E; [done|].
    assert (Hy : In y (freeVarsOfNode initPath)) by (rewrite E; by left).
    apply freeVarsOfNode_In in Hy as (p & Hp & Hy & Hr).
    exists p, y. split; [by right | done].
  - intros (p & y & Hp & Hy & Hr) E.
    apply Within_Inside in Hp; [|done|by rewrite Hy].
    assert (Hin : In y (freeVarsOfNode initPath)) by (apply freeVarsOfNode_In; eauto).
    by rewrite E in Hin.
Qed.

(** *** Strings *)

Lemma append_cons (c : ascii) (s t : string) : String c s +:+ t = String c (s +:+ t).
Proof. reflexivity. Qed.

Lemma append_nil_l (t : string) : "" +:+ t = t.
Proof. reflexivity. Qed.

Lemma append_nil_r (s : string) : s +:+ "" = s.
Proof. induction s as [|c s IH]; [done|]. by rewrite append_cons, IH. Qed.

Lemma append_assoc (s t u : string) : (s +:+ t) +:+ u = s +:+ (t +:+ u).
Proof. induction s as [|c s IH]; [done|]. by rewrite !append_cons, IH. Qed.

Lemma length_append (s t : string) :
  String.length (s +:+ t) = String.length s + String.length t.
Proof. induction s as [|c s IH]; [done|]. rewrite append_cons. simpl. by rewrite IH. Qed.

Lemma rev_app_append (s t : string) : String.rev_app s t = String.rev s +:+ t.
Proof.
  unfold String.rev. revert t. induction s as [|c s IH]; intros t; [done|].
  cbn [String.rev_app]. rewrite IH, (IH (String c "")), append_assoc. done.
Qed.

Lemma rev_cons (c : ascii) (s : string) : String.rev (String c s) = String.rev s +:+ String c "".
Proof. unfold String.rev at 1. cbn [String.rev_app]. apply rev_app_append. Qed.

Lemma rev_append (s t : string) : String.rev (s +:+ t) = String.rev t +:+ String.rev s.
Proof.
  induction s as [|c s IH]; [by rewrite append_nil_l, append_nil_r|].
  by rewrite append_cons, !rev_cons, IH, append_assoc.
Qed.

Lemma rev_involutive (s : string) : String.rev (String.rev s) = s.
Proof.
  induction s as [|c s IH]; [done|].
  by rewrite rev_cons, rev_append, IH.
Qed.

Lemma rev_length (s : string) : String.length (String.rev s) = String.length s.
Proof.
  induction s as [|c s IH]; [done|].
  rewrite rev_cons, length_append, IH. simpl. lia.
Qed.

Lemma prefix_append (p s : string) :
  String.prefix p s = true <-> exists r, s = p +:+ r.
Proof.
  revert s. induction p as [|a p IH]; intros s.
  - destruct s; simpl; split; eauto.
  - destruct s as [|b s]; simpl.
    + split; [done|]. by intros [r Hr].
    + destruct (ascii_dec a b) as [->|Hne].
      * rewrite IH. split; intros [r Hr]; exists r.
        -- by rewrite append_cons, Hr.
        -- rewrite append_cons in Hr. by inversion Hr.
      * split; [done|]. intros [r Hr]. rewrite append_cons in Hr. by inversion Hr.
Qed.

Lemma allDigits_append (s t : string) :
  allDigits (s +:+ t) = allDigits s && allDigits t.
Proof.
  induction s as [|c s IH]; [done|].
  rewrite append_cons. cbn [allDigits]. by rewrite IH, andb_assoc.
Qed.

Lemma allDigits_rev (s : string) : allDigits (String.rev s) = allDigits s.
Proof.
  induction s as [|c s IH]; [done|].
  rewrite rev_cons, allDigits_append, IH. cbn [allDigits].
  rewrite andb_true_r. apply andb_comm.
Qed.

Lemma allIdentChars_append (s t : string) :
  allIdentChars (s +:+ t) = allIdentChars s && allIdentChars t.
Proof.
  induction s as [|c s IH]; [done|].
  rewrite append_cons. cbn [allIdentChars]. by rewrite IH, andb_assoc.
Qed.

Lemma isDigit_identChar (c : ascii) : isDigit c = true -> identChar c = true.
Proof.
  unfold isDigit, identChar. intros H. rewrite H. by rewrite !orb_true_r.
Qed.

Lemma allDigits_allIdentChars (s : string) :
  allDigits s = true -> allIdentChars s = true.
Proof.
  induction s as [|c s IH]; [done|]. cbn [allDigits allIdentChars].
  intros [Hc Hs]%andb_true_iff. by rewrite (isDigit_identChar c Hc), IH.
Qed.

(** The leading digits of a string and what [stripDigits] leaves. *)
Lemma stripDigits_split (r : string) :
  exists ds, allDigits ds = true /\ r = ds +:+ stripDigits r.
Proof.
  induction r as [|c r (ds & Hds & IH)]; [by exists ""|].
  cbn [stripDigits]. destruct (isDigit c) eqn:Ec.
  - exists (String c ds). split; [by cbn; rewrite Ec|].
    by rewrite append_cons, <- IH.
  - by exists "".
Qed.

Lemma stripDigits_append (ds s : string) :
  allDigits ds = true -> stripDigits (ds +:+ s) = stripDigits s.
Proof.
  induction ds as [|c ds IH]; [done|]. cbn [allDigits].
  intros [Hc Hds]%andb_true_iff. rewrite append_cons. cbn [stripDigits].
  rewrite Hc. auto.
Qed.

(** The decimal numeral of a number: digits, at least one. *)
Lemma pretty_N_char_digit (x : N) : isDigit (pretty_N_char x) = true.
Proof. unfold pretty_N_char. by repeat case_match. Qed.

Lemma pretty_N_go_digits (x : N) : forall s,
  exists ds, allDigits ds = true /\ pretty_N_go x s = ds +:+ s /\
             ((0 < x)%N -> ds <> "").
Proof.
  induction (N.lt_wf_0 x) as [x _ IH]. intros s.
  destruct (decide (x = 0)%N) as [->|Hx].
  - exists "". rewrite pretty_N_go_0. split; [done|]. split; [done|]. lia.
  - rewrite pretty_N_go_step by lia.
    destruct (IH (x `div` 10)%N) with (s := String (pretty_N_char (x `mod` 10)) s)
      as (ds & Hds & Heq & _).
    { apply N.div_lt; lia. }
    exists (ds +:+ String (pretty_N_char (x `mod` 10)) "").
    split; [|split].
    + rewrite allDigits_append, Hds. cbn. by rewrite pretty_N_char_digit.
    + by rewrite Heq, append_assoc.
    + intros _ E. apply (f_equal String.length) in E.
      rewrite length_append in E. simpl in E. lia.
Qed.

Lemma pretty_nat_digits (i : nat) :
  allDigits (pretty i) = true /\ pretty i <> "".
Proof.
  unfold pretty, pretty_nat, pretty, pretty_N.
  destruct (decide (N.of_nat i = 0)%N) as [E|E]; [done|].
  destruct (pretty_N_go_digits (N.of_nat i) "") as (ds & Hds & Heq & Hne).
  rewrite Heq, append_nil_r. split; [done|]. apply Hne. lia.
Qed.

(** The numeral [pretty] prints is the decimal numeral. *)
Lemma decimalDigits_append (s t : string) :
  decimalDigits (s +:+ t) = decimalDigits s && decimalDigits t.
Proof.
  induction s as [|c s IH]; [done|].
  rewrite append_cons. cbn [decimalDigits]. by rewrite IH, andb_assoc.
Qed.

Lemma decimalValueFrom_append (s t : string) (acc : nat) :
  decimalValueFrom acc (s +:+ t) = decimalValueFrom (decimalValueFrom acc s) t.
Proof.
  revert acc. induction s as [|c s IH]; intros acc; [done|].
  rewrite append_cons. cbn [decimalValueFrom]. apply IH.
Qed.

Lemma pretty_N_char_value (d : N) :
  (d < 10)%N ->
  let c := pretty_N_char d in
  nat_of_ascii c - 48 = N.to_nat d /\
  (48 <=? nat_of_ascii c) && (nat_of_ascii c <=? 57) = true /\
  ((0 < d)%N -> String.prefix "0" (String c "") = false).
Proof.
  intros Hd.
  assert (d = 0 \/ d = 1 \/ d = 2 \/ d = 3 \/ d = 4 \/ d = 5 \/ d = 6 \/ d = 7 \/
          d = 8 \/ d = 9)%N as H by lia.
  repeat (destruct H as [->|H]); try subst d; cbv zeta;
    (split; [reflexivity|split; [reflexivity|]]); intros H0; try reflexivity; lia.
Qed.

Lemma pretty_N_go_decimal (x : N) : forall s,
  exists ds, pretty_N_go x s = ds +:+ s /\
             decimalDigits ds = true /\
             (x = 0%N -> ds = "") /\
             ((0 < x)%N -> ds <> "" /\ String.prefix "0" ds = false) /\
             decimalValueFrom 0 ds = N.to_nat x.
Proof.
  induction (N.lt_wf_0 x) as [x _ IH]. intros s.
  destruct (decide (x = 0)%N) as [->|Hx].
  - exists "". rewrite pretty_N_go_0. repeat split; try done; lia.
  - rewrite pretty_N_go_step by lia.
    destruct (IH (x `div` 10)%N) with (s := String (pretty_N_char (x `mod` 10)) s)
      as (ds & Heq & Hds & Hzero & Hpos & Hval).
    { apply N.div_lt; lia. }
    assert (Hmod : (x `mod` 10 < 10)%N) by (apply N.mod_lt; lia).
    destruct (pretty_N_char_value (x `mod` 10)%N Hmod) as (Hc & Hdig & Hlead).
    exists (ds +:+ String (pretty_N_char (x `mod` 10)) "").
    split; [by rewrite Heq, append_assoc|].
    split; [rewrite decimalDigits_append, Hds; cbn [decimalDigits andb]; by rewrite Hdig|].
    split; [lia|]. split.
    + intros _. split.
      * intros E. apply (f_equal String.length) in E.
        rewrite length_append in E. simpl in E. lia.
      * destruct (decide (x `div` 10 = 0)%N) as [E0|E0].
        -- rewrite (Hzero E0), append_nil_l. apply Hlead.
           pose proof (N.div_mod x 10 ltac:(lia)) as Hdm. lia.
        -- destruct Hpos as [Hne Hpre]; [lia|].
           destruct ds as [|a ds]; [done|]. rewrite append_cons.
           cbn [String.prefix] in *.
           destruct (ascii_dec "0" a); [by destruct ds | done].
    + rewrite decimalValueFrom_append, Hval. cbn [decimalValueFrom]. rewrite Hc.
      pose proof (N.div_mod x 10 ltac:(lia)) as Hdm. lia.
Qed.

Lemma pretty_decimalNumeral (k : nat) : 0 < k -> decimalNumeral k (pretty k).
Proof.
  intros Hk. unfold pretty, pretty_nat, pretty, pretty_N.
  destruct (decide (N.of_nat k = 0)%N) as [E|E]; [lia|].
  destruct (pretty_N_go_decimal (N.of_nat k) "") as (ds & Heq & Hds & _ & Hpos & Hval).
  rewrite Heq, append_nil_r. destruct Hpos as [Hne Hpre]; [lia|].
  unfold decimalNumeral. rewrite Hval. repeat split; try done. lia.
Qed.

(** The candidates are the names the specification lists. *)
Lemma fbCandidate_names (b : string) (k : nat) :
  (k = 0 /\ fbCandidate b k = b +:+ "__fb") \/
  (0 < k /\ exists ds, decimalNumeral k ds /\ fbCandidate b k = b +:+ "__fb_" +:+ ds).
Proof.
  destruct k as [|k]; [by left|]. right. split; [lia|].
  exists (pretty (S k)). split; [apply pretty_decimalNumeral; lia | done].
Qed.

Lemma fbCandidate_inj (b : string) : Inj (=) (=) (fbCandidate b).
Proof.
  intros [|i] [|j] H; cbn [fbCandidate] in H; [done| | |].
  - apply String.app_inj in H. apply (f_equal String.length) in H.
    rewrite length_append in H. simpl in H. lia.
  - apply String.app_inj in H. apply (f_equal String.length) in H.
    rewrite length_append in H. simpl in H. lia.
  - by apply (fbNameN_inj b) in H.
Qed.

(** *** Thunk names, sanitised bases and what the allocator returns *)

(** The test on the reversed name, and the two shapes of the pattern. *)
Lemma fbThunkName_iff (name : string) :
  fbThunkName name = true <-> endsLikeThunk name.
Proof.
  unfold fbThunkName, endsLikeThunk. cbv zeta. rewrite orb_true_iff, andb_true_iff, negb_true_iff.
  rewrite bool_decide_eq_false, !prefix_append. split.
  - intros [[q Hq] | [Hne [q Hq]]].
    + left. exists (String.rev q).
      apply (f_equal String.rev) in Hq. rewrite rev_involutive, rev_append in Hq.
      by rewrite Hq.
    + right. destruct (stripDigits_split (String.rev name)) as (ds & Hds & Hsplit).
      exists (String.rev q), (String.rev ds). split; [|split].
      * intros E. apply (f_equal String.length) in E. rewrite rev_length in E.
        destruct ds; [|done]. by rewrite append_nil_l in Hsplit.
      * by rewrite allDigits_rev.
      * rewrite Hq in Hsplit. apply (f_equal String.rev) in Hsplit.
        rewrite rev_involutive, !rev_append in Hsplit.
        by rewrite Hsplit, append_assoc.
  - intros [[pre ->] | (pre & ds & Hne & Hds & ->)].
    + left. exists (String.rev pre). by rewrite rev_append.
    + right.
      assert (Hrev : String.rev (pre +:+ "__fb_" +:+ ds)
                     = String.rev ds +:+ "_bf__" +:+ String.rev pre).
      { by rewrite !rev_append, append_assoc. }
      assert (Hstrip : stripDigits (String.rev (pre +:+ "__fb_" +:+ ds))
                       = "_bf__" +:+ String.rev pre).
      { rewrite Hrev, stripDigits_append by (by rewrite allDigits_rev). done. }
      split; [|exists (String.rev pre); by rewrite Hstrip].
      rewrite Hstrip, Hrev. intros E. apply (f_equal String.length) in E.
      rewrite !length_append, !rev_length in E.
      destruct ds; [done|]. simpl in E. lia.
Qed.

Lemma replaceNonIdent_ident (s : string) : allIdentChars (replaceNonIdent s) = true.
Proof.
  induction s as [|c s IH]; [done|]. cbn [replaceNonIdent allIdentChars].
  rewrite IH, andb_true_r. by destruct (identChar c) eqn:E.
Qed.

Lemma replaceNonIdent_clean (s : string) :
  allIdentChars s = true -> replaceNonIdent s = s.
Proof.
  induction s as [|c s IH]; [done|]. cbn [replaceNonIdent allIdentChars].
  intros [Hc Hs]%andb_true_iff. by rewrite Hc, IH.
Qed.

Lemma replaceNonIdent_length (s : string) :
  String.length (replaceNonIdent s) = String.length s.
Proof. induction s as [|c s IH]; [done|]. simpl. by rewrite IH. Qed.

Lemma replaceNonIdent_empty (s : string) : replaceNonIdent s = "" <-> s = "".
Proof. destruct s; simpl; split; done. Qed.

Lemma sanitizeBase_clean (s : string) :
  s <> "" -> allIdentChars s = true -> sanitizeBase s = s.
Proof.
  intros Hne Hs. unfold sanitizeBase. rewrite replaceNonIdent_clean by done.
  by rewrite bool_decide_eq_false_2.
Qed.

Lemma sanitizeBase_ident (s : string) :
  sanitizeBase s <> "" /\ allIdentChars (sanitizeBase s) = true.
Proof.
  unfold sanitizeBase. case_bool_decide as E; [done|].
  split; [done | apply replaceNonIdent_ident].
Qed.

Lemma fbCandidate_shape (b : string) (k : nat) :
  fbThunkName (fbCandidate b k) = true /\
  (allIdentChars b = true -> allIdentChars (fbCandidate b k) = true) /\
  String.prefix (b +:+ "__fb") (fbCandidate b k) = true.
Proof.
  destruct k as [|k]; cbn [fbCandidate].
  - split; [|split].
    + apply fbThunkName_iff. left. by exists b.
    + intros Hb. by rewrite allIdentChars_append, Hb.
    + apply prefix_append. exists "". by rewrite append_nil_r.
  - destruct (pretty_nat_digits (S k)) as [Hd Hne]. split; [|split].
    + apply fbThunkName_iff. right. by exists b, (pretty (S k)).
    + intros Hb. rewrite !allIdentChars_append, Hb.
      by rewrite (allDigits_allIdentChars _ Hd).
    + apply prefix_append. exists ("_" +:+ pretty (S k)).
      by rewrite append_assoc.
Qed.

Lemma firstFree_Some (fuel : nat) (tk : string -> bool) (base : string) (i k : nat) :
  firstFree fuel tk base i = Some k -> i <= k /\ tk (fbNameN base k) = false.
Proof.
  revert i. induction fuel as [|fuel IH]; intros i; [done|]. cbn [firstFree].
  destruct (tk (fbNameN base i)) eqn:E.
  - intros H. apply IH in H as [? ?]. split; [lia | done].
  - intros [= <-]. auto.
Qed.

(** Whatever the fuel, a name the allocator returns is a candidate that
    is not taken, and the table is the target's table with the name
    added. *)
Lemma makeUniqueFbName_Some (fuel : nat) (R : Reserved) (base : string) (t u : Scope)
    (name : string) (R' : Reserved) :
  makeUniqueFbName fuel R base t u = Some (name, R') ->
  let R1 := (getReserved R t).2 in
  (exists k, name = fbCandidate (sanitizeBase base) k) /\
  taken R1 t u name = false /\
  R' = reserve R1 t name.
Proof.
  unfold makeUniqueFbName. cbv zeta.
  destruct (taken _ t u (fbName0 (sanitizeBase base))) eqn:E0; cbn [negb].
  - destruct (firstFree _ _ _ 1) as [i|] eqn:Ei; [|done].
    intros [= <- <-]. apply firstFree_Some in Ei as [Hi Hf].
    split; [|done]. exists i. destruct i; [lia | done].
  - intros [= <- <-]. split; [by exists 0 | done].
Qed.

(** *** The base of a call *)

Lemma argNames_identifiers (xs : list string) :
  Forall (fun x => x <> "") xs -> argNames (map Identifier xs) = String.concat "_" xs.
Proof.
  intros H. unfold argNames. f_equal.
  induction H as [|x xs Hx _ IH]; [done|]. cbn.
  rewrite bool_decide_eq_false_2 by done. cbn. by f_equal.
Qed.

Lemma argNames_filter (args : list Node) :
  argNames (List.filter isIdentifier args) = argNames args.
Proof.
  unfold argNames. f_equal. induction args as [|a args IH]; [done|].
  destruct a; cbn; try done. case_bool_decide; cbn; by rewrite IH.
Qed.

Lemma concat_clean (xs : list string) :
  Forall cleanName xs -> allIdentChars (String.concat "_" xs) = true.
Proof.
  induction 1 as [|x xs [_ Hx] Hxs IH]; [done|].
  destruct xs as [|y xs]; [done|].
  change (String.concat "_" (x :: y :: xs)) with (x +:+ "_" +:+ String.concat "_" (y :: xs)).
  by rewrite !allIdentChars_append, Hx, IH.
Qed.

Lemma concat_nonempty (x : string) (xs : list string) :
  x <> "" -> String.concat "_" (x :: xs) <> "".
Proof.
  intros Hx. destruct xs as [|y xs]; [done|].
  change (String.concat "_" (x :: y :: xs)) with (x +:+ "_" +:+ String.concat "_" (y :: xs)).
  destruct x; [done|]. by rewrite append_cons.
Qed.

Lemma deriveBase_join (f : string) (xs : list string) :
  Forall cleanName (f :: xs) ->
  sanitizeBase (if bool_decide (argNames (map Identifier xs) = "") then f
                else f +:+ "_" +:+ argNames (map Identifier xs))
  = String.concat "_" (f :: xs).
Proof.
  intros H. pose proof (concat_clean _ H) as Hclean.
  apply Forall_cons in H as [[Hf Hfc] Hxs].
  rewrite argNames_identifiers by (eapply Forall_impl; [exact Hxs | by intros ? [? _]]).
  destruct xs as [|y xs].
  - cbn. by apply sanitizeBase_clean.
  - apply Forall_cons in Hxs as [[Hy _] _].
    rewrite bool_decide_eq_false_2 by (by apply concat_nonempty).
    change (String.concat "_" (f :: y :: xs)) with (f +:+ "_" +:+ String.concat "_" (y :: xs)) in *.
    apply sanitizeBase_clean; [|done].
    destruct f; [done|]. by rewrite append_cons.
Qed.

Lemma deriveBaseFromCall_sanitized (n : Node) :
  exists b, deriveBaseFromCall n = sanitizeBase b.
Proof.
  destruct n; try (by exists "fb").
  cbn [deriveBaseFromCall]. eauto.
Qed.

(** *** The shape of the resolver's answer *)

Lemma widen_chain (fuel : nat) (names : list string) (start t : Scope) :
  In (widen fuel names start t) (chain t).
Proof.
  revert t. induction fuel as [|fuel IH]; intros t; [apply chain_self|].
  cbn [widen]. destruct t as [d|d b p]; cbn [parentScope]; [apply chain_self|].
  destruct (nextFunctionOrProgram p) as [w|] eqn:Ew; [|apply chain_self].
  destruct (canHoistToParent names start w); [|apply chain_self].
  right. apply (chain_incl p w); [by apply nextFunctionOrProgram_chain | apply IH].
Qed.

Lemma nextFunctionOrProgram_functionOrTop (p w : Scope) :
  nextFunctionOrProgram p = Some w -> functionOrTop w = true.
Proof.
  unfold functionOrTop. induction p as [d|d b p IH]; cbn [nextFunctionOrProgram].
  - cbn. by intros [= <-].
  - destruct (scopeIsFunction (NestedScope d b p) || scopeIsProgram (NestedScope d b p)) eqn:E;
      [by intros [= <-] | done].
Qed.

Lemma widen_functionOrTop (fuel : nat) (names : list string) (start t : Scope) :
  functionOrTop t = true -> functionOrTop (widen fuel names start t) = true.
Proof.
  revert t. induction fuel as [|fuel IH]; intros t Ht; [done|].
  cbn [widen]. destruct (parentScope t) as [p|]; [|done].
  destruct (nextFunctionOrProgram p) as [w|] eqn:Ew; [|done].
  destruct (canHoistToParent names start w); [|done].
  apply IH. by apply (nextFunctionOrProgram_functionOrTop p).
Qed.

Lemma getProgramParent_program (s : Scope) : scopeIsProgram (getProgramParent s) = true.
Proof. induction s; done. Qed.

Lemma enclosingFunctionScope_functionOrTop (s : Scope) :
  functionOrTop (enclosingFunctionScope s) = true.
Proof.
  unfold enclosingFunctionScope, functionOrTop.
  destruct (getFunctionParent s) as [f|] eqn:E.
  - assert (scopeIsFunction f = true) as ->; [|done].
    induction s as [d|d b p IH]; cbn [getFunctionParent] in E.
    + done.
    + destruct (scopeIsFunction (NestedScope d b p)) eqn:Ef; [by inversion E; subst | auto].
  - by rewrite getProgramParent_program, orb_true_r.
Qed.

Lemma getProgramParent_above (s t : Scope) :
  In t (chain s) -> In (getProgramParent s) (chain t).
Proof.
  induction s as [d|d b p IH]; cbn [chain getProgramParent].
  - intros [<-|[]]. by left.
  - intros [<-|H]; [|auto]. right. apply getProgramParent_chain.
Qed.

(** The answer of the resolver, whatever the names. *)
Lemma outermostScopeWith_target (names : list string) (start : Scope) :
  exists target,
    outermostScopeWith names start = Some target /\
    functionOrTop target = true /\
    In target (chain (enclosingFunctionScope start)).
Proof.
  unfold outermostScopeWith. destruct names as [|n0 names].
  - eexists. split; [done|]. split.
    + unfold functionOrTop. by rewrite getProgramParent_program, orb_true_r.
    + apply getProgramParent_above, enclosingFunctionScope_chain.
  - destruct (negb _).
    + eexists. split; [done|].
      split; [apply enclosingFunctionScope_functionOrTop | apply chain_self].
    + eexists. split; [done|].
      split; [apply widen_functionOrTop, enclosingFunctionScope_functionOrTop
             | apply widen_chain].
Qed.

Lemma canHoistToParent_incl (names names' : list string) (start w : Scope) :
  incl names names' ->
  canHoistToParent names' start w = true -> canHoistToParent names start w = true.
Proof.
  unfold canHoistToParent. rewrite !forallb_forall. auto.
Qed.

(** With fewer names the loop goes at least as far. *)
Lemma widen_incl (fuel : nat) (names names' : list string) (start t : Scope) :
  incl names names' ->
  In (widen fuel names start t) (chain (widen fuel names' start t)).
Proof.
  intros Hincl. revert t. induction fuel as [|fuel IH]; intros t; [apply chain_self|].
  pose proof (widen_chain (S fuel) names start t) as Hc.
  cbn [widen] in *. destruct (parentScope t) as [p|]; [|done].
  destruct (nextFunctionOrProgram p) as [w|] eqn:Ew; [|done].
  destruct (canHoistToParent names' start w) eqn:E'; [|done].
  rewrite (canHoistToParent_incl names names' start w Hincl E'). apply IH.
Qed.

Lemma chain_strict (s t : Scope) : In t (chain s) -> t = s \/ depth t < depth s.
Proof.
  destruct s as [d|d b p]; cbn [chain].
  - intros [<-|[]]. by left.
  - intros [<-|H]; [by left|]. right. apply depth_chain in H. simpl. lia.
Qed.

Lemma chain_antisym (s t : Scope) : In t (chain s) -> In s (chain t) -> t = s.
Proof.
  intros H1 H2. destruct (chain_strict s t H1) as [|Hlt]; [done|].
  apply depth_chain in H2. lia.
Qed.

Lemma chain_trans (s t u : Scope) : In t (chain s) -> In u (chain t) -> In u (chain s).
Proof. intros H1 H2. by apply (chain_incl s t). Qed.

Lemma outermostScopeWith_incl (names names' : list string) (start t t' : Scope) :
  incl names names' ->
  outermostScopeWith names start = Some t ->
  outermostScopeWith names' start = Some t' ->
  In t (chain t').
Proof.
  intros Hincl Ht Ht'.
  assert (Hin : In t (chain (enclosingFunctionScope start))).
  { destruct (outermostScopeWith_target names start) as (t0 & E & _ & Hin). congruence. }
  unfold outermostScopeWith in Ht, Ht'.
  destruct names' as [|n1 names'].
  - destruct names as [|n0 names]; [|by destruct (Hincl n0 (or_introl eq_refl))].
    assert (t = t') as -> by congruence. apply chain_self.
  - destruct (forallb (foundOnChain start) (n1 :: names')) eqn:Hall'; cbn [negb] in Ht';
      inversion Ht'; subst t'; clear Ht'; [|done].
    destruct names as [|n0 names].
    + inversion Ht; subst t. apply getProgramParent_above.
      apply (chain_trans _ (enclosingFunctionScope start));
        [apply enclosingFunctionScope_chain | apply widen_chain].
    + assert (Hall : forallb (foundOnChain start) (n0 :: names) = true).
      { rewrite forallb_forall in Hall' |- *. auto. }
      rewrite Hall in Ht. cbn [negb] in Ht. inversion Ht; subst t.
      by apply widen_incl.
Qed.

(** *** Hoists are well scoped *)

Lemma taken_false_fresh (R : Reserved) (t u : Scope) (n : string) :
  taken R t u n = false ->
  hasBinding t n = false /\ hasGlobal t n = false /\
  (forall s, In s (scopesBelow t u) -> hasOwnBinding s n = false).
Proof.
  intros Hfree.
  assert (Hnc : ~ Collides R t u n).
  { intros Hc. apply taken_Collides in Hc. congruence. }
  split; [|split].
  - destruct (hasBinding t n) eqn:E; [|done].
    destruct Hnc. left. apply hasBinding_chain in E as (s & Hs & H). eauto.
  - destruct (hasGlobal t n) eqn:E; [|done].
    destruct Hnc. left. apply hasGlobal_chain in E as (s & Hs & H). eauto.
  - intros s Hs. destruct (hasOwnBinding s n) eqn:E; [|done].
    destruct Hnc. right. eauto.
Qed.

(** Every name the resolver accepted for a wider target is resolvable
    from that target. *)
Lemma outermostScopeWith_resolvable (names : list string) (start target : Scope) :
  paramsBound start = true -> uidsDistinct start ->
  outermostScopeWith names start = Some target ->
  sameScope target (enclosingFunctionScope start) = false ->
  forall n, In n names -> Resolvable target n.
Proof.
  intros Hwf Hnd Hout Hsame n Hn.
  destruct (outermostScopeWith_accepted names start target Hout Hsame)
    as [-> | [Ht Hacc]]; [done|].
  unfold canHoistToParent in Hacc. rewrite forallb_forall in Hacc.
  specialize (Hacc n Hn). rewrite nameVisibleIn_spec in Hacc by done.
  apply orb_true_iff in Hacc as [Hacc | Hg].
  - apply orb_true_iff in Hacc as [Ho | Hp].
    + unfold ownerIsWiderOrAncestor in Ho.
      destruct (getBinding start n) as [[b owner]|] eqn:Eb; [|done].
      rewrite <- visibleFrom_chain in Ho.
      apply getBinding_owner in Eb as [Hown Hb].
      exists owner. split; [by apply (visibleFrom_owner start)|].
      left. unfold hasOwnBinding. apply bool_decide_eq_true. by rewrite Hb.
    + exists target. split; [apply chain_self|]. left.
      by apply (isParamOf_bound start).
  - apply hasGlobal_chain in Hg as (s & Hs & Hg). exists s. auto.
Qed.

(** What both visitors establish before they build a hoist. *)
Lemma hoist_WellScoped (fuel : nat) (R R' : Reserved) (base fbName : string)
    (fvs : list string) (scope target : Scope) (st : RunState) (expr : Node) :
  paramsBound scope = true -> uidsDistinct scope ->
  outermostScopeWith fvs scope = Some target ->
  sameScope target (enclosingFunctionScope scope) = false ->
  makeUniqueFbName fuel R base target scope = Some (fbName, R') ->
  WellScoped scope fvs (buildHoist st fbName target expr).
Proof.
  intros Hwf Hnd Hout Hsame Hname. unfold WellScoped. cbn [buildHoist hTarget hName].
  destruct (outermostScopeWith_target fvs scope) as (t0 & E & Hft & Hin).
  rewrite E in Hout. inversion Hout; subst t0. clear Hout.
  split; [done|]. split.
  { apply (chain_trans _ (enclosingFunctionScope scope));
      [apply enclosingFunctionScope_chain | done]. }
  split.
  { destruct (chain_strict _ _ Hin) as [->|]; [|done].
    by rewrite sameScope_refl in Hsame. }
  split; [by apply (outermostScopeWith_resolvable fvs scope)|].
  apply makeUniqueFbName_Some in Hname as (_ & Hfree & _).
  by apply taken_false_fresh in Hfree.
Qed.

(** *** Reserved names *)

Lemma uidsDistinct_parent (d : ScopeData) (b : ScopeBlock) (p : Scope) :
  uidsDistinct (NestedScope d b p) -> uidsDistinct p.
Proof. unfold uidsDistinct. cbn. intros H. by apply NoDup_cons_iff in H as [_ H]. Qed.

Lemma sameScope_eq (u s t : Scope) :
  uidsDistinct u -> In s (chain u) -> In t (chain u) -> sameScope s t = true -> s = t.
Proof.
  intros Hnd Hs Ht Hsame. unfold sameScope in Hsame. apply bool_decide_eq_true in Hsame.
  by apply (NoDup_map_eq (fun s' => uid (data s')) (chain u)).
Qed.

(** The chain of the use-site is made of the scopes below the target and
    of the chain of the target. *)
Lemma chain_split (u t s : Scope) :
  uidsDistinct u -> In t (chain u) -> In s (chain u) ->
  In s (scopesBelow t u) \/ In s (chain t).
Proof.
  induction u as [d|d b p IH]; intros Hnd Ht Hs.
  - destruct Ht as [<-|[]]. by right.
  - cbn [scopesBelow]. destruct (sameScope (NestedScope d b p) t) eqn:Esame.
    + apply (sameScope_eq (NestedScope d b p)) in Esame; [|done|apply chain_self|done].
      subst t. by right.
    + destruct Ht as [<-|Ht]; [by rewrite sameScope_refl in Esame|].
      destruct Hs as [<-|Hs]; [left; by left|].
      destruct (IH (uidsDistinct_parent _ _ _ Hnd) Ht Hs) as [H|H]; [|by right].
      left. by right.
Qed.

Lemma reservedHas_getReserved (R : Reserved) (t s : Scope) (n : string) :
  reservedHas R s n = true -> reservedHas (getReserved R t).2 s n = true.
Proof.
  unfold getReserved, reservedHas. destruct (R !! uid (data t)) eqn:Et; [done|].
  cbn [snd]. destruct (decide (uid (data s) = uid (data t))) as [E|E].
  - by rewrite E, Et.
  - by rewrite lookup_insert_ne.
Qed.

Lemma reservedHas_reserve_mono (R : Reserved) (t s : Scope) (m n : string) :
  reservedHas R s n = true -> reservedHas (reserve R t m) s n = true.
Proof.
  unfold reserve, reservedHas. destruct (R !! uid (data t)) as [set|] eqn:Et; [|done].
  destruct (decide (uid (data s) = uid (data t))) as [E|E].
  - rewrite E, Et, lookup_insert_eq. rewrite !bool_decide_eq_true. set_solver.
  - by rewrite lookup_insert_ne.
Qed.

(** A name that is reserved at a scope of the use-site's chain is not
    handed out, and stays reserved. *)
Lemma makeUniqueFbName_avoids (fuel : nat) (R R' : Reserved) (base name : string)
    (t u s : Scope) (n : string) :
  uidsDistinct u -> In t (chain u) -> In s (chain u) ->
  reservedHas R s n = true ->
  makeUniqueFbName fuel R base t u = Some (name, R') ->
  name <> n /\ reservedHas R' s n = true.
Proof.
  intros Hnd Ht Hs Hres H. apply makeUniqueFbName_Some in H as (_ & Hfree & ->).
  apply (reservedHas_getReserved R t) in Hres. split.
  - intros ->. assert (Hc : Collides (getReserved R t).2 t u n).
    { destruct (chain_split u t s Hnd Ht Hs) as [Hb|Ha].
      - right. exists s. auto.
      - left. exists s. auto. }
    apply taken_Collides in Hc. congruence.
  - by apply reservedHas_reserve_mono.
Qed.

Lemma makeUniqueFbName_reserved (fuel : nat) (R R' : Reserved) (base name : string)
    (t u : Scope) :
  makeUniqueFbName fuel R base t u = Some (name, R') -> reservedHas R' t name = true.
Proof.
  intros H. apply makeUniqueFbName_Some in H as (_ & _ & ->).
  apply reservedHas_reserve, getReserved_has.
Qed.

(** *** Two insertions *)

(** The leading run of anchors of a statement list is unique. *)
Lemma anchors_unique (isProg : bool) (pre pre' post post' : list Node) :
  pre ++ post = pre' ++ post' ->
  Forall (fun s => isAnchor isProg s = true) pre ->
  Forall (fun s => isAnchor isProg s = true) pre' ->
  (forall s rest, post = s :: rest -> isAnchor isProg s = false) ->
  (forall s rest, post' = s :: rest -> isAnchor isProg s = false) ->
  pre = pre' /\ post = post'.
Proof.
  revert pre'. induction pre as [|a pre IH]; intros pre' E Hpre Hpre' Hpost Hpost'.
  - destruct pre' as [|a' pre']; [done|]. simpl in E.
    apply Forall_cons in Hpre' as [Ha' _].
    rewrite (Hpost a' (pre' ++ post')) in Ha' by done. done.
  - apply Forall_cons in Hpre as [Ha Hpre].
    destruct pre' as [|a' pre'].
    + simpl in E. rewrite (Hpost' a (pre ++ post)) in Ha by done. done.
    + simpl in E. inversion E as [[Ea E']]. subst a'.
      apply Forall_cons in Hpre' as [_ Hpre'].
      destruct (IH pre' E' Hpre Hpre' Hpost Hpost') as [-> ->]. done.
Qed.

(** Inserting into a list that is already split at its leading anchors. *)
Lemma insertAfterPrologueAndImports_at (isProg : bool) (pre post : list Node) (decl : Node) :
  Forall (fun s => isAnchor isProg s = true) pre ->
  (forall s rest, post = s :: rest -> isAnchor isProg s = false) ->
  insertAfterPrologueAndImports isProg (pre ++ post) decl = pre ++ decl :: post.
Proof.
  intros Hpre Hpost.
  destruct (insertAfterPrologueAndImports_split isProg (pre ++ post) decl)
    as (pre' & post' & E & -> & Hpre' & Hpost').
  by destruct (anchors_unique isProg pre pre' post post' E Hpre Hpre' Hpost Hpost') as [-> ->].
Qed.

Lemma isAnchor_hDecl (isProg : bool) (st : RunState) (name : string) (t : Scope) (e : Node) :
  isAnchor isProg (hDecl (buildHoist st name t e)) = false.
Proof. by destruct isProg. Qed.

(** *** The helper's name *)

Lemma helperNameN_inj : Inj (=) (=) helperNameN.
Proof.
  intros i j H. unfold helperNameN in H.
  apply String.app_inj, String.app_inj in H. by apply (inj pretty) in H.
Qed.

(** Among more candidates than there are taken names, one is free. *)
Lemma free_index (cand : nat -> string) (tk : string -> bool) (T : gset string) :
  Inj (=) (=) cand ->
  (forall n, tk n = true -> n ∈ T) ->
  exists i, 1 <= i <= S (size T) /\ tk (cand i) = false.
Proof.
  intros Hinj HT.
  destruct (forallb (fun i => tk (cand i)) (seq 1 (S (size T)))) eqn:E.
  - exfalso. rewrite forallb_forall in E.
    assert (Hsub : list_to_set (cand <$> seq 1 (S (size T))) ⊆ T).
    { intros n Hn. apply elem_of_list_to_set, list_elem_of_fmap in Hn as (i & -> & Hi).
      apply HT, E. by apply list_elem_of_In. }
    apply subseteq_size in Hsub. rewrite size_list_to_set in Hsub.
    + rewrite length_fmap, length_seq in Hsub. lia.
    + apply NoDup_fmap_2; [done | apply NoDup_seq].
  - apply forallb_false_In in E as (i & Hi & Hf).
    exists i. apply in_seq in Hi. split; [lia | done].
Qed.

Lemma firstFreeHelper_least (fuel : nat) (tk : string -> bool) (i k : nat) :
  i <= k -> k < i + fuel ->
  tk (helperNameN k) = false ->
  (forall j, i <= j < k -> tk (helperNameN j) = true) ->
  firstFreeHelper fuel tk i = Some k.
Proof.
  revert i. induction fuel as [|fuel IH]; intros i Hik Hk Hfree Hbelow; [lia|].
  cbn [firstFreeHelper]. destruct (decide (i = k)) as [->|Hne].
  - by rewrite Hfree.
  - rewrite Hbelow by lia. apply IH; [lia | lia | done |].
    intros j Hj. apply Hbelow. lia.
Qed.

Lemma takenAbove_takenNames (R : Reserved) (t : Scope) (n : string) :
  takenAbove R t n = true -> n ∈ takenNames R t t.
Proof. intros H. apply taken_takenNames. unfold taken. by rewrite H. Qed.

Lemma helperCandidate_nonempty (k : nat) : helperCandidate k <> "".
Proof. by destruct k. Qed.

Lemma getHelperName_set (R : Reserved) (name : string) :
  name <> "" -> getHelperName (MkRunState R (Some name)) = name.
Proof. intros H. unfold getHelperName. cbn. by rewrite bool_decide_eq_false_2. Qed.

(** The helper gets the first candidate that is not taken, whenever the
    fuel is at least [nameFuel]. *)
Lemma ensureHelper_first (assignmentExpression : string -> Node -> Node -> Node)
    (programScope : Scope) (programPath : ProgramPath) :
  helperInjected programPath = false ->
  let R1 := (getReserved (reservedNames (programState programPath)) programScope).2 in
  exists k,
    (forall fuel,
       nameFuel (reservedNames (programState programPath)) programScope programScope <= fuel ->
       ensureHelper assignmentExpression fuel programScope programPath =
       Some (MkProgramPath true
               (MkRunState (reserve R1 programScope (helperCandidate k))
                  (Some (helperCandidate k)))
               (insertAfterPrologueAndImports true (programBody programPath)
                  (helperDeclaration assignmentExpression (helperCandidate k))))) /\
    takenAbove R1 programScope (helperCandidate k) = false /\
    (forall j, j < k -> takenAbove R1 programScope (helperCandidate j) = true).
Proof.
  intros Hinj R1.
  destruct (free_index helperNameN (takenAbove R1 programScope)
              (takenNames R1 programScope programScope) helperNameN_inj
              (takenAbove_takenNames R1 programScope)) as (i & Hi & Hfree).
  destruct (least_false (fun k => takenAbove R1 programScope (helperCandidate k)) i)
    as (k & Hk & Hkf & Hlt).
  { destruct i; [lia | done]. }
  exists k. split; [|done].
  intros fuel Hfuel. unfold nameFuel in Hfuel. fold R1 in Hfuel.
  unfold ensureHelper. rewrite Hinj. fold R1.
  destruct k as [|k].
  - cbn [helperCandidate] in *. by rewrite Hkf.
  - pose proof (Hlt 0 ltac:(lia)) as H0. cbn [helperCandidate] in H0. rewrite H0.
    rewrite (firstFreeHelper_least fuel _ 1 (S k)); [done | lia | lia | done |].
    intros j Hj. specialize (Hlt j). destruct j; [lia|]. apply Hlt. lia.
Qed.

Lemma takenAbove_false (R : Reserved) (t : Scope) (n : string) :
  takenAbove R t n = false ->
  reservedHas R t n = false /\ hasBinding t n = false /\ hasGlobal t n = false.
Proof.
  destruct t; cbn [takenAbove];
    destruct (reservedHas _ _ n); try done;
    destruct (hasBinding _ n); try done;
    destruct (hasGlobal _ n); done.
Qed.

(** *** The helper's declaration *)

(** A visitor does not float a node that is no call, or not pure. *)
Lemma visitCallExpression_impure (fuel : nat) (st : RunState) (p : NodePath) (scope : Scope) :
  isCallExpression (node p) = false \/ isPureEnoughInit (Some (node p)) = false ->
  exists o, visitCallExpression fuel st p scope = Some (o, st) /\ forall h, o <> Floated h.
Proof.
  intros H. unfold visitCallExpression.
  destruct (callIsCandidate st p) eqn:Ec; cbn [negb]; [|by exists Skipped].
  destruct H as [H|H].
  - unfold callIsCandidate in Ec. by destruct (node p).
  - rewrite H. by exists Untouched.
Qed.

Lemma visitVariableDeclarator_impure (fuel : nat) (st : RunState) (p : NodePath) (scope : Scope) :
  isVariableDeclarator (node p) = false \/ isPureEnoughDecl p = false ->
  exists o, visitVariableDeclarator fuel st p scope = Some (o, st) /\ forall h, o <> Floated h.
Proof.
  intros H. unfold visitVariableDeclarator.
  destruct (node p) as [| | | | | | | | | | | | | | | | | | | | | | |m i init| | |] eqn:En;
    try (by exists Skipped).
  destruct i; try (by exists Skipped). destruct init; try (by exists Skipped).
  destruct (declIsCandidate p); cbn [negb]; [|by exists Skipped].
  destruct H as [H|H]; [done|]. rewrite H. by exists Untouched.
Qed.

Section HelperPaths.
Variable assignmentExpression : string -> Node -> Node -> Node.

Lemma helper_paths (helperName : string) (anc : list Node) (p : NodePath) :
  In p (descend anc (helperDeclaration assignmentExpression helperName)) ->
  In (assignmentExpression "=" (Identifier "get") (ArrowFunctionExpression [] (Identifier "v")))
     (node p :: ancestors p) \/
  ((isCallExpression (node p) = false \/ isPureEnoughInit (Some (node p)) = false) /\
   (isVariableDeclarator (node p) = false \/ isPureEnoughDecl p = false)).
Proof.
  unfold helperDeclaration. cbn [descend flat_map app].
  set (A := assignmentExpression _ _ _).
  intros H.
  repeat match goal with
    | H : In _ [] |- _ => destruct H
    | H : In _ (_ ++ _) |- _ => apply in_app_or in H as [H|H]
    | H : In _ (descend _ A) |- _ =>
        left; right; apply (descend_ancestors _ _ _ H); by left
    | H : In _ (MkPath A _ _ :: _) |- _ => destruct H as [<-|H]; [left; by left|]
    | H : In _ (_ :: _) |- _ =>
        destruct H as [<-|H]; [right; split; (by left) || (by right)|]
    end.
Qed.

End HelperPaths.

(** *** Copies and parts *)

Lemma isReferenced_cloneNode (n : Node) (k : Key) :
  isReferenced (cloneNode n) k = isReferenced n k.
Proof. by destruct n. Qed.

Lemma isReferenced_generatedAdd (n : Node) (k : Key) :
  isReferenced (generatedAdd n) k = isReferenced n k.
Proof. by destruct n. Qed.

Lemma isIdentifierNamed_cloneNode (n : Node) (s : string) :
  isIdentifierNamed (cloneNode n) s = isIdentifierNamed n s.
Proof. by destruct n. Qed.

Lemma observe_parent (c : Node) (k : Key) (n n' : Node) (anc anc' : list Node) :
  isReferenced n k = isReferenced n' k ->
  observe (MkPath c k (n :: anc)) = observe (MkPath c k (n' :: anc')).
Proof.
  intros H. unfold observe, referencedName, frameSensitiveVisit, isReferencedIdentifier.
  cbn [node pkey ancestors parentNode head]. by rewrite H.
Qed.

Lemma observe_cloneNode (c : Node) (k : Key) (anc : list Node) :
  observe (MkPath (cloneNode c) k anc) = observe (MkPath c k anc).
Proof.
  unfold observe, referencedName, frameSensitiveVisit, isReferencedIdentifier.
  cbn [node pkey ancestors]. destruct c; try reflexivity.
  cbn [cloneNode]. by rewrite !isIdentifierNamed_cloneNode.
Qed.

Lemma map_flat_map {A B C : Type} (f : B -> C) (g : A -> list B) (l : list A) :
  map f (flat_map g l) = flat_map (fun x => map f (g x)) l.
Proof. induction l as [|a l IH]; simpl; [done|]. by rewrite map_app, IH. Qed.

Lemma flat_map_ext_In {A B : Type} (f g : A -> list B) (l : list A) :
  (forall x, In x l -> f x = g x) -> flat_map f l = flat_map g l.
Proof.
  induction l as [|a l IH]; simpl; [done|]. intros H.
  rewrite (H a) by (by left). f_equal. apply IH. intros x Hx. apply H. by right.
Qed.

(** What the collectors read in a copy, wherever it is placed, is what
    they read in the original. *)
Lemma observe_descend_cloneNode (n : Node) : forall anc anc',
  map observe (descend anc (cloneNode n)) = map observe (descend anc' n).
Proof.
  induction n as [n IH] using Node_children_ind. intros anc anc'.
  rewrite (descend_children anc (cloneNode n)), (descend_children anc' n).
  rewrite children_cloneNode, !map_flat_map, flat_map_concat_map, map_map,
    <- flat_map_concat_map.
  apply flat_map_ext_In. intros [k c] Hin. cbn [fst snd map].
  rewrite (IH k c Hin (cloneNode n :: anc) (n :: anc')). f_equal.
  rewrite observe_cloneNode. apply observe_parent, isReferenced_cloneNode.
Qed.

Lemma observe_descend_generatedAdd (n : Node) (anc anc' : list Node) :
  map observe (descend anc (generatedAdd (cloneNode n))) = map observe (descend anc' n).
Proof.
  rewrite (descend_children anc (generatedAdd (cloneNode n))), (descend_children anc' n).
  rewrite children_generatedAdd, children_cloneNode, !map_flat_map, flat_map_concat_map,
    map_map, <- flat_map_concat_map.
  apply flat_map_ext_In. intros [k c] Hin. cbn [fst snd map].
  rewrite (observe_descend_cloneNode c (generatedAdd (cloneNode n) :: anc) (n :: anc')).
  f_equal. rewrite observe_cloneNode. apply observe_parent.
  by rewrite isReferenced_generatedAdd, isReferenced_cloneNode.
Qed.

Lemma freeVarsVisit_referencedName (names : list string) (p : NodePath) :
  freeVarsVisit names p =
  match referencedName p with Some x => Set_add names x | None => names end.
Proof.
  unfold freeVarsVisit, referencedName.
  destruct (isReferencedIdentifier p); cbn [negb]; [|done]. by destruct (node p).
Qed.

Lemma freeVars_fold_observe (l l' : list NodePath) (names : list string) :
  map observe l = map observe l' ->
  fold_left freeVarsVisit l names = fold_left freeVarsVisit l' names.
Proof.
  revert l' names. induction l as [|p l IH]; intros [|p' l'] names H; try done.
  cbn in H. inversion H as [[Hname Hframe Hrest]]. cbn [fold_left].
  rewrite !freeVarsVisit_referencedName, Hname. by apply IH.
Qed.

Lemma existsb_frame_observe (l l' : list NodePath) :
  map observe l = map observe l' ->
  existsb frameSensitiveVisit l = existsb frameSensitiveVisit l'.
Proof.
  revert l'. induction l as [|p l IH]; intros [|p' l'] H; try done.
  cbn in H. inversion H as [[Hname Hframe Hrest]]. cbn [existsb].
  rewrite Hframe. f_equal. by apply IH.
Qed.

Lemma Inside_trans (anc : list Node) (n : Node) (q r : NodePath) :
  Inside anc n q -> Inside (ancestors q) (node q) r -> Inside anc n r.
Proof.
  induction 1 as [anc n k c Hin | anc n k c q Hin Hq IH]; intros Hr.
  - by apply (Inside_deeper anc n k c).
  - apply (Inside_deeper anc n k c); [done|]. by apply IH.
Qed.

Lemma freeVarsOfNode_part (whole part : NodePath) :
  Inside (ancestors whole) (node whole) part ->
  incl (freeVarsOfNode part) (freeVarsOfNode whole).
Proof.
  intros Hpart x Hx. apply freeVarsOfNode_In in Hx as (p & Hp & Hid & Href).
  apply freeVarsOfNode_In. exists p. split; [|done].
  by apply (Inside_trans _ _ part).
Qed.

(** *** Initialisers without parts *)

Lemma descend_leaf (anc : list Node) (n : Node) : children n = [] -> descend anc n = [].
Proof. intros H. by rewrite descend_children, H. Qed.

Lemma leaf_pure (n : Node) : children n = [] -> exprContainsNullaryCall n = false.
Proof.
  intros H. unfold exprContainsNullaryCall. rewrite walk_children, H.
  by destruct n.
Qed.

(** A declarator whose initialiser has no children: the checks of the
    visitor up to the resolver. *)
Lemma leaf_initialiser (path : NodePath) (m : bool) (i init : Node) :
  node path = VariableDeclarator m i (Some init) -> children init = [] ->
  isPureEnoughDecl path = true /\ freeVarsOfDecl path = [].
Proof.
  intros Hnode Hleaf. unfold isPureEnoughDecl, freeVarsOfDecl.
  rewrite (getChild_init path m i init Hnode).
  unfold isPureEnoughInit, containsFrameSensitiveThings, freeVarsOfNode, traverse.
  cbn [node ancestors]. by rewrite (leaf_pure init Hleaf), descend_leaf.
Qed.

Lemma program_not_enclosing (scope : Scope) :
  uidsDistinct scope -> scopeIsProgram (enclosingFunctionScope scope) = false ->
  sameScope (getProgramParent scope) (enclosingFunctionScope scope) = false.
Proof.
  intros Hnd Hf. destruct (sameScope _ _) eqn:E; [|done].
  apply (sameScope_eq scope) in E;
    [|done|apply getProgramParent_chain|apply enclosingFunctionScope_chain].
  by rewrite <- E, getProgramParent_program in Hf.
Qed.

(** *** Creating the set of a scope *)

(** A name found in a set that [getReserved] has just created is an own
    binding of the scope. *)
Lemma reservedHas_created (R : Reserved) (u s s' : Scope) (n : string) :
  uidsDistinct u -> In s (chain u) -> In s' (chain u) ->
  reservedHas (getReserved R s).2 s' n = true ->
  reservedHas R s' n = true \/ hasOwnBinding s' n = true.
Proof.
  intros Hnd Hs Hs'. unfold getReserved, reservedHas at 1.
  destruct (R !! uid (data s)) as [set|] eqn:Es; cbn [snd].
  - intros H. left. by unfold reservedHas.
  - destruct (decide (uid (data s') = uid (data s))) as [E|E].
    + assert (s' = s) as -> by (by apply (NoDup_map_eq (fun x => uid (data x)) (chain u))).
      rewrite lookup_insert_eq, bool_decide_eq_true. intros H. right.
      unfold hasOwnBinding. apply bool_decide_eq_true. by apply elem_of_dom.
    + rewrite lookup_insert_ne by done. intros H. left. by unfold reservedHas.
Qed.

Lemma Collides_getReserved (R : Reserved) (s t u : Scope) (n : string) :
  uidsDistinct u -> In t (chain u) -> In s (chain u) ->
  Collides (getReserved R s).2 t u n <-> Collides R t u n.
Proof.
  intros Hnd Ht Hs. unfold Collides. split.
  - intros [(s' & Hs' & H) | (s' & Hs' & H)].
    + left. exists s'. split; [done|].
      destruct H as [H|[H|H]]; [auto | auto |].
      apply (reservedHas_created R u s s' n) in H as [H|H]; auto.
      by apply (chain_incl u t).
    + right. exists s'. split; [done|].
      destruct H as [H|H]; [auto|].
      apply (reservedHas_created R u s s' n) in H as [H|H]; auto.
      by apply (scopesBelow_chain t).
  - intros [(s' & Hs' & H) | (s' & Hs' & H)].
    + left. exists s'. split; [done|].
      destruct H as [H|[H|H]]; auto using reservedHas_getReserved.
    + right. exists s'. split; [done|].
      destruct H as [H|H]; auto using reservedHas_getReserved.
Qed.

Lemma taken_getReserved (R : Reserved) (s t u : Scope) (n : string) :
  uidsDistinct u -> In t (chain u) -> In s (chain u) ->
  taken (getReserved R s).2 t u n = taken R t u n.
Proof.
  intros Hnd Ht Hs. apply eq_true_iff_eq.
  by rewrite !taken_Collides, Collides_getReserved.
Qed.

Lemma firstFree_ext (fuel : nat) (tk tk' : string -> bool) (base : string) (i : nat) :
  (forall n, tk n = tk' n) -> firstFree fuel tk base i = firstFree fuel tk' base i.
Proof.
  intros H. revert i. induction fuel as [|fuel IH]; intros i; [done|].
  cbn [firstFree]. rewrite H. destruct (tk' _); [apply IH | done].
Qed.

(** *** Constant producers *)

Lemma run_constant {World Value Exn : Type} (p : Producer World Value Exn)
    (c : Completion Value Exn) (steps : list (Step World)) :
  (forall w, p w = (c, w)) ->
  forall get w,
    (get = GetInitial \/ exists v, get = GetCached v /\ c = Normal v) ->
    (run p steps get w).1 = (callEachTime p steps w).1 /\
    (run p steps get w).2.2 = (callEachTime p steps w).2.
Proof.
  intros Hp. induction steps as [|[|f] steps IH]; intros get w Hget; [done| |].
  - cbn [run callEachTime]. unfold accessor, callGet. rewrite Hp.
    destruct Hget as [->|(v & -> & ->)].
    + destruct c as [v|e].
      * destruct (IH (GetCached v) w) as [H1 H2]; [right; eauto|].
        destruct (run p steps (GetCached v) w) as [cs fin].
        destruct (callEachTime p steps w) as [cs' fin'].
        cbn in *. by subst.
      * destruct (IH GetInitial w) as [H1 H2]; [by left|].
        destruct (run p steps GetInitial w) as [cs fin].
        destruct (callEachTime p steps w) as [cs' fin'].
        cbn in *. by subst.
    + destruct (IH (GetCached v) w) as [H1 H2]; [right; eauto|].
      destruct (run p steps (GetCached v) w) as [cs fin].
      destruct (callEachTime p steps w) as [cs' fin'].
      cbn in *. by subst.
  - cbn [run callEachTime]. by apply IH.
Qed.

(** *** Parameters of the same name *)

Lemma scopesBelow_other (t u s : Scope) :
  In s (scopesBelow t u) -> sameScope s t = false.
Proof.
  induction u as [d|d b p IH]; cbn [scopesBelow].
  - destruct (sameScope (ProgramScope d) t) eqn:E; [done|]. by intros [<-|[]].
  - destruct (sameScope (NestedScope d b p) t) eqn:E; [done|]. intros [<-|H]; auto.
Qed.

Lemma isParamOf_function (f : Scope) (name : string) :
  isParamOf f name = true -> scopeIsFunction f = true.
Proof.
  unfold isParamOf. destruct (scopeIsFunction f) eqn:E; [done|].
  by rewrite scopeParams_function.
Qed.

(** *** Frame-sensitive roots and kept bindings *)

Lemma callIsCandidate_call (st : RunState) (path : NodePath) :
  callIsCandidate st path = true -> isCallExpression (node path) = true.
Proof. unfold callIsCandidate. by destruct (node path). Qed.

Lemma frameSensitiveVisit_call (p : NodePath) :
  isCallExpression (node p) = true -> frameSensitiveVisit p = false.
Proof. unfold frameSensitiveVisit. by destruct (node p). Qed.

Lemma Within_frame_free (root : NodePath) :
  frameSensitiveVisit root = false -> containsFrameSensitiveThings root = false ->
  forall p, Within root p -> frameSensitiveVisit p = false.
Proof.
  intros Hroot Hin p [->|Hp]; [done|].
  destruct (frameSensitiveVisit p) eqn:E; [|done].
  assert (containsFrameSensitiveThings root = true); [|congruence].
  apply containsFrameSensitiveThings_iff. eauto.
Qed.

(** An initialiser that is itself a frame-sensitive reference has no free
    variables and is no literal. *)
Lemma frameSensitive_root (init : Node) (k : Key) (anc : list Node) :
  frameSensitiveVisit (MkPath init k anc) = true ->
  freeVarsOfNode (MkPath init k anc) = [] /\ isLiteral init = false.
Proof.
  unfold frameSensitiveVisit, freeVarsOfNode, traverse. cbn [node ancestors].
  destruct init as [x| | | | | | |m pr| | | | | | | | | | | | | | | | | | |]; try done.
  cbn [isIdentifierNamed]. intros [Hm Hpr]%andb_true_iff.
  destruct m; try done. by destruct pr.
Qed.

Lemma getBinding_absent (t : Scope) (n : string) :
  (forall s, In s (chain t) -> hasOwnBinding s n = false) -> getBinding t n = None.
Proof.
  intros H. destruct (getBinding t n) as [[b o]|] eqn:E; [|done].
  apply getBinding_owner in E as [Ho Hb].
  specialize (H o Ho). unfold hasOwnBinding in H.
  apply bool_decide_eq_false in H. destruct H. by rewrite Hb.
Qed.

Lemma getBinding_unique (start t o : Scope) (n : string) (b : Binding) :
  unshadowed start -> In t (chain start) -> In o (chain t) ->
  bindings (data o) !! n = Some b ->
  getBinding t n = Some (b, o).
Proof.
  intros [Huniq _] Ht Ho Hb.
  assert (Hown : hasOwnBinding o n = true).
  { unfold hasOwnBinding. apply bool_decide_eq_true. by rewrite Hb. }
  destruct (getBinding t n) as [[b' o']|] eqn:E.
  - apply getBinding_owner in E as [Ho' Hb'].
    assert (o' = o) as ->.
    { apply (Huniq n); [exact (chain_trans start t o' Ht Ho')
                       | exact (chain_trans start t o Ht Ho) | | done].
      unfold hasOwnBinding. apply bool_decide_eq_true. by rewrite Hb'. }
    congruence.
  - by rewrite (getBinding_None t n E o Ho) in Hown.
Qed.

(** Without shadowing, a name that passed the test of the loop denotes at
    the wider scope the binding it denotes at the use-site. *)
Lemma nameVisibleIn_same_binding (start t : Scope) (n : string) :
  paramsBound start = true -> uidsDistinct start -> unshadowed start ->
  In t (chain start) ->
  nameVisibleIn start t n = true ->
  getBinding t n = getBinding start n.
Proof.
  intros Hwf Hnd Hun Ht Hvis.
  destruct (getBinding start n) as [[b o]|] eqn:Eb.
  - pose proof (getBinding_owner start n b o Eb) as [Ho Hb].
    assert (Hown : hasOwnBinding o n = true).
    { unfold hasOwnBinding. apply bool_decide_eq_true. by rewrite Hb. }
    assert (Hng : hasGlobal t n = false).
    { destruct (hasGlobal t n) eqn:Eg; [|done].
      apply hasGlobal_chain in Eg as (s & Hs & Hg).
      assert (hasGlobal start n = true).
      { apply hasGlobal_chain. exists s. split; [|done]. exact (chain_trans start t s Ht Hs). }
      destruct Hun as [_ Hglob]. by rewrite (Hglob n o Ho Hown) in H. }
    unfold nameVisibleIn in Hvis. rewrite Eb, Hng in Hvis.
    destruct (visibleFrom t o) eqn:Ev.
    + apply (getBinding_unique start t o n b); [done..| |done].
      by apply (visibleFrom_owner start).
    + cbn [negb andb] in Hvis. rewrite andb_false_r in Hvis.
      destruct (scopeIsFunction t) eqn:Ef; [|done].
      destruct (isParamOf t n) eqn:Ep; [|done].
      apply (isParamOf_bound start) in Ep; [|done..].
      destruct Hun as [Huniq _].
      assert (t = o) as -> by (by apply (Huniq n)).
      rewrite visibleFrom_chain in Ev.
      assert (existsb (fun s' => sameScope s' o) (chain o) = true); [|congruence].
      apply existsb_exists. exists o. split; [apply chain_self | apply sameScope_refl].
  - apply getBinding_absent. intros s Hs.
    apply (getBinding_None start n Eb). exact (chain_trans start t s Ht Hs).
Qed.

Lemma outermostScopeWith_same_bindings (names : list string) (start target : Scope) :
  paramsBound start = true -> uidsDistinct start -> unshadowed start ->
  outermostScopeWith names start = Some target ->
  sameScope target (enclosingFunctionScope start) = false ->
  forall n, In n names -> getBinding target n = getBinding start n.
Proof.
  intros Hwf Hnd Hun Hout Hsame n Hn.
  destruct (outermostScopeWith_accepted names start target Hout Hsame)
    as [-> | [Ht Hacc]]; [done|].
  unfold canHoistToParent in Hacc. rewrite forallb_forall in Hacc.
  by apply nameVisibleIn_same_binding; [..|apply Hacc].
Qed.

(* ===================================================================== *)
(** ** 14. The claims of the specification *)
(* ===================================================================== *)

(** C1.  The scope resolver does what section 4.3 of the specification
    says.  For every use-site and every set of free variables that are
    all resolvable from the use-site, [outermostScopeWith] returns
    [resolveSpec]: the program scope when the set is empty; otherwise it
    starts at the nearest enclosing function scope (or the program scope)
    and moves to the next enclosing function or program scope as long as
    every free variable passes one of the three tests (owning scope of the
    binding seen from the use-site is the wider scope or above it, or the
    name is a parameter of the wider function, or the wider scope sees the
    name as global), returning the last scope accepted.  The scopes are
    those of the host: a plain-identifier parameter is an own binding of
    its function's scope ([paramsBound]). *)
Theorem C1_resolver_follows_specification (freeVars : list string) (useSite : Scope) :
  paramsBound useSite = true ->
  (forall n, In n freeVars -> Resolvable useSite n) ->
  outermostScopeWith freeVars useSite = Some (resolveSpec freeVars useSite) /\
  (freeVars = [] ->
   outermostScopeWith freeVars useSite = Some (getProgramParent useSite)).
Proof.
  intros Hwf Hres. split.
  - by apply outermostScopeWith_resolveSpec.
  - by intros ->.
Qed.

(** The resolver on test_data/3: the free variables of [add(x)(y)], seen
    from the function of [z], resolve to the function of [y]. *)
Lemma C1_witness :
  paramsBound (sampleZScope BHoisted ∅) = true /\
  outermostScopeWith ["add"; "x"; "y"] (sampleZScope BHoisted ∅)
    = Some (resolveSpec ["add"; "x"; "y"] (sampleZScope BHoisted ∅)) /\
  resolveSpec ["add"; "x"; "y"] (sampleZScope BHoisted ∅) = sampleYScope BHoisted.
Proof.
  split; [by vm_compute|]. split; [|by vm_compute].
  apply C1_resolver_follows_specification; [by vm_compute|].
  intros n Hn. apply foundOnChain_Resolvable.
  destruct Hn as [<-|[<-|[<-|[]]]]; by vm_compute.
Defined.

(** C2 (as the code has it).  The runtime helper memoises the first
    value its producer returns, for a producer that returns and does not
    invoke its own accessor.  The producers are all functions the helper
    can be given, those whose body invokes the accessor included; the
    executions are those [reentrantLogging p] records.

    First part: for every producer [p] that does not invoke its own
    accessor, every finite sequence of steps (invocations of the accessor
    that [floatedBinding(p)] returned, among other code) and every initial
    world, the run has a result.  When [p] moreover returns normally
    whenever it is called, [p] is executed at most once, exactly once
    when the accessor is invoked at least once, and every invocation
    returns the value of that one execution, the call of [p] in the world
    of the first invocation.  When its calls may throw: while they throw,
    every invocation executes [p] again and ends with its exception, and
    the accessor stays pending; once a call returned a value, every later
    invocation returns that value and [p] is not executed again.

    Second part: for every producer whatsoever and every run that has a
    result, when some invocation made by a step returned a value, the
    accessor holds that value in the end; and whenever the accessor holds
    a value [v] in the end, every invocation of any further steps returns
    [v] and [p] is not executed again. *)
Theorem C2_helper_memoizes_first_value {World Value Exn : Type} :
  (forall (p : ReentrantProducer World Value Exn) (steps : list (Step World))
          (w0 : World) (depth : nat),
     neverCallsAccessor p -> 1 <= depth ->
     exists results get w executions,
       reentrantRun depth (reentrantLogging p) (map liftStep steps) GetInitial (w0, [])
         = Some (results, (get, (w, executions))) /\
       (endsNormally p ->
        length executions <= 1 /\
        (1 <= invocations steps -> length executions = 1) /\
        (invocations steps = 0 -> length executions = 0) /\
        length results = invocations steps /\
        (forall pre post,
           steps = pre ++ Invoke :: post -> existsb isInvoke pre = false ->
           exists v w1, p (others pre w0) = Ends (Normal v) w1 /\
                        Forall (fun r => r = Normal v) results)) /\
       ((exists es,
           results = map Throw es /\ get = GetInitial /\ executions = map Throw es) \/
        (exists es v k,
           results = map Throw es ++ repeat (Normal v) (S k) /\ get = GetCached v /\
           executions = map Throw es ++ [Normal v]))) /\
  (forall (p : ReentrantProducer World Value Exn) (steps : list (Step World))
          (w0 : World) (depth : nat) results get w executions,
     reentrantRun depth (reentrantLogging p) (map liftStep steps) GetInitial (w0, [])
       = Some (results, (get, (w, executions))) ->
     (forall v, In (Normal v) results -> get = GetCached v) /\
     (forall v more,
        get = GetCached v ->
        reentrantRun depth (reentrantLogging p) (map liftStep (steps ++ more))
          GetInitial (w0, [])
        = Some (results ++ repeat (Normal v) (invocations more),
                (GetCached v, (others more w, executions))))).
Proof.
  split.
  - intros p steps w0 [|d] Hnever Hd; [lia|].
    destruct (neverCallsAccessor_direct p Hnever) as [q Hq].
    rewrite (reentrantRun_direct d _ (logging q)) by (by apply reentrantLogging_direct).
    destruct (run (logging q) (map liftStep steps) GetInitial (w0, []))
      as [results [get [w executions]]] eqn:Er.
    exists results, get, w, executions. split; [done|]. split.
    + intros Hp.
      assert (Hn : returnsNormally q).
      { intros u. specialize (Hp u). rewrite Hq in Hp. unfold direct in Hp.
        destruct (q u) as [[v|e] u']; [by exists v|done]. }
      pose proof (run_logging_first q steps w0 Hn) as H. cbv zeta in H.
      rewrite Er in H. cbn [fst snd] in H.
      destruct H as (H1 & H2 & H3 & H4 & H5). repeat split; try done.
      intros pre post Hs Hpre. destruct (H5 pre post Hs Hpre) as (v & Hv & Hall).
      rewrite Hq. unfold direct.
      destruct (q (others pre w0)) as [c w1]. cbn [fst] in Hv. subst c.
      by exists v, w1.
    + pose proof (run_logging q steps w0 []) as H. cbv zeta in H.
      rewrite Er in H. exact H.
  - intros p steps w0 depth results get w executions Hrun. split.
    + intros v. by apply (reentrantRun_value _ _ _ _ _ _ _ _ _ Hrun).
    + intros v more ->. rewrite map_app, reentrantRun_app, Hrun.
      rewrite reentrantRun_cached, others_lift, invocations_lift. done.
Qed.

(** A producer that reads and increments the world, invoked three times
    with other code in between: one execution, three times the value
    read at the first invocation.  And [selfInvoking], which is executed
    twice by the first invocation, which returns 1: the two invocations
    after it return 1 and execute nothing. *)
Lemma C2_witness :
  let p : ReentrantProducer nat nat Empty_set := fun w => Ends (Normal w) (S w) in
  let steps := [Other (Nat.add 5); Invoke; Other (Nat.add 7); Invoke; Invoke] in
  (reentrantRun 1 (reentrantLogging p) (map liftStep steps) GetInitial (0, [])
     = Some ([Normal 5; Normal 5; Normal 5], (GetCached 5, (13, [Normal 5]))) /\
   exists results get w executions,
     reentrantRun 1 (reentrantLogging p) (map liftStep steps) GetInitial (0, [])
       = Some (results, (get, (w, executions))) /\
     length executions = 1 /\
     exists v w1, p (others [Other (Nat.add 5)] 0) = Ends (Normal v) w1 /\
                  Forall (fun r => r = Normal v) results) /\
  let more : list (Step nat) := [Invoke; Invoke] in
  reentrantRun 2 (reentrantLogging selfInvoking)
    (map liftStep ([Invoke] ++ more)) GetInitial (0, [])
  = Some ([Normal 1] ++ repeat (Normal 1) (invocations more),
          (GetCached 1, (others more 1, [Normal 0; Normal 1]))).
Proof.
  cbv zeta. split; [split; [reflexivity|]|].
  - destruct (proj1 C2_helper_memoizes_first_value
                (fun w => Ends (Normal w) (S w) : Course nat nat Empty_set)
                [Other (Nat.add 5); Invoke; Other (Nat.add 7); Invoke; Invoke] 0 1
                (fun w => eq_refl) (le_n 1))
      as (results & get & w & executions & Hrun & Hnormal & _).
    exists results, get, w, executions. split; [exact Hrun|].
    destruct (Hnormal (fun w => I)) as (_ & Hone & _ & _ & Hfirst).
    split; [apply Hone; vm_compute; lia|].
    apply (Hfirst [Other (Nat.add 5)] [Other (Nat.add 7); Invoke; Invoke]); reflexivity.
  - apply (proj2 (proj2 C2_helper_memoizes_first_value selfInvoking [Invoke] 0 2
                    [Normal 1] (GetCached 1) 1 [Normal 0; Normal 1] eq_refl)
             1 [Invoke; Invoke] eq_refl).
Defined.

(** The claim fails for a producer that throws, and for a producer that
    invokes its own accessor.  The first producer below throws when the
    world is 0 and moves it to 1, and returns the world otherwise.
    Invoked three times from world 0, the accessor ends the first
    invocation with the exception, and the producer is executed a second
    time; the second and third invocation return the value of that
    second execution.  The second producer, [selfInvoking], returns
    normally whenever it is called.  Invoked twice from world 0, it is
    executed twice, one execution inside the other: the execution that
    began first invokes the accessor, which executes the producer again
    and returns 0 to it, and itself returns 1. *)
Lemma C2_counterexample :
  (let p : ReentrantProducer nat nat unit :=
     fun w => if Nat.eqb w 0 then Ends (Throw tt) 1 else Ends (Normal w) w in
   neverCallsAccessor p /\
   reentrantRun 1 (reentrantLogging p) (map liftStep [Invoke; Invoke; Invoke])
     GetInitial (0, [])
   = Some ([Throw tt; Normal 1; Normal 1],
           (GetCached 1, (1, [Throw tt; Normal 1])))) /\
  (endsNormally selfInvoking /\
   reentrantRun 2 (reentrantLogging selfInvoking) (map liftStep [Invoke; Invoke])
     GetInitial (0, [])
   = Some ([Normal 1; Normal 1], (GetCached 1, (1, [Normal 0; Normal 1])))).
Proof.
  cbv zeta. split; split; try reflexivity.
  - intros w. by destruct w.
  - intros w. unfold selfInvoking. destruct (Nat.eqb w 0); [|done].
    intros [v|e] w'; exact I.
Qed.

(** C3.  The purity analysis rejects every subtree that contains a call
    expression without arguments, at whatever depth: [isPureEnoughInit]
    answers no, and so does [isPureEnoughDecl] for an initialiser.
    Consequently, whenever a visitor floats, the floated expression is not
    a nullary call and no nullary call occurs in the copy it makes. *)
Theorem C3_nullary_calls_never_float :
  (forall n s,
     Subnode s n -> isNullaryCall s = true -> isPureEnoughInit (Some n) = false) /\
  (forall declPath m i init s,
     node declPath = VariableDeclarator m i (Some init) ->
     Subnode s init -> isNullaryCall s = true -> isPureEnoughDecl declPath = false) /\
  (forall fuel st path scope h st',
     visitCallExpression fuel st path scope = Some (Floated h, st') ->
     isNullaryCall (node path) = false /\
     forall s, Subnode s (hClone h) -> isNullaryCall s = false) /\
  (forall fuel st path scope h st',
     visitVariableDeclarator fuel st path scope = Some (Floated h, st') ->
     (forall m i init,
        node path = VariableDeclarator m i (Some init) -> isNullaryCall init = false) /\
     forall s, Subnode s (hClone h) -> isNullaryCall s = false).
Proof.
  assert (Hinit : forall n s, Subnode s n -> isNullaryCall s = true ->
                              isPureEnoughInit (Some n) = false).
  { intros n s Hs Hnull. unfold isPureEnoughInit.
    assert (exprContainsNullaryCall n = true) as ->; [|done].
    apply exprContainsNullaryCall_iff. eauto. }
  assert (Hpure : forall n, isPureEnoughInit (Some n) = true ->
                            forall s, Subnode s n -> isNullaryCall s = false).
  { intros n Hn s Hs. destruct (isNullaryCall s) eqn:E; [|done].
    rewrite (Hinit n s Hs E) in Hn. done. }
  assert (Hcopy : forall n, isPureEnoughInit (Some n) = true ->
                            forall s, Subnode s (generatedAdd (cloneNode n)) ->
                                      isNullaryCall s = false).
  { intros n Hn. apply exprContainsNullaryCall_false.
    rewrite exprContainsNullaryCall_copy. unfold isPureEnoughInit in Hn.
    by destruct (exprContainsNullaryCall n). }
  split; [exact Hinit|]. split; [|split].
  - intros declPath m i init s Hnode Hs Hnull. unfold isPureEnoughDecl.
    rewrite (getChild_init declPath m i init Hnode). cbn [node].
    by rewrite (Hinit init s Hs Hnull).
  - intros fuel st path scope h st' H.
    apply visitCallExpression_Floated in H
      as (_ & Hp & _ & t & name & R & _ & _ & _ & _ & -> & _).
    split; [apply (Hpure _ Hp); constructor | apply (Hcopy _ Hp)].
  - intros fuel st path scope h st' H.
    apply visitVariableDeclarator_Floated in H
      as (m & x & init & b & o & t & name & R & Hnode & _ & Hp & _ & _ & _ & _ & _ & _ & -> & _).
    unfold isPureEnoughDecl in Hp.
    rewrite (getChild_init path m _ init Hnode) in Hp. cbn [node] in Hp.
    destruct (isPureEnoughInit (Some init)) eqn:Ei; [|done].
    split; [|apply (Hcopy _ Ei)].
    intros m' i' init' Hnode'. rewrite Hnode in Hnode'. inversion Hnode'; subst.
    apply (Hpure _ Ei). constructor.
Qed.

(** [g(a, h())] holds the nullary call [h()] and is rejected. *)
Lemma C3_witness :
  isPureEnoughInit
    (Some (CallExpression false (Identifier "g")
             [Identifier "a"; CallExpression false (Identifier "h") []])) = false.
Proof.
  apply (proj1 C3_nullary_calls_never_float)
    with (s := CallExpression false (Identifier "h") []); [|reflexivity].
  apply Subnode_below
    with (k := Karguments) (c := CallExpression false (Identifier "h") []);
    [simpl; auto | constructor].
Defined.

(** C4 (where the code departs from the claim).  In the sample program
    [main(w, a)] the CallExpression visitor floats the call of [k] into
    the function of [y].  The declarator [var w = h(y)] inside the copy
    that this hoist created is then, on the path of the traversal of the
    inserted declaration, classified as a declaration candidate by the
    VariableDeclarator visitor, which analyses it and floats it as
    [w__fb]: the visitor has no test for nodes inside the helper call,
    which the CallExpression visitor has ([isInFloatedBinding]). *)
Theorem C4_copied_declarator_is_floated_again :
  exists h st1 p h2 st2,
    visitCallExpression (nameFuel (reservedNames shadowState) shadowYScope shadowZScope)
      shadowState shadowPath shadowZScope = Some (Floated h, st1) /\
    hName h = "k__fb" /\
    copiedDeclaratorPath h = Some p /\
    In p (descend (aboveHoisted h) (hDecl h)) /\
    node p = shadowDeclarator /\
    declIsCandidate p = true /\
    visitVariableDeclarator (nameFuel (reservedNames st1) shadowYScope copyCallbackScope)
      st1 p copyCallbackScope = Some (Floated h2, st2) /\
    hName h2 = "w__fb" /\
    forallb (fun q => negb (callIsCandidate st1 q))
      (descend (aboveHoisted h) (hDecl h)) = true.
Proof.
  do 5 eexists. split; [by vm_compute|]. split; [by vm_compute|].
  split; [by vm_compute|]. split; [vm_compute; tauto|].
  split; [by vm_compute|]. split; [by vm_compute|].
  split; [by vm_compute|]. split; by vm_compute.
Qed.

(** C5.  The name allocator tries [<base>__fb], [<base>__fb_1],
    [<base>__fb_2], ... ([<base>] is the sanitised base) and returns the
    first candidate that does not collide, in the sense of the
    specification, with a binding, a global or a reserved name at the
    target scope or above it, nor with an own binding or reserved name of
    a scope from the use-site up to, and excluding, the target.  The
    chosen name is the base followed by [__fb] when that does not
    collide, and otherwise the base followed by [__fb_] and the decimal
    numeral of the least [k], from 1 on, whose candidate does not
    collide.  The name is reserved at the target in the returned table.
    So the chosen name is no binding or global visible at the target and
    no own binding of a scope below it.  The search always ends:
    [nameFuel] tests suffice. *)
Theorem C5_allocator_first_free_candidate (R : Reserved) (base : string)
    (targetScope useScope : Scope) :
  let b := sanitizeBase base in
  let R1 := (getReserved R targetScope).2 in
  exists k,
    let name := fbCandidate b k in
    ((k = 0 /\ name = b +:+ "__fb") \/
     (0 < k /\ exists ds, decimalNumeral k ds /\ name = b +:+ "__fb_" +:+ ds)) /\
    (forall fuel, nameFuel R targetScope useScope <= fuel ->
       makeUniqueFbName fuel R base targetScope useScope
       = Some (name, reserve R1 targetScope name)) /\
    ~ Collides R1 targetScope useScope name /\
    (forall j, j < k -> Collides R1 targetScope useScope (fbCandidate b j)) /\
    reservedHas (reserve R1 targetScope name) targetScope name = true /\
    hasBinding targetScope name = false /\
    hasGlobal targetScope name = false /\
    (forall s, In s (scopesBelow targetScope useScope) -> hasOwnBinding s name = false).
Proof.
  intros b R1.
  destruct (makeUniqueFbName_first R base targetScope useScope) as (k & Hres & Hfree & Hbelow).
  fold b R1 in Hres, Hfree, Hbelow. exists k. cbv zeta.
  assert (Hnc : ~ Collides R1 targetScope useScope (fbCandidate b k)).
  { intros Hc. apply taken_Collides in Hc. congruence. }
  split; [apply fbCandidate_names|].
  split; [done|]. split; [done|].
  split; [intros j Hj; apply taken_Collides; auto|].
  split; [apply reservedHas_reserve, getReserved_has|].
  split; [|split].
  - destruct (hasBinding targetScope (fbCandidate b k)) eqn:E; [|done].
    destruct Hnc. left. apply hasBinding_chain in E as (s & Hs & H). eauto.
  - destruct (hasGlobal targetScope (fbCandidate b k)) eqn:E; [|done].
    destruct Hnc. left. apply hasGlobal_chain in E as (s & Hs & H). eauto.
  - intros s Hs. destruct (hasOwnBinding s (fbCandidate b k)) eqn:E; [|done].
    destruct Hnc. right. eauto.
Qed.

(** test_data/4 after two hoists of [xy] into the function of [y]: with
    [xy__fb] and [xy__fb_1] reserved there, the allocator returns
    [xy__fb_2], candidate number 2. *)
Lemma C5_witness :
  let R : Reserved := <[2 := {["y"; "xy__fb"; "xy__fb_1"]}]> (reservedNames sampleState) in
  let t := sampleYScope BHoisted in
  let R1 := (getReserved R t).2 in
  exists k,
    k = 2 /\
    fbCandidate (sanitizeBase "xy") k = "xy__fb_2" /\
    decimalNumeral k "2" /\
    makeUniqueFbName (nameFuel R t xyScope) R "xy" t xyScope
      = Some ("xy__fb_2", reserve R1 t "xy__fb_2") /\
    ~ Collides R1 t xyScope "xy__fb_2" /\
    Collides R1 t xyScope "xy__fb" /\
    Collides R1 t xyScope "xy__fb_1".
Proof.
  intros R t R1.
  destruct (C5_allocator_first_free_candidate R "xy" t xyScope)
    as (k & Hname & Hres & Hnc & Hmin & _).
  fold R1 in Hres, Hnc, Hmin.
  specialize (Hres (nameFuel R t xyScope) (le_n _)).
  assert (E : exists R', makeUniqueFbName (nameFuel R t xyScope) R "xy" t xyScope
                         = Some ("xy__fb_2", R'))
    by (eexists; vm_compute; reflexivity).
  destruct E as [R' E]. rewrite Hres in E.
  apply (f_equal (fun r => match r with Some (n, _) => n | None => "" end)) in E.
  assert (Hk : k = 2) by (apply (fbCandidate_inj (sanitizeBase "xy")); exact E).
  exists k. split; [exact Hk|]. split; [exact E|].
  rewrite E in Hres, Hnc.
  split.
  { destruct Hname as [[H0 _]|(_ & ds & Hds & Hn)]; [lia|].
    rewrite E in Hn. change "xy__fb_2" with (sanitizeBase "xy" +:+ "__fb_" +:+ "2") in Hn.
    apply String.app_inj, String.app_inj in Hn. by rewrite Hn. }
  split; [exact Hres|]. split; [exact Hnc|].
  split; [apply (Hmin 0); lia | apply (Hmin 1); lia].
Defined.

(** C6 (as the code has it).  When some free variable is not resolvable
    from the use-site, the resolver does not answer null: it answers the
    nearest enclosing function scope (or the program scope).  That is the
    scope both visitors compare the answer with, so the candidate is left
    as it is: the visitor does not float and the state of the run is
    unchanged. *)
Theorem C6_unresolvable_stays_in_place (freeVars : list string) (scope : Scope) (n : string) :
  In n freeVars -> ~ Resolvable scope n ->
  outermostScopeWith freeVars scope = Some (enclosingFunctionScope scope) /\
  (forall fuel st path,
     freeVarsOfNode path = freeVars ->
     exists o, visitCallExpression fuel st path scope = Some (o, st) /\
               forall h, o <> Floated h) /\
  (forall fuel st path,
     freeVarsOfDecl path = freeVars ->
     exists o, visitVariableDeclarator fuel st path scope = Some (o, st) /\
               forall h, o <> Floated h).
Proof.
  intros Hin Hn.
  pose proof (outermostScopeWith_unresolvable freeVars scope n Hin Hn) as Hout.
  split; [done|]. split.
  - intros fuel st path <-.
    destruct (visitCallExpression fuel st path scope) as [[o st']|] eqn:E.
    + assert (Ho : forall h, o <> Floated h).
      { intros h ->. apply visitCallExpression_Floated in E
          as (_ & _ & _ & t & name & R & Ht & Hsame & _).
        rewrite Hout in Ht. inversion Ht; subst.
        by rewrite sameScope_refl in Hsame. }
      rewrite (visitCallExpression_state _ _ _ _ _ _ E Ho). eauto.
    + exfalso. unfold visitCallExpression in E. rewrite Hout, sameScope_refl in E.
      repeat match type of E with
        | (if ?c then _ else _) = _ => destruct c
        end; done.
  - intros fuel st path <-.
    destruct (visitVariableDeclarator fuel st path scope) as [[o st']|] eqn:E.
    + assert (Ho : forall h, o <> Floated h).
      { intros h ->. apply visitVariableDeclarator_Floated in E
          as (? & ? & ? & ? & ? & t & name & R & _ & _ & _ & _ & _ & _ & Ht & Hsame & _).
        rewrite Hout in Ht. inversion Ht; subst.
        by rewrite sameScope_refl in Hsame. }
      rewrite (visitVariableDeclarator_state _ _ _ _ _ _ E Ho). eauto.
    + exfalso. unfold visitVariableDeclarator in E. rewrite Hout, sameScope_refl in E.
      repeat match type of E with
        | (if ?c then _ else _) = _ => destruct c
        | match ?c with _ => _ end = _ => destruct c
        end; done.
Qed.

(** [k(function (q) { return q; })]: the parameter [q] of the callback is
    read inside the call and is not resolvable from the function of [z]. *)
Lemma C6_witness :
  outermostScopeWith ["k"; "q"] callbackScope
    = Some (enclosingFunctionScope callbackScope) /\
  visitCallExpression 7 sampleState callbackPath callbackScope
    = Some (Untouched, sampleState).
Proof.
  assert (Hq : ~ Resolvable callbackScope "q").
  { intros H. apply foundOnChain_Resolvable in H. by vm_compute in H. }
  split.
  - apply (C6_unresolvable_stays_in_place ["k"; "q"] callbackScope "q");
      [simpl; auto | exact Hq].
  - reflexivity.
Defined.

(** The claim fails where it says that the resolver answers null: for the
    call [k(function (q) { return q; })] of the sample program the free
    variable [q] is not found on the scope chain of the use-site, and the
    resolver answers a scope, the function of [z]. *)
Lemma C6_counterexample :
  freeVarsOfNode callbackPath = ["k"; "q"] /\
  forallb (foundOnChain callbackScope) ["k"; "q"] = false /\
  outermostScopeWith (freeVarsOfNode callbackPath) callbackScope = Some callbackScope /\
  outermostScopeWith (freeVarsOfNode callbackPath) callbackScope <> None.
Proof. repeat split; by vm_compute. Qed.

(** C7 (as the code has it).  For an analysed subtree that is not itself
    a bare identifier, [freeVarsOfNode] returns, each once, exactly the
    names of the identifiers that occur in reference position in the
    subtree.  An identifier that is the non-computed property of a member
    expression, the non-computed key of an object property, or the name
    or a parameter of a function is no reference and is left out.
    Nothing else is left out: the collector does not follow bindings, so
    a name that the subtree itself binds (a parameter or variable of a
    nested function) and reads is reported too.  For a declaration the
    collector runs on the initialiser and does not exclude the declared
    name: an initialiser that reads it reports it. *)
Theorem C7_free_variables_are_the_referenced_identifiers :
  (forall path,
     isIdentifier (node path) = false ->
     (forall x, In x (freeVarsOfNode path) <->
                exists p, Within path p /\ node p = Identifier x /\
                          isReferencedIdentifier p = true) /\
     List.NoDup (freeVarsOfNode path)) /\
  (forall x o pr anc,
     isReferencedIdentifier
       (MkPath (Identifier x) Kproperty (MemberExpression o pr false :: anc)) = false) /\
  (forall x k v anc,
     isReferencedIdentifier
       (MkPath (Identifier x) Kkey (ObjectProperty k v false :: anc)) = false) /\
  (forall x key i ps b anc,
     isReferencedIdentifier
       (MkPath (Identifier x) key (FunctionExpression i ps b :: anc)) = false) /\
  (forall declPath m x init,
     node declPath = VariableDeclarator m (Identifier x) (Some init) ->
     freeVarsOfDecl declPath
     = freeVarsOfNode (MkPath init Kinit (node declPath :: ancestors declPath)) /\
     (forall p,
        Inside (node declPath :: ancestors declPath) init p ->
        node p = Identifier x -> isReferencedIdentifier p = true ->
        In x (freeVarsOfDecl declPath))).
Proof.
  split; [|split; [done|split; [done|split; [done|]]]].
  - intros path Hroot. split; [|apply freeVarsOfNode_NoDup].
    intros x. rewrite freeVarsOfNode_In. split.
    + intros (p & Hp & H). exists p. split; [by right | done].
    + intros (p & Hp & Hx & Hr). exists p. split; [|done].
      apply Within_Inside; [done | by rewrite Hx | done].
  - intros declPath m x init Hnode. unfold freeVarsOfDecl.
    rewrite (getChild_init declPath m _ init Hnode). split; [done|].
    intros p Hp Hx Hr. apply freeVarsOfNode_In. eauto.
Qed.

(** The free variables of [add(x)(y)] on test_data/3. *)
Lemma C7_witness :
  (forall x, In x (freeVarsOfNode sumPath) <->
             exists p, Within sumPath p /\ node p = Identifier x /\
                       isReferencedIdentifier p = true) /\
  freeVarsOfNode sumPath = ["add"; "x"; "y"].
Proof.
  split; [|reflexivity].
  apply (proj1 C7_free_variables_are_the_referenced_identifiers sumPath).
  reflexivity.
Defined.

(** The claim fails where it says that names bound within the subtree are
    not reported: in [k(function (q) { return q; })] the name [q] is bound
    by the callback inside the subtree, and is reported. *)
Lemma C7_counterexample :
  node callbackPath
    = CallExpression false (Identifier "k")
        [FunctionExpression None [Identifier "q"]
           (BlockStatement [ReturnStatement (Some (Identifier "q"))])] /\
  freeVarsOfNode callbackPath = ["k"; "q"].
Proof. split; reflexivity. Qed.

(** C8 (as the code has it).  The frame-sensitivity check makes no
    difference between nested ordinary functions and arrow functions: for
    a subtree that is not itself such a reference, it answers yes exactly
    when a frame-sensitive reference ([this], a referenced [arguments],
    [super], [new.target]) occurs somewhere in the subtree, under
    whatever nodes. *)
Theorem C8_frame_sensitive_anywhere (path : NodePath) :
  frameSensitiveVisit path = false ->
  (containsFrameSensitiveThings path = true <->
   exists p, Within path p /\ frameSensitiveVisit p = true) /\
  (forall p,
     Within path p -> frameSensitiveVisit p = true ->
     existsb isOrdinaryFunction (ancestorsWithin path p) = true ->
     containsFrameSensitiveThings path = true).
Proof.
  intros Hroot.
  assert (Hiff : containsFrameSensitiveThings path = true <->
                 exists p, Within path p /\ frameSensitiveVisit p = true).
  { rewrite containsFrameSensitiveThings_iff. split.
    - intros (p & Hp & H). exists p. split; [by right | done].
    - intros (p & [-> | Hp] & H); [congruence | eauto]. }
  split; [done|]. intros p Hp Hv _. apply Hiff. eauto.
Qed.

(** [k(function () { return this; })]: the receiver is only read inside
    the ordinary function, and the subtree is ineligible. *)
Lemma C8_witness :
  containsFrameSensitiveThings receiverPath = true <->
  exists p, Within receiverPath p /\ frameSensitiveVisit p = true.
Proof.
  apply (proj1 (C8_frame_sensitive_anywhere receiverPath eq_refl)).
Defined.

(** The claim fails where it says that a reference inside a nested
    ordinary function does not make the subtree ineligible: in
    [k(function () { return this; })] every frame-sensitive reference of
    the subtree lies inside the function expression, the check answers
    yes and the call is left in place, while the same call with [y] in the
    place of [this] is floated. *)
Lemma C8_counterexample :
  forallb (fun p => implb (frameSensitiveVisit p)
                      (existsb isOrdinaryFunction (ancestorsWithin receiverPath p)))
    (traverse receiverPath) = true /\
  containsFrameSensitiveThings receiverPath = true /\
  visitCallExpression 7 sampleState receiverPath callbackScope
    = Some (Untouched, sampleState) /\
  exists h st,
    visitCallExpression 7 sampleState (callbackReturningPath (Identifier "y")) callbackScope
    = Some (Floated h, st).
Proof.
  split; [by vm_compute|]. split; [by vm_compute|]. split; [by vm_compute|].
  do 2 eexists. by vm_compute.
Qed.

(** C9 (as the code has it).  For a bare call-expression candidate that
    passes the purity analysis, the scope resolution and the test that the
    target differs from the current function scope: when no free variable
    resolves, from the use-site, to a binding of kind var, let or const,
    the call is floated; when some free variable resolves to a binding of
    kind var, let or const of the current enclosing function, it is not.
    A declaration candidate whose initialiser is no bare identifier and
    that passes those checks is floated exactly when, besides, the
    declared name has a binding with at least one reference, and the
    initialiser holds an identifier in reference position or is a
    literal. *)
Theorem C9_driver_restrictions :
  (forall st path scope targetScope,
     callIsCandidate st path = true ->
     isPureEnoughInit (Some (node path)) = true ->
     containsFrameSensitiveThings path = false ->
     outermostScopeWith (freeVarsOfNode path) scope = Some targetScope ->
     sameScope targetScope (enclosingFunctionScope scope) = false ->
     ((forall n b owner,
         In n (freeVarsOfNode path) -> getBinding scope n = Some (b, owner) ->
         ~ In (bkind b) [BVar; BLet; BConst]) ->
      exists name R,
        forall fuel, nameFuel (reservedNames st) targetScope scope <= fuel ->
          visitCallExpression fuel st path scope
          = Some (Floated (buildHoist st name targetScope (node path)),
                  MkRunState R (fbHelperName st))) /\
     ((exists n b owner,
         In n (freeVarsOfNode path) /\ getBinding scope n = Some (b, owner) /\
         In (bkind b) [BVar; BLet; BConst] /\
         sameScope (enclosingFunctionScope owner) (enclosingFunctionScope scope) = true) ->
      forall fuel, visitCallExpression fuel st path scope = Some (Untouched, st))) /\
  (forall st path scope targetScope m x init,
     node path = VariableDeclarator m (Identifier x) (Some init) ->
     isIdentifier init = false ->
     declIsCandidate path = true ->
     isPureEnoughDecl path = true ->
     outermostScopeWith (freeVarsOfDecl path) scope = Some targetScope ->
     sameScope targetScope (enclosingFunctionScope scope) = false ->
     ((exists fuel h st',
         visitVariableDeclarator fuel st path scope = Some (Floated h, st')) <->
      ((exists b owner, getBinding scope x = Some (b, owner) /\ 1 <= referenceCount b) /\
       ((exists p y, Within (MkPath init Kinit (node path :: ancestors path)) p /\
                     node p = Identifier y /\ isReferencedIdentifier p = true) \/
        isLiteral init = true)))).
Proof.
  split.
  - intros st path scope t Hc Hp Hf Ht Hsame. split.
    + intros Hdep. apply dependsOnLocalVar_false in Hdep.
      destruct (makeUniqueFbName_first (reservedNames st)
                  (deriveBaseFromCall (node path)) t scope) as (k & Hres & _).
      eexists _, _. intros fuel Hfuel. unfold visitCallExpression.
      rewrite Hc, Hp, Hf, Ht, Hsame, Hdep. cbn [negb]. by rewrite (Hres fuel Hfuel).
    + intros (n & b & owner & Hn & Hb & Hk & _) fuel.
      unfold visitCallExpression.
      rewrite Hc, Hp, Hf, Ht, Hsame. cbn [negb].
      by rewrite (dependsOnLocalVar_true _ _ n b owner Hn Hb Hk).
  - intros st path scope t m x init Hnode Hroot Hc Hp Ht Hsame.
    rewrite <- (freeVarsOfDecl_nonempty path m x init Hnode Hroot). split.
    + intros (fuel & h & st' & H).
      apply visitVariableDeclarator_Floated in H
        as (m' & x' & init' & b & o & t' & name & R & Hnode' & _ & _ & Hb & Hr & Hfv & _).
      rewrite Hnode in Hnode'. inversion Hnode'; subst. eauto.
    + intros [(b & o & Hb & Hr) Hfv].
      destruct (makeUniqueFbName_first (reservedNames st) x t scope) as (k & Hres & _).
      eexists _, _, _. apply visitVariableDeclarator_Floated.
      eexists m, x, init, b, o, t, _, _.
      repeat split; try done. by apply Hres.
Qed.

(** test_data/3: [add(x)(y)] only depends on parameters and on the
    function declaration [add], and is floated.  In [function outer(a)
    { return function (b) { var a = b; return g(a); }; }] the call [g(a)]
    depends on the variable [a] of its own function, and stays.
    test_data/4: the declaration [var xy = add(x)(y)] of a variable that
    is read is floated. *)
Lemma C9_witness :
  let st := MkRunState ∅ (Some "floatedBinding") in
  (exists name R,
     visitCallExpression 9 sampleState sumPath (sampleZScope BHoisted ∅)
     = Some (Floated (buildHoist sampleState name (sampleYScope BHoisted) (node sumPath)),
             MkRunState R (fbHelperName sampleState))) /\
  visitCallExpression 9 st localVarPath localVarScope = Some (Untouched, st) /\
  (exists fuel h st',
     visitVariableDeclarator fuel sampleState xyPath xyScope = Some (Floated h, st')).
Proof.
  intros st. split; [|split].
  - destruct (proj1 C9_driver_restrictions sampleState sumPath
                (sampleZScope BHoisted ∅) (sampleYScope BHoisted)) as [Hfloat _];
      [reflexivity | reflexivity | reflexivity | reflexivity | reflexivity |].
    destruct Hfloat as (name & R & H).
    { intros n b owner Hn Hb Hk.
      destruct Hn as [<-|[<-|[<-|[]]]]; vm_compute in Hb; inversion Hb; subst;
        destruct Hk as [Hk|[Hk|[Hk|[]]]]; discriminate Hk. }
    exists name, R. apply H. vm_compute. lia.
  - destruct (proj1 C9_driver_restrictions st localVarPath localVarScope
                sameNameOuterScope) as [_ Hstay];
      [reflexivity | reflexivity | reflexivity | reflexivity | reflexivity |].
    apply Hstay.
    exists "a", (MkBinding BVar 1), localVarScope.
    split; [right; left; reflexivity|]. split; [reflexivity|].
    split; [left; reflexivity | reflexivity].
  - apply (proj2 C9_driver_restrictions sampleState xyPath xyScope (sampleYScope BHoisted)
             false "xy" addXY);
      [reflexivity | reflexivity | reflexivity | reflexivity | reflexivity | reflexivity |].
    split.
    + exists (MkBinding BVar 1), xyScope. split; [reflexivity | simpl; lia].
    + left. exists (MkPath (Identifier "y") Karguments
                      (addXY :: node xyPath :: ancestors xyPath)), "y".
      split; [|split; reflexivity].
      right. apply Inside_child. simpl. auto.
Defined.

(** The claim fails where it says that declaration candidates are
    subject to no further restriction.  The declaration
    [var xy = add(x)(y)] of a variable that is never read passes the
    listed checks and is not floated.  Neither is [var pair = [1, 2]],
    whose variable is read: the initialiser holds no identifier and is no
    literal. *)
Lemma C9_counterexample :
  (let scope := sampleZScope BHoisted (<["xy" := MkBinding BVar 0]> ∅) in
   declIsCandidate unusedPath = true /\
   isPureEnoughDecl unusedPath = true /\
   outermostScopeWith (freeVarsOfDecl unusedPath) scope = Some (sampleYScope BHoisted) /\
   sameScope (sampleYScope BHoisted) (enclosingFunctionScope scope) = false /\
   visitVariableDeclarator 9 sampleState unusedPath scope
     = Some (Untouched, sampleState)) /\
  (declIsCandidate pairPath = true /\
   isPureEnoughDecl pairPath = true /\
   outermostScopeWith (freeVarsOfDecl pairPath) pairScope
     = Some (sampleProgramScope BHoisted) /\
   sameScope (sampleProgramScope BHoisted) (enclosingFunctionScope pairScope) = false /\
   visitVariableDeclarator 9 sampleState pairPath pairScope
     = Some (Untouched, sampleState)).
Proof. cbv zeta. repeat split; by vm_compute. Qed.

(** C10.  The inserter.  An arrow function whose body is an expression
    first gets the block [{ return <expression>; }] as body, and the
    declaration is inserted into that block.  In every container (the
    program, or the body block of a function) the declaration is placed
    right after the leading run of import declarations and directives
    (expression statements that are a string literal), and at the very
    front when the container does not start with one.  Import
    declarations only occur in the program. *)
Theorem C10_insertion_point :
  (forall ps e decl,
     isBlockStatement e = false ->
     ensureArrowBlock (ArrowFunctionExpression ps e)
     = ArrowFunctionExpression ps (BlockStatement [ReturnStatement (Some e)]) /\
     insertHoisted (ArrowFunctionExpression ps e) decl
     = Some (ArrowFunctionExpression ps
               (BlockStatement [decl; ReturnStatement (Some e)]))) /\
  (forall body decl,
     insertHoisted (Program body) decl
     = Some (Program (insertAfterPrologueAndImports true body decl))) /\
  (forall ps body decl,
     insertHoisted (ArrowFunctionExpression ps (BlockStatement body)) decl
     = Some (ArrowFunctionExpression ps
               (BlockStatement (insertAfterPrologueAndImports false body decl)))) /\
  (forall i ps body decl,
     insertHoisted (FunctionExpression i ps (BlockStatement body)) decl
     = Some (FunctionExpression i ps
               (BlockStatement (insertAfterPrologueAndImports false body decl)))) /\
  (forall i ps body decl,
     insertHoisted (FunctionDeclaration i ps (BlockStatement body)) decl
     = Some (FunctionDeclaration i ps
               (BlockStatement (insertAfterPrologueAndImports false body decl)))) /\
  (forall isProg body decl,
     (isProg = false -> Forall (fun s => isImportDeclaration s = false) body) ->
     (exists pre post,
        body = pre ++ post /\
        insertAfterPrologueAndImports isProg body decl = pre ++ decl :: post /\
        Forall (fun s => isLeading s = true) pre /\
        (forall s rest, post = s :: rest -> isLeading s = false)) /\
     ((forall s rest, body = s :: rest -> isLeading s = false) ->
      insertAfterPrologueAndImports isProg body decl = decl :: body)).
Proof.
  split; [|split; [done|split; [done|split; [done|split; [done|]]]]].
  - intros ps e decl He. unfold insertHoisted. cbn [isFunction ensureArrowBlock].
    rewrite He. cbn [negb]. by split.
  - intros isProg body decl Himp.
    assert (Hanchor : forall s, In s body -> isAnchor isProg s = isLeading s).
    { intros s Hs. apply isAnchor_isLeading. intros ->.
      specialize (Himp eq_refl). rewrite Forall_forall in Himp.
      apply Himp. by apply list_elem_of_In. }
    destruct (insertAfterPrologueAndImports_split isProg body decl)
      as (pre & post & Hbody & Hins & Hpre & Hpost).
    assert (Hpre' : Forall (fun s => isLeading s = true) pre).
    { apply Forall_forall. intros s Hs. rewrite Forall_forall in Hpre.
      rewrite <- Hanchor; [by apply Hpre|].
      rewrite Hbody. apply in_or_app. left. by apply list_elem_of_In. }
    assert (Hpost' : forall s rest, post = s :: rest -> isLeading s = false).
    { intros s rest Hs. rewrite <- Hanchor; [by apply (Hpost s rest)|].
      rewrite Hbody, Hs. apply in_or_app. right. by left. }
    split; [by exists pre, post|].
    intros Hfront. rewrite Hins. destruct pre as [|s pre]; [by rewrite Hbody|].
    apply Forall_cons in Hpre' as [Hs _].
    rewrite (Hfront s (pre ++ post)) in Hs by done. done.
Qed.

(** A function body that starts with a directive: the declaration goes
    between the directive and the first ordinary statement. *)
Lemma C10_witness :
  let body := [ExpressionStatement (StringLiteral "use strict");
               ReturnStatement (Some (Identifier "x"))] in
  (exists pre post,
     body = pre ++ post /\
     insertAfterPrologueAndImports false body (Identifier "decl") = pre ++ Identifier "decl" :: post /\
     Forall (fun s => isLeading s = true) pre /\
     (forall s rest, post = s :: rest -> isLeading s = false)) /\
  insertAfterPrologueAndImports false body (Identifier "decl")
  = [ExpressionStatement (StringLiteral "use strict"); Identifier "decl";
     ReturnStatement (Some (Identifier "x"))].
Proof.
  cbv zeta. split; [|reflexivity].
  apply (proj2 (proj2 (proj2 (proj2 (proj2 C10_insertion_point)))) false).
  intros _. repeat constructor.
Defined.

(** *** Further properties *)

(** X1.  The part of single-pass idempotence that holds.  Of the nodes one
    hoist creates, the CallExpression visitor skips every call expression
    (the replacement call, the helper call and every call inside the
    copy, wherever the declaration is inserted), and the
    VariableDeclarator visitor skips the declarator of the hoisted
    declaration. *)
Theorem X1_created_calls_are_skipped (st : RunState) (R : Reserved) (fbName : string)
    (targetScope : Scope) (expr : Node) (anc : list Node) :
  let h := buildHoist st fbName targetScope expr in
  let st' := MkRunState R (fbHelperName st) in
  (forall p, In p (descend anc (hDecl h)) -> callIsCandidate st' p = false) /\
  (forall k above, callIsCandidate st' (MkPath (hCall h) k above) = false) /\
  (forall p, In p (descend anc (hDecl h)) -> parentNode p = Some (hDecl h) ->
             declIsCandidate p = false).
Proof.
  cbv zeta. unfold buildHoist. cbn [hDecl hCall generatedAdd].
  set (copy := generatedAdd (cloneNode expr)).
  set (arrow := ArrowFunctionExpression [] copy).
  set (helperCall := CallExpression false (Identifier (getHelperName st)) [arrow]).
  set (declarator := VariableDeclarator false (Identifier fbName) (Some helperCall)).
  set (decl := VariableDeclaration true "const" [declarator]).
  set (st' := MkRunState R (fbHelperName st)).
  assert (Hname : getHelperName st' = getHelperName st) by done.
  assert (Hhelper : isHelperCall (getHelperName st') helperCall = true).
  { rewrite Hname. apply isHelperCall_built. }
  assert (Hpaths : forall p, In p (descend anc decl) ->
            p = MkPath declarator Kdeclarations (decl :: anc) \/
            p = MkPath (Identifier fbName) Kid (declarator :: decl :: anc) \/
            p = MkPath helperCall Kinit (declarator :: decl :: anc) \/
            p = MkPath (Identifier (getHelperName st)) Kcallee
                  (helperCall :: declarator :: decl :: anc) \/
            p = MkPath arrow Karguments (helperCall :: declarator :: decl :: anc) \/
            In helperCall (ancestors p)).
  { intros p Hp. apply In_descend in Hp.
    apply Inside_cases in Hp as (k & c & [[= <- <-]|[]] & [->|Hp]); [auto|].
    apply Inside_cases in Hp as (k & c & Hin & Hp).
    destruct Hin as [[= <- <-]|[[= <- <-]|[]]].
    { destruct Hp as [->|Hp]; [auto|].
      apply Inside_cases in Hp as (? & ? & [] & _). }
    destruct Hp as [->|Hp]; [auto|].
    apply Inside_cases in Hp as (k & c & Hin & Hp).
    destruct Hin as [[= <- <-]|[[= <- <-]|[]]].
    { destruct Hp as [->|Hp]; [auto 10|].
      apply Inside_cases in Hp as (? & ? & [] & _). }
    destruct Hp as [->|Hp]; [auto 10|].
    do 5 right. apply Inside_ancestors in Hp as (l & ->).
    apply in_or_app. right. simpl. auto. }
  split; [|split].
  - intros p Hp. destruct (Hpaths p Hp) as [->|[->|[->|[->|[->|Hin]]]]]; try done.
    + unfold callIsCandidate. cbn [node helperCall].
      destruct (generatedHas _); [done|]. destruct (fbThunkName _); [done|].
      rewrite Hname. cbn [isIdentifierNamed].
      by rewrite bool_decide_eq_true_2.
    + apply callIsCandidate_inside_helper.
      by apply (isInFloatedBinding_above st' p helperCall).
  - done.
  - intros p Hp Hparent.
    destruct (Hpaths p Hp) as [->|[->|[->|[->|[->|Hin]]]]]; try done.
    unfold declIsCandidate. rewrite Hparent.
    destruct (node p); try done. destruct (negb _); [done|].
    unfold decl. cbn [generatedHas]. rewrite orb_true_r.
    by destruct (negb _).
Qed.

(** X2.  Scope safety.  When the resolver answers a target other than
    the current function scope, every free variable is resolvable from
    the target: some scope of the target's chain binds the name or
    records it as global.  (For a name that passed as a parameter of the
    target function, that binding is the parameter.)  The scopes are those
    of the host: distinct objects, parameters bound. *)
Theorem X2_scope_safety (names : list string) (start target : Scope) :
  paramsBound start = true -> uidsDistinct start ->
  outermostScopeWith names start = Some target ->
  sameScope target (enclosingFunctionScope start) = false ->
  forall n, In n names -> Resolvable target n.
Proof.
  intros Hwf Hnd Hout Hsame n Hn.
  destruct (outermostScopeWith_accepted names start target Hout Hsame)
    as [-> | [Ht Hacc]]; [done|].
  unfold canHoistToParent in Hacc. rewrite forallb_forall in Hacc.
  specialize (Hacc n Hn). rewrite nameVisibleIn_spec in Hacc by done.
  apply orb_true_iff in Hacc as [Hacc | Hg].
  - apply orb_true_iff in Hacc as [Ho | Hp].
    + unfold ownerIsWiderOrAncestor in Ho.
      destruct (getBinding start n) as [[b owner]|] eqn:Eb; [|done].
      rewrite <- visibleFrom_chain in Ho.
      apply getBinding_owner in Eb as [Hown Hb].
      exists owner. split; [by apply (visibleFrom_owner start)|].
      left. unfold hasOwnBinding. apply bool_decide_eq_true. by rewrite Hb.
    + exists target. split; [apply chain_self|]. left.
      by apply (isParamOf_bound start).
  - apply hasGlobal_chain in Hg as (s & Hs & Hg). exists s. auto.
Qed.

(** test_data/3: [add], [x] and [y] are resolvable from the function of
    [y], the target of [add(x)(y)]. *)
Lemma X2_witness :
  Resolvable (sampleYScope BHoisted) "add" /\
  Resolvable (sampleYScope BHoisted) "x" /\
  Resolvable (sampleYScope BHoisted) "y".
Proof.
  assert (Hnd : uidsDistinct (sampleZScope BHoisted ∅)).
  { unfold uidsDistinct. cbn. repeat constructor; simpl; intuition discriminate. }
  pose proof (X2_scope_safety ["add"; "x"; "y"] (sampleZScope BHoisted ∅)
                (sampleYScope BHoisted) eq_refl Hnd eq_refl eq_refl) as H.
  repeat split; apply H; simpl; auto.
Defined.

(** X3.  Scenario A of the specification (test_data/3).  In
    [return add(x)(y) + z] the call [add(x)(y)] is floated to the function
    of [y] under the name [add_y__fb]: the declaration
    [const add_y__fb = floatedBinding(() => add(x)(y))] goes to the front
    of that function's body and the use site becomes [add_y__fb()]. *)
Theorem X3_scenario_A :
  exists h st',
    visitCallExpression
      (nameFuel (reservedNames sampleState) (sampleYScope BHoisted) (sampleZScope BHoisted ∅))
      sampleState sumPath (sampleZScope BHoisted ∅) = Some (Floated h, st') /\
    hName h = "add_y__fb" /\
    hTarget h = sampleYScope BHoisted /\
    hDecl h =
      VariableDeclaration true "const"
        [VariableDeclarator false (Identifier "add_y__fb")
           (Some (CallExpression false (Identifier "floatedBinding")
                    [ArrowFunctionExpression []
                       (CallExpression true
                          (CallExpression false (Identifier "add") [Identifier "x"])
                          [Identifier "y"])]))] /\
    hCall h = CallExpression true (Identifier "add_y__fb") [] /\
    reservedHas (reservedNames st') (sampleYScope BHoisted) "add_y__fb" = true /\
    forall fz,
      insertHoisted
        (FunctionExpression None [Identifier "y"]
           (BlockStatement [ReturnStatement (Some fz)])) (hDecl h)
      = Some (FunctionExpression None [Identifier "y"]
                (BlockStatement [hDecl h; ReturnStatement (Some fz)])).
Proof. do 2 eexists. repeat split; by vm_compute. Qed.

(** X4.  Scenario B of the specification (test_data/4).  In
    [var xy = add(x)(y); return add(xy)(z)] the initialiser of [xy] is
    floated to the function of [y] as [xy__fb] and the original site
    becomes [xy__fb()] (the declaration keeps its keyword: only the
    initialiser is replaced); the initialiser itself is left to the
    declaration path, and [add(xy)(z)] and [add(xy)] stay where they
    are. *)
Theorem X4_scenario_B :
  exists h st',
    visitVariableDeclarator
      (nameFuel (reservedNames sampleState) (sampleYScope BHoisted) xyScope)
      sampleState xyPath xyScope = Some (Floated h, st') /\
    hName h = "xy__fb" /\
    hTarget h = sampleYScope BHoisted /\
    hDecl h =
      VariableDeclaration true "const"
        [VariableDeclarator false (Identifier "xy__fb")
           (Some (CallExpression false (Identifier "floatedBinding")
                    [ArrowFunctionExpression []
                       (CallExpression true
                          (CallExpression false (Identifier "add") [Identifier "x"])
                          [Identifier "y"])]))] /\
    hCall h = CallExpression true (Identifier "xy__fb") [] /\
    visitCallExpression 7 sampleState xyInitPath xyScope = Some (Skipped, sampleState) /\
    visitCallExpression 7 st' addXyZPath xyScope = Some (Untouched, st') /\
    visitCallExpression 7 st' addXyPath xyScope = Some (Untouched, st').
Proof. do 2 eexists. repeat split; by vm_compute. Qed.

(** X5.  The answer of the resolver.  Whatever the names and the
    use-site, [outermostScopeWith] answers, never null, a function scope
    or the program scope; it is the function scope that encloses the
    use-site (the program scope without one) or a scope above it; and
    without names it is the program scope. *)
Theorem X5_resolver_answers_an_enclosing_scope (names : list string) (start : Scope) :
  exists target,
    outermostScopeWith names start = Some target /\
    functionOrTop target = true /\
    In target (chain (enclosingFunctionScope start)) /\
    In target (chain start) /\
    (names = [] -> target = getProgramParent start).
Proof.
  destruct (outermostScopeWith_target names start) as (t & E & Hft & Hin).
  exists t. split; [done|]. split; [done|]. split; [done|]. split.
  - apply (chain_trans _ (enclosingFunctionScope start));
      [apply enclosingFunctionScope_chain | done].
  - intros ->. cbn in E. congruence.
Qed.

(** X6.  More names never widen.  When every name of [names] is among
    [names'], the target for [names] is the target for [names'] or a
    scope above it.  So the target depends on the set of the names only,
    not on their order or on repetitions. *)
Theorem X6_more_names_never_widen (names names' : list string) (start t t' : Scope) :
  incl names names' ->
  outermostScopeWith names start = Some t ->
  outermostScopeWith names' start = Some t' ->
  In t (chain t') /\ depth t <= depth t' /\ (incl names' names -> t = t').
Proof.
  intros Hincl Ht Ht'.
  pose proof (outermostScopeWith_incl names names' start t t' Hincl Ht Ht') as Hin.
  split; [done|]. split; [by apply depth_chain|].
  intros Hincl'. apply chain_antisym; [done|].
  by apply (outermostScopeWith_incl names' names start).
Qed.

(** The names [add], [x] go to the scope of [main]; with [y] added, to the
    function of [y], below it. *)
Lemma X6_witness :
  In (sampleMainScope BHoisted) (chain (sampleYScope BHoisted)) /\
  depth (sampleMainScope BHoisted) <= depth (sampleYScope BHoisted) /\
  (incl ["add"; "x"; "y"] ["add"; "x"] -> sampleMainScope BHoisted = sampleYScope BHoisted).
Proof.
  apply (X6_more_names_never_widen ["add"; "x"] ["add"; "x"; "y"] (sampleZScope BHoisted ∅)).
  - intros n Hn. simpl in *. tauto.
  - reflexivity.
  - reflexivity.
Defined.

(** X7.  Hoists are well scoped.  When a visitor floats, the target is a
    function or program scope strictly above the function that encloses
    the use-site; every free variable the visitor collected is resolvable
    from the target; and the name of the thunk is no binding or global
    visible at the target and no own binding of a scope between use-site
    and target.  The scopes are those of the host: distinct objects,
    parameters bound. *)
Theorem X7_hoists_are_well_scoped (fuel : nat) (st : RunState) (path : NodePath)
    (scope : Scope) (h : Hoist) (st' : RunState) :
  paramsBound scope = true -> uidsDistinct scope ->
  (visitCallExpression fuel st path scope = Some (Floated h, st') ->
   WellScoped scope (freeVarsOfNode path) h) /\
  (visitVariableDeclarator fuel st path scope = Some (Floated h, st') ->
   WellScoped scope (freeVarsOfDecl path) h).
Proof.
  intros Hwf Hnd. split.
  - intros H. apply visitCallExpression_Floated in H
      as (_ & _ & _ & t & name & R & Hout & Hsame & _ & Hname & -> & _).
    by apply (hoist_WellScoped fuel (reservedNames st) R (deriveBaseFromCall (node path))).
  - intros H. apply visitVariableDeclarator_Floated in H
      as (m & idName & init & b & o & t & name & R & _ & _ & _ & _ & _ & _
          & Hout & Hsame & Hname & -> & _).
    by apply (hoist_WellScoped fuel (reservedNames st) R idName).
Qed.

(** test_data/3: the hoist of [add(x)(y)] to the function of [y]. *)
Lemma X7_witness :
  WellScoped (sampleZScope BHoisted ∅) (freeVarsOfNode sumPath)
    (buildHoist sampleState "add_y__fb" (sampleYScope BHoisted) addXY).
Proof.
  assert (Hnd : uidsDistinct (sampleZScope BHoisted ∅)).
  { unfold uidsDistinct. cbn. repeat constructor; simpl; intuition discriminate. }
  assert (Hwf : paramsBound (sampleZScope BHoisted ∅) = true) by reflexivity.
  eapply (proj1 (X7_hoists_are_well_scoped 7 sampleState sumPath (sampleZScope BHoisted ∅)
                   _ _ Hwf Hnd)).
  vm_compute. reflexivity.
Defined.

(** X8.  The test [/__fb(_\d+)?$/] of the CallExpression visitor.
    [fbThunkName] answers yes exactly for the names that end in [__fb],
    or in [__fb_] followed by one or more digits; and the visitor skips
    every call whose callee is an identifier with such a name, whoever
    wrote the call. *)
Theorem X8_thunk_name_pattern (name : string) :
  (fbThunkName name = true <-> endsLikeThunk name) /\
  (endsLikeThunk name ->
   forall fuel st m args k anc scope,
     visitCallExpression fuel st (MkPath (CallExpression m (Identifier name) args) k anc) scope
     = Some (Skipped, st)).
Proof.
  split; [apply fbThunkName_iff|].
  intros Hname fuel st m args k anc scope. apply fbThunkName_iff in Hname.
  unfold visitCallExpression, callIsCandidate. cbn [node].
  destruct (generatedHas _); [done|]. by rewrite Hname.
Qed.

(** X9.  The names of the allocator.  Every name [makeUniqueFbName]
    returns, whatever the base, matches the pattern by which the
    CallExpression visitor recognises the calls of thunks, consists of
    identifier characters, and starts with the sanitised base followed by
    [__fb].  So the visitor skips every call whose callee is such a name,
    marked or not. *)
Theorem X9_allocated_names_match_the_thunk_pattern (fuel : nat) (R : Reserved)
    (base : string) (targetScope useScope : Scope) (name : string) (R' : Reserved) :
  makeUniqueFbName fuel R base targetScope useScope = Some (name, R') ->
  fbThunkName name = true /\
  allIdentChars name = true /\
  String.prefix (sanitizeBase base +:+ "__fb") name = true /\
  (forall fuel' st m args k anc scope,
     visitCallExpression fuel' st (MkPath (CallExpression m (Identifier name) args) k anc) scope
     = Some (Skipped, st)).
Proof.
  intros H. apply makeUniqueFbName_Some in H as [[k ->] _].
  destruct (fbCandidate_shape (sanitizeBase base) k) as (Hthunk & Hid & Hpre).
  split; [done|]. split; [apply Hid, sanitizeBase_ident|]. split; [done|].
  intros fuel' st m args j anc scope. unfold visitCallExpression, callIsCandidate.
  cbn [node]. destruct (generatedHas _); [done|]. by rewrite Hthunk.
Qed.

(** test_data/3: the name [add_y__fb]. *)
Lemma X9_witness :
  fbThunkName "add_y__fb" = true /\
  allIdentChars "add_y__fb" = true /\
  String.prefix (sanitizeBase "add_y" +:+ "__fb") "add_y__fb" = true /\
  (forall fuel' st m args k anc scope,
     visitCallExpression fuel' st (MkPath (CallExpression m (Identifier "add_y__fb") args) k anc) scope
     = Some (Skipped, st)).
Proof.
  eapply (X9_allocated_names_match_the_thunk_pattern 7 (reservedNames sampleState) "add_y"
            (sampleYScope BHoisted) (sampleZScope BHoisted ∅)).
  vm_compute. reflexivity.
Defined.

(** X10.  Reserved names are not handed out again.  The name the
    allocator returns is reserved at the target.  A name that was reserved
    at a scope of the use-site's chain is never the one returned, and it
    stays reserved.  So a later allocation, from a use-site whose chain
    holds the target of this one, gives a different name. *)
Theorem X10_reserved_names_are_never_reissued (fuel : nat) (R R' : Reserved)
    (base name : string) (targetScope useScope : Scope) :
  uidsDistinct useScope -> In targetScope (chain useScope) ->
  makeUniqueFbName fuel R base targetScope useScope = Some (name, R') ->
  reservedHas R' targetScope name = true /\
  (forall s n, In s (chain useScope) -> reservedHas R s n = true ->
     name <> n /\ reservedHas R' s n = true) /\
  (forall fuel2 base2 target2 use2 name2 R2,
     uidsDistinct use2 -> In target2 (chain use2) -> In targetScope (chain use2) ->
     makeUniqueFbName fuel2 R' base2 target2 use2 = Some (name2, R2) ->
     name2 <> name).
Proof.
  intros Hnd Ht H. pose proof (makeUniqueFbName_reserved _ _ _ _ _ _ _ H) as Hres.
  split; [done|]. split.
  - intros s n Hs Hn. by apply (makeUniqueFbName_avoids fuel R R' base name targetScope useScope s).
  - intros fuel2 base2 t2 u2 name2 R2 Hnd2 Ht2 Hvis H2.
    by apply (makeUniqueFbName_avoids fuel2 R' R2 base2 name2 t2 u2 targetScope name).
Qed.

(** test_data/3: after [add_y__fb] was reserved at the function of [y]. *)
Lemma X10_witness :
  let R' := (<[2 := {["y"; "add_y__fb"]}]> (reservedNames sampleState) : Reserved) in
  reservedHas R' (sampleYScope BHoisted) "add_y__fb" = true /\
  (forall s n, In s (chain (sampleZScope BHoisted ∅)) ->
     reservedHas (reservedNames sampleState) s n = true ->
     "add_y__fb" <> n /\ reservedHas R' s n = true) /\
  (forall fuel2 base2 target2 use2 name2 R2,
     uidsDistinct use2 -> In target2 (chain use2) -> In (sampleYScope BHoisted) (chain use2) ->
     makeUniqueFbName fuel2 R' base2 target2 use2 = Some (name2, R2) ->
     name2 <> "add_y__fb").
Proof.
  assert (Hnd : uidsDistinct (sampleZScope BHoisted ∅)).
  { unfold uidsDistinct. cbn. repeat constructor; simpl; intuition discriminate. }
  apply (X10_reserved_names_are_never_reissued 7 (reservedNames sampleState) _ "add_y" "add_y__fb"
           (sampleYScope BHoisted) (sampleZScope BHoisted ∅) Hnd).
  - simpl. auto.
  - vm_compute. reflexivity.
Defined.

(** X11.  [sanitizeBase].  The result is never empty and consists of
    identifier characters; sanitising twice is sanitising once; the empty
    base gives [fb]; a base that is not empty keeps its length; and a
    non-empty base of identifier characters is returned as it is. *)
Theorem X11_sanitizeBase_gives_identifier_characters (base : string) :
  sanitizeBase base <> "" /\
  allIdentChars (sanitizeBase base) = true /\
  sanitizeBase (sanitizeBase base) = sanitizeBase base /\
  (base = "" -> sanitizeBase base = "fb") /\
  (base <> "" -> String.length (sanitizeBase base) = String.length base) /\
  (base <> "" -> allIdentChars base = true -> sanitizeBase base = base).
Proof.
  destruct (sanitizeBase_ident base) as [Hne Hid].
  split; [done|]. split; [done|]. split; [by apply sanitizeBase_clean|].
  split; [intros ->; reflexivity|]. split; [|apply sanitizeBase_clean].
  intros Hb. unfold sanitizeBase. case_bool_decide as E.
  - apply (proj1 (replaceNonIdent_empty base)) in E. by destruct Hb.
  - apply replaceNonIdent_length.
Qed.

(** X12.  [deriveBaseFromCall].  The base is not empty, consists of
    identifier characters and is already sanitised, so the second
    [sanitizeBase], in [makeUniqueFbName], changes nothing.  For a callee
    [f], or a callee that is itself a call of [f], and arguments that are
    the identifiers [x1 ... xn] (names of identifier characters), the base
    is [f_x1_..._xn].  Arguments that are not identifiers do not count. *)
Theorem X12_base_of_a_call :
  (forall n, sanitizeBase (deriveBaseFromCall n) = deriveBaseFromCall n /\
             deriveBaseFromCall n <> "" /\
             allIdentChars (deriveBaseFromCall n) = true) /\
  (forall m f xs, Forall cleanName (f :: xs) ->
     deriveBaseFromCall (CallExpression m (Identifier f) (map Identifier xs))
     = String.concat "_" (f :: xs)) /\
  (forall m m' f inner xs, Forall cleanName (f :: xs) ->
     deriveBaseFromCall
       (CallExpression m (CallExpression m' (Identifier f) inner) (map Identifier xs))
     = String.concat "_" (f :: xs)) /\
  (forall m callee args,
     deriveBaseFromCall (CallExpression m callee args)
     = deriveBaseFromCall (CallExpression m callee (List.filter isIdentifier args))).
Proof.
  split; [|split; [|split]].
  - intros n. destruct (deriveBaseFromCall_sanitized n) as [b ->].
    destruct (sanitizeBase_ident b) as [Hne Hid].
    split; [by apply sanitizeBase_clean | done].
  - intros m f xs H. cbn [deriveBaseFromCall]. by apply deriveBase_join.
  - intros m m' f inner xs H. cbn [deriveBaseFromCall]. by apply deriveBase_join.
  - intros m callee args. cbn [deriveBaseFromCall]. by rewrite argNames_filter.
Qed.

(** X13.  Two insertions.  A statement that is no directive and no
    import is placed after the leading directives and imports of the
    container, and a second insertion into the same container lands right
    before it: later hoists come first, and the statements that were
    there keep their places.  Every declaration a hoist builds is such a
    statement. *)
Theorem X13_later_insertions_go_first (isProg : bool) (body : list Node) (d1 d2 : Node) :
  isAnchor isProg d1 = false ->
  (exists pre post,
     body = pre ++ post /\
     Forall (fun s => isAnchor isProg s = true) pre /\
     (forall s rest, post = s :: rest -> isAnchor isProg s = false) /\
     insertAfterPrologueAndImports isProg body d1 = pre ++ d1 :: post /\
     insertAfterPrologueAndImports isProg (insertAfterPrologueAndImports isProg body d1) d2
     = pre ++ d2 :: d1 :: post) /\
  (forall st name target expr,
     isAnchor isProg (hDecl (buildHoist st name target expr)) = false).
Proof.
  intros Hd1. split; [|intros; apply isAnchor_hDecl].
  destruct (insertAfterPrologueAndImports_split isProg body d1)
    as (pre & post & -> & Hins & Hpre & Hpost).
  exists pre, post. split; [done|]. split; [done|]. split; [done|]. split; [done|].
  rewrite Hins. apply insertAfterPrologueAndImports_at; [done|].
  by intros s rest [= <- <-].
Qed.

(** Two hoisted declarations in a function body that starts with a
    directive. *)
Lemma X13_witness :
  let body := [ExpressionStatement (StringLiteral "use strict");
               ReturnStatement (Some (Identifier "x"))] in
  let d1 := hDecl (buildHoist sampleState "a__fb" (sampleYScope BHoisted) addXY) in
  let d2 := hDecl (buildHoist sampleState "b__fb" (sampleYScope BHoisted) addXY) in
  (exists pre post,
     body = pre ++ post /\
     Forall (fun s => isAnchor false s = true) pre /\
     (forall s rest, post = s :: rest -> isAnchor false s = false) /\
     insertAfterPrologueAndImports false body d1 = pre ++ d1 :: post /\
     insertAfterPrologueAndImports false (insertAfterPrologueAndImports false body d1) d2
     = pre ++ d2 :: d1 :: post) /\
  (forall st name target expr,
     isAnchor false (hDecl (buildHoist st name target expr)) = false).
Proof.
  cbv zeta. apply (X13_later_insertions_go_first false). reflexivity.
Defined.

(** X14.  [ensureHelper].  On a program that has no helper yet, the
    helper gets the first of the names [floatedBinding],
    [floatedBinding_1], [floatedBinding_2], ... that is not reserved,
    bound or global at the program scope, and the search always ends;
    the name becomes the helper name of the run and is reserved at the
    program scope; the declaration of the helper goes after the leading
    imports and directives of the program; a second call changes
    nothing; and the allocator never gives a thunk the helper's name. *)
Theorem X14_ensureHelper_names_and_places_the_helper
    (assignmentExpression : string -> Node -> Node -> Node)
    (programScope : Scope) (programPath : ProgramPath) :
  helperInjected programPath = false ->
  let R1 := (getReserved (reservedNames (programState programPath)) programScope).2 in
  exists k after,
    let name := helperCandidate k in
    (forall fuel,
       nameFuel (reservedNames (programState programPath)) programScope programScope <= fuel ->
       ensureHelper assignmentExpression fuel programScope programPath = Some after) /\
    takenAbove R1 programScope name = false /\
    hasBinding programScope name = false /\
    hasGlobal programScope name = false /\
    (forall j, j < k -> takenAbove R1 programScope (helperCandidate j) = true) /\
    helperInjected after = true /\
    getHelperName (programState after) = name /\
    reservedHas (reservedNames (programState after)) programScope name = true /\
    (exists pre post,
       programBody programPath = pre ++ post /\
       programBody after = pre ++ helperDeclaration assignmentExpression name :: post /\
       Forall (fun s => isLeading s = true) pre /\
       (forall s rest, post = s :: rest -> isLeading s = false)) /\
    (forall fuel, ensureHelper assignmentExpression fuel programScope after = Some after) /\
    (forall fuel base target use name2 R2,
       uidsDistinct use -> In target (chain use) -> In programScope (chain use) ->
       makeUniqueFbName fuel (reservedNames (programState after)) base target use
       = Some (name2, R2) ->
       name2 <> name).
Proof.
  intros Hinj R1.
  destruct (ensureHelper_first assignmentExpression programScope programPath Hinj)
    as (k & Hrun & Hfree & Hleast). fold R1 in Hrun, Hfree, Hleast.
  eexists k, _. cbv zeta. split; [exact Hrun|].
  destruct (takenAbove_false _ _ _ Hfree) as (_ & Hb & Hg).
  split; [done|]. split; [done|]. split; [done|]. split; [done|].
  cbn [helperInjected programState programBody reservedNames].
  split; [done|].
  split; [apply getHelperName_set, helperCandidate_nonempty|].
  assert (Hres : reservedHas (reserve R1 programScope (helperCandidate k)) programScope
                   (helperCandidate k) = true)
    by apply reservedHas_reserve, getReserved_has.
  split; [done|]. split; [|split; [done|]].
  - destruct (insertAfterPrologueAndImports_split true (programBody programPath)
                (helperDeclaration assignmentExpression (helperCandidate k)))
      as (pre & post & Hbody & Hins & Hpre & Hpost).
    exists pre, post. split; [done|]. split; [done|].
    split.
    + eapply Forall_impl; [exact Hpre|]. intros s Hs.
      by rewrite <- (isAnchor_isLeading true).
    + intros s rest Hs. rewrite <- (isAnchor_isLeading true) by done. by apply (Hpost s rest).
  - intros fuel base target use name2 R2 Hnd Ht Hp H2.
    exact (proj1 (makeUniqueFbName_avoids fuel _ R2 base name2 target use programScope
                    (helperCandidate k) Hnd Ht Hp Hres H2)).
Qed.

(** A program that already declares [floatedBinding]: the helper is named
    [floatedBinding_1] and goes after the directive.  And the program of
    test_data/3 and test_data/4: the state of the run after [ensureHelper]
    is [sampleState]. *)
Lemma X14_witness :
  let assign := fun op l r => BinaryExpression op l r in
  let programScope :=
    ProgramScope (MkScopeData 0 (<["floatedBinding" := MkBinding BHoisted 0]> ∅) ∅) in
  let programPath :=
    MkProgramPath false (MkRunState ∅ None)
      [ExpressionStatement (StringLiteral "use strict");
       FunctionDeclaration (Identifier "floatedBinding") [] (BlockStatement [])] in
  (exists after,
     ensureHelper assign 2 programScope programPath = Some after /\
     getHelperName (programState after) = "floatedBinding_1" /\
     programBody after =
       [ExpressionStatement (StringLiteral "use strict");
        helperDeclaration assign "floatedBinding_1";
        FunctionDeclaration (Identifier "floatedBinding") [] (BlockStatement [])]) /\
  programState <$> ensureHelper assign 3 (sampleProgramScope BHoisted)
                     (MkProgramPath false (MkRunState ∅ None) [])
  = Some sampleState.
Proof.
  cbv zeta. split; [|reflexivity].
  destruct (X14_ensureHelper_names_and_places_the_helper
              (fun op l r => BinaryExpression op l r)
              (ProgramScope (MkScopeData 0 (<["floatedBinding" := MkBinding BHoisted 0]> ∅) ∅))
              (MkProgramPath false (MkRunState ∅ None)
                 [ExpressionStatement (StringLiteral "use strict");
                  FunctionDeclaration (Identifier "floatedBinding") [] (BlockStatement [])])
              eq_refl) as (k & after & Hrun & _).
  exists after. specialize (Hrun 2 ltac:(vm_compute; lia)).
  split; [exact Hrun|]. vm_compute in Hrun. inversion Hrun. split; reflexivity.
Defined.

(** X15.  The helper is left alone.  On every node of the helper's
    declaration, wherever the declaration stands, both visitors return
    without floating and leave the state as it is: the calls [init()] and
    [get()] are nullary, and the initialisers of [get] and [v] hold one.
    The nodes of the assignment [get = () => v], a node type outside the
    subset, are set aside. *)
Theorem X15_the_helper_is_left_alone
    (assignmentExpression : string -> Node -> Node -> Node)
    (helperName : string) (anc : list Node) (p : NodePath)
    (fuel : nat) (st : RunState) (scope : Scope) :
  In p (descend anc (helperDeclaration assignmentExpression helperName)) ->
  ~ In (assignmentExpression "=" (Identifier "get")
          (ArrowFunctionExpression [] (Identifier "v")))
       (node p :: ancestors p) ->
  (exists o, visitCallExpression fuel st p scope = Some (o, st) /\
             forall h, o <> Floated h) /\
  (exists o, visitVariableDeclarator fuel st p scope = Some (o, st) /\
             forall h, o <> Floated h).
Proof.
  intros Hp Hout.
  destruct (helper_paths assignmentExpression helperName anc p Hp) as [H|[Hc Hd]]; [done|].
  split; [by apply visitCallExpression_impure | by apply visitVariableDeclarator_impure].
Qed.

(** The call [init()] inside the helper. *)
Lemma X15_witness :
  let assign := fun op l r => BinaryExpression op l r in
  let fn := helperDeclaration assign "floatedBinding" in
  let p := default (MkPath NullLiteral Kbody [])
             (List.find (fun q => isCallExpression (node q)) (descend [Program [fn]] fn)) in
  node p = CallExpression false (Identifier "init") [] /\
  (exists o, visitCallExpression 0 sampleState p (sampleProgramScope BHoisted)
             = Some (o, sampleState) /\
             forall h, o <> Floated h) /\
  (exists o, visitVariableDeclarator 0 sampleState p (sampleProgramScope BHoisted)
             = Some (o, sampleState) /\
             forall h, o <> Floated h).
Proof.
  cbv zeta. split; [reflexivity|].
  apply (X15_the_helper_is_left_alone (fun op l r => BinaryExpression op l r) "floatedBinding"
           [Program [helperDeclaration (fun op l r => BinaryExpression op l r) "floatedBinding"]]).
  - vm_compute. repeat (first [left; reflexivity | right]).
  - vm_compute. intros H. repeat (destruct H as [H|H]; [discriminate H|]). exact H.
Defined.

(** X16.  The copy in the thunk.  Wherever the original and the copy
    stand, the marked copy of an expression gets the same answer about
    nullary calls, the same answer about frame-sensitive references and
    the same list of free variables as the original: what the visitor
    checked on the original holds of the body of the thunk. *)
Theorem X16_the_copy_is_analysed_like_the_original (n : Node) (k k' : Key)
    (anc anc' : list Node) :
  let original := MkPath n k anc in
  let copy := MkPath (generatedAdd (cloneNode n)) k' anc' in
  exprContainsNullaryCall (node copy) = exprContainsNullaryCall (node original) /\
  containsFrameSensitiveThings copy = containsFrameSensitiveThings original /\
  freeVarsOfNode copy = freeVarsOfNode original.
Proof.
  cbv zeta. cbn [node].
  pose proof (observe_descend_generatedAdd n anc' anc) as H.
  split; [apply exprContainsNullaryCall_copy|]. split.
  - unfold containsFrameSensitiveThings, traverse. cbn [node ancestors].
    by apply existsb_frame_observe.
  - unfold freeVarsOfNode, traverse. cbn [node ancestors].
    by apply freeVars_fold_observe.
Qed.

(** X17.  Parts and wholes.  The free variables of a node inside another
    node are among the free variables of the outer node.  So, from the
    same scope, the target the resolver answers for the inner node is the
    target for the outer node or a scope above it. *)
Theorem X17_a_part_is_floated_at_least_as_far (whole part : NodePath)
    (scope t t' : Scope) :
  Inside (ancestors whole) (node whole) part ->
  outermostScopeWith (freeVarsOfNode part) scope = Some t ->
  outermostScopeWith (freeVarsOfNode whole) scope = Some t' ->
  incl (freeVarsOfNode part) (freeVarsOfNode whole) /\
  In t (chain t') /\ depth t <= depth t'.
Proof.
  intros Hpart Ht Ht'. pose proof (freeVarsOfNode_part whole part Hpart) as Hincl.
  split; [done|].
  pose proof (outermostScopeWith_incl _ _ scope t t' Hincl Ht Ht') as Hin.
  split; [done | by apply depth_chain].
Qed.

(** test_data/3: [add(x)(y)] inside [add(x)(y) + z]. *)
Lemma X17_witness :
  let sum := BinaryExpression "+" addXY (Identifier "z") in
  let whole := MkPath sum Kargument
                 (ReturnStatement (Some sum) :: aboveBody [ReturnStatement (Some sum)]) in
  incl (freeVarsOfNode sumPath) (freeVarsOfNode whole) /\
  In (sampleYScope BHoisted) (chain (sampleZScope BHoisted ∅)) /\
  depth (sampleYScope BHoisted) <= depth (sampleZScope BHoisted ∅).
Proof.
  cbv zeta.
  apply (X17_a_part_is_floated_at_least_as_far _ sumPath (sampleZScope BHoisted ∅)).
  - apply Inside_child. cbn. by left.
  - reflexivity.
  - reflexivity.
Defined.

(** X18.  Initialisers without parts.  Take a variable that is declared
    inside a function with an initialiser that has no child nodes, and
    that is referenced at least once.  When the initialiser is no literal
    (an identifier, [this], [super]) the declaration is left as it is.
    When it is a literal, the initialiser is floated to the program
    scope, under the first free name of [<x>__fb], [<x>__fb_1], ...
    ([<x>] is the sanitised name of the variable): the name is candidate
    number [k], it does not collide, in the sense of the specification,
    at the program scope and below it, and every candidate before it
    does. *)
Theorem X18_initialisers_without_parts (st : RunState) (path : NodePath) (scope : Scope)
    (m : bool) (x : string) (init : Node) (b : Binding) (owner : Scope) :
  node path = VariableDeclarator m (Identifier x) (Some init) ->
  children init = [] ->
  declIsCandidate path = true ->
  getBinding scope x = Some (b, owner) -> 1 <= referenceCount b ->
  uidsDistinct scope -> scopeIsProgram (enclosingFunctionScope scope) = false ->
  (isLiteral init = false ->
   forall fuel, visitVariableDeclarator fuel st path scope = Some (Untouched, st)) /\
  (isLiteral init = true ->
   exists k,
     let name := fbCandidate (sanitizeBase x) k in
     let R1 := (getReserved (reservedNames st) (getProgramParent scope)).2 in
     ((k = 0 /\ name = sanitizeBase x +:+ "__fb") \/
      (0 < k /\ exists ds, decimalNumeral k ds /\
                           name = sanitizeBase x +:+ "__fb_" +:+ ds)) /\
     ~ Collides R1 (getProgramParent scope) scope name /\
     (forall j, j < k ->
        Collides R1 (getProgramParent scope) scope (fbCandidate (sanitizeBase x) j)) /\
     (forall fuel, nameFuel (reservedNames st) (getProgramParent scope) scope <= fuel ->
        visitVariableDeclarator fuel st path scope
        = Some (Floated (buildHoist st name (getProgramParent scope) init),
                MkRunState (reserve R1 (getProgramParent scope) name) (fbHelperName st)))).
Proof.
  intros Hnode Hleaf Hcand Hb Href Hnd Hfun.
  destruct (leaf_initialiser path m (Identifier x) init Hnode Hleaf) as [Hpure Hfv].
  assert (Hlt : (referenceCount b <? 1) = false) by (apply Nat.ltb_ge; lia).
  split.
  - intros Hlit fuel. unfold visitVariableDeclarator.
    rewrite Hnode, Hcand, Hpure, Hb, Hlt, Hfv, Hlit. done.
  - intros Hlit.
    destruct (makeUniqueFbName_first (reservedNames st) x (getProgramParent scope) scope)
      as (k & Hname & Hfree & Hbelow).
    exists k. cbv zeta. split; [apply fbCandidate_names|]. split; [|split].
    + intros Hc. apply taken_Collides in Hc. congruence.
    + intros j Hj. apply taken_Collides. auto.
    + intros fuel Hfuel. unfold visitVariableDeclarator.
      rewrite Hnode, Hcand, Hpure, Hb, Hlt, Hfv, Hlit. cbn [negb andb outermostScopeWith].
      rewrite (program_not_enclosing scope Hnd Hfun), (Hname fuel Hfuel). done.
Qed.

(** [var one = y] stays; [var one = 1] goes to the program scope as
    [one__fb], the first candidate, which does not collide. *)
Lemma X18_witness :
  let decl init := VariableDeclarator false (Identifier "one") (Some init) in
  let pathOf init :=
    MkPath (decl init) Kdeclarations
      (VariableDeclaration false "var" [decl init]
       :: aboveBody [VariableDeclaration false "var" [decl init];
                     ReturnStatement (Some (Identifier "z"))]) in
  let scope := sampleZScope BHoisted (<["one" := MkBinding BVar 1]> ∅) in
  let R1 := (getReserved (reservedNames sampleState) (getProgramParent scope)).2 in
  (forall fuel, visitVariableDeclarator fuel sampleState (pathOf (Identifier "y")) scope
                = Some (Untouched, sampleState)) /\
  (exists h st',
     visitVariableDeclarator 9 sampleState (pathOf (NumericLiteral 1)) scope
     = Some (Floated h, st') /\
     hName h = "one__fb" /\ hTarget h = sampleProgramScope BHoisted /\
     ~ Collides R1 (getProgramParent scope) scope (hName h)).
Proof.
  intros decl pathOf scope R1.
  assert (Hnd : uidsDistinct scope).
  { unfold uidsDistinct. cbn. repeat constructor; simpl; intuition discriminate. }
  pose proof (fun init Hleaf =>
                X18_initialisers_without_parts sampleState (pathOf init) scope
                  false "one" init (MkBinding BVar 1) (sampleZScope BHoisted (<["one" := MkBinding BVar 1]> ∅))
                  eq_refl Hleaf eq_refl eq_refl (le_n 1) Hnd eq_refl) as H.
  split.
  - exact (proj1 (H (Identifier "y") eq_refl) eq_refl).
  - destruct (proj2 (H (NumericLiteral 1) eq_refl) eq_refl) as (k & _ & Hnc & _ & Hk).
    specialize (Hk 9 ltac:(vm_compute; lia)).
    do 2 eexists. split; [exact Hk|].
    assert (E : exists st1,
               visitVariableDeclarator 9 sampleState (pathOf (NumericLiteral 1)) scope
               = Some (Floated (buildHoist sampleState "one__fb" (sampleProgramScope BHoisted)
                                  (NumericLiteral 1)), st1))
      by (eexists; vm_compute; reflexivity).
    destruct E as [st1 E]. rewrite Hk in E.
    apply (f_equal (fun r => match r with
                             | Some (Floated h, _) => hName h
                             | _ => ""
                             end)) in E.
    split; [exact E|]. split; [reflexivity|]. exact Hnc.
Defined.

(** X19.  What a visit does to the state of the run.  No visit changes
    the helper name; a visit that does not float leaves the state as it
    was; a visit that floats adds the name of the thunk to the reserved
    names of the target, and no reserved name is lost. *)
Theorem X19_a_visit_only_adds_the_name_it_hands_out (fuel : nat) (st : RunState)
    (path : NodePath) (scope : Scope) (o : Outcome) (st' : RunState) :
  visitCallExpression fuel st path scope = Some (o, st') \/
  visitVariableDeclarator fuel st path scope = Some (o, st') ->
  fbHelperName st' = fbHelperName st /\
  ((forall h, o <> Floated h) -> st' = st) /\
  (forall h, o = Floated h ->
     reservedNames st'
     = reserve (getReserved (reservedNames st) (hTarget h)).2 (hTarget h) (hName h) /\
     reservedHas (reservedNames st') (hTarget h) (hName h) = true /\
     forall s n, reservedHas (reservedNames st) s n = true ->
                 reservedHas (reservedNames st') s n = true).
Proof.
  intros H.
  assert (Hfloat : forall h, o = Floated h ->
            exists base, makeUniqueFbName fuel (reservedNames st) base (hTarget h) scope
                         = Some (hName h, reservedNames st') /\
                         fbHelperName st' = fbHelperName st).
  { intros h ->. destruct H as [H|H].
    - apply visitCallExpression_Floated in H
        as (_ & _ & _ & t & name & R & _ & _ & _ & Hname & -> & ->). eauto.
    - apply visitVariableDeclarator_Floated in H
        as (? & idName & ? & ? & ? & t & name & R & _ & _ & _ & _ & _ & _ & _ & _
            & Hname & -> & ->). eauto. }
  assert (Hstay : (forall h, o <> Floated h) -> st' = st).
  { intros Ho. destruct H as [H|H].
    - by apply (visitCallExpression_state fuel st path scope o).
    - by apply (visitVariableDeclarator_state fuel st path scope o). }
  split; [|split; [done|]].
  - destruct o as [| |h]; [by rewrite Hstay | by rewrite Hstay|].
    by destruct (Hfloat h eq_refl) as (base & _ & E).
  - intros h Ho. destruct (Hfloat h Ho) as (base & Hname & _).
    pose proof (makeUniqueFbName_reserved _ _ _ _ _ _ _ Hname) as Hres.
    apply makeUniqueFbName_Some in Hname as (_ & _ & E).
    split; [done|]. split; [done|]. intros s n Hn. rewrite E.
    by apply reservedHas_reserve_mono, reservedHas_getReserved.
Qed.

(** test_data/3: the visit of [add(x)(y)]. *)
Lemma X19_witness :
  let st' := MkRunState (<[2 := {["y"; "add_y__fb"]}]> (reservedNames sampleState))
               (Some "floatedBinding") in
  let o := Floated (buildHoist sampleState "add_y__fb" (sampleYScope BHoisted) addXY) in
  fbHelperName st' = fbHelperName sampleState /\
  ((forall h, o <> Floated h) -> st' = sampleState) /\
  (forall h, o = Floated h ->
     reservedNames st'
     = reserve (getReserved (reservedNames sampleState) (hTarget h)).2 (hTarget h) (hName h) /\
     reservedHas (reservedNames st') (hTarget h) (hName h) = true /\
     forall s n, reservedHas (reservedNames sampleState) s n = true ->
                 reservedHas (reservedNames st') s n = true).
Proof.
  apply (X19_a_visit_only_adds_the_name_it_hands_out 7 sampleState sumPath
           (sampleZScope BHoisted ∅)).
  left. vm_compute. reflexivity.
Defined.

(** X20.  Creating the set of a scope.  [getReserved] creates the set of
    a scope from the names of the scope's own bindings, while the closure
    [taken] reads the table without creating sets.  For the scopes of one
    chain this makes no difference: [taken] answers the same before and
    after the set of a scope was created, creating it twice is creating it
    once, and the allocator returns the same name. *)
Theorem X20_creating_a_reserved_set_changes_nothing (R : Reserved) (s t u : Scope) :
  uidsDistinct u -> In t (chain u) -> In s (chain u) ->
  (forall n, taken (getReserved R s).2 t u n = taken R t u n) /\
  (R !! uid (data s) = None -> (getReserved R s).1 = dom (bindings (data s))) /\
  (getReserved (getReserved R s).2 s).2 = (getReserved R s).2 /\
  (forall fuel base,
     fst <$> makeUniqueFbName fuel (getReserved R s).2 base t u
     = fst <$> makeUniqueFbName fuel R base t u).
Proof.
  intros Hnd Ht Hs.
  split; [intros n; by apply taken_getReserved|].
  split; [intros E; unfold getReserved; by rewrite E|].
  split.
  { unfold getReserved. destruct (R !! uid (data s)) eqn:E; cbn [snd].
    - by rewrite E.
    - by rewrite lookup_insert_eq. }
  intros fuel base. unfold makeUniqueFbName. cbv zeta.
  assert (Htk : forall n, taken (getReserved (getReserved R s).2 t).2 t u n
                          = taken (getReserved R t).2 t u n).
  { intros n. rewrite !(taken_getReserved _ t t u n) by done.
    by apply taken_getReserved. }
  rewrite Htk, (firstFree_ext fuel _ _ _ 1 Htk).
  destruct (taken _ t u (fbName0 _)); cbn [negb]; [|done].
  by destruct (firstFree _ _ _ 1).
Qed.

(** The scopes of test_data/3, the set of the scope of [main] created. *)
Lemma X20_witness :
  let R := reservedNames sampleState in
  let s := sampleMainScope BHoisted in
  let t := sampleYScope BHoisted in
  let u := sampleZScope BHoisted ∅ in
  (forall n, taken (getReserved R s).2 t u n = taken R t u n) /\
  (R !! uid (data s) = None -> (getReserved R s).1 = dom (bindings (data s))) /\
  (getReserved (getReserved R s).2 s).2 = (getReserved R s).2 /\
  (forall fuel base,
     fst <$> makeUniqueFbName fuel (getReserved R s).2 base t u
     = fst <$> makeUniqueFbName fuel R base t u).
Proof.
  cbv zeta.
  assert (Hnd : uidsDistinct (sampleZScope BHoisted ∅)).
  { unfold uidsDistinct. cbn. repeat constructor; simpl; intuition discriminate. }
  apply (X20_creating_a_reserved_set_changes_nothing _ _ _ _ Hnd); simpl; auto.
Defined.

(** X21.  Constant producers.  For a producer that ends the same way
    whenever it is called and leaves the world as it is, the invocations
    of the accessor end, use by use, as calls of the producer in place
    would, and the final world is the same: the memoisation cannot be
    observed. *)
Theorem X21_constant_producers_are_memoised_unnoticed {World Value Exn : Type}
    (p : Producer World Value Exn) (steps : list (Step World)) (w : World) :
  constantProducer p ->
  (run p steps GetInitial w).1 = (callEachTime p steps w).1 /\
  (run p steps GetInitial w).2.2 = (callEachTime p steps w).2.
Proof.
  intros [c Hp]. apply (run_constant p c steps Hp). by left.
Qed.

(** The producer of the constant 7, invoked twice. *)
Lemma X21_witness :
  let p : Producer nat nat unit := fun w => (Normal 7, w) in
  let steps := [Invoke; Other S; Invoke] in
  (run p steps GetInitial 0).1 = (callEachTime p steps 0).1 /\
  (run p steps GetInitial 0).2.2 = (callEachTime p steps 0).2.
Proof.
  cbv zeta. apply X21_constant_producers_are_memoised_unnoticed.
  by exists (Normal 7).
Defined.

(** X22.  The parameter test does not look at shadowing.  When a free
    variable is bound, as seen from the use-site, in a scope below a wider
    function scope, and that function has a parameter of the same name,
    the resolver's test for the wider scope passes.  At the wider scope
    the name denotes the parameter, a binding of another scope. *)
Theorem X22_the_parameter_test_accepts_another_binding (start wider : Scope)
    (name : string) (b : Binding) (owner : Scope) :
  paramsBound start = true -> In wider (chain start) ->
  isParamOf wider name = true ->
  getBinding start name = Some (b, owner) ->
  In owner (scopesBelow wider start) ->
  nameVisibleIn start wider name = true /\
  canHoistToParent [name] start wider = true /\
  sameScope owner wider = false /\
  exists b', getBinding wider name = Some (b', wider).
Proof.
  intros Hwf Hin Hp Hb Ho.
  assert (Hvis : nameVisibleIn start wider name = true).
  { unfold nameVisibleIn. rewrite Hb, Hp, (isParamOf_function wider name Hp).
    by destruct (visibleFrom wider owner). }
  split; [done|]. split; [by cbn; rewrite Hvis|].
  split; [by apply (scopesBelow_other wider start)|].
  pose proof (isParamOf_bound start wider name Hwf Hin Hp) as Hown.
  unfold hasOwnBinding in Hown. apply bool_decide_eq_true in Hown as [b' Hb'].
  exists b'. destruct wider; cbn [getBinding data] in *; by rewrite Hb'.
Qed.

(** In [function outer(a) { return function (a) { return g(a); }; }] the
    call [g(a)] is floated to [outer], where [a] is the parameter of
    [outer]. *)
Lemma X22_witness :
  (nameVisibleIn sameNameInnerScope sameNameOuterScope "a" = true /\
   canHoistToParent ["a"] sameNameInnerScope sameNameOuterScope = true /\
   sameScope sameNameInnerScope sameNameOuterScope = false /\
   exists b', getBinding sameNameOuterScope "a" = Some (b', sameNameOuterScope)) /\
  exists st',
    visitCallExpression 5 (MkRunState ∅ (Some "floatedBinding")) sameNamePath sameNameInnerScope
    = Some (Floated (buildHoist (MkRunState ∅ (Some "floatedBinding")) "g_a__fb"
                       sameNameOuterScope (node sameNamePath)), st').
Proof.
  split.
  - apply (X22_the_parameter_test_accepts_another_binding sameNameInnerScope
             sameNameOuterScope "a" param sameNameInnerScope); try reflexivity.
    + simpl. auto.
    + simpl. auto.
  - eexists. vm_compute. reflexivity.
Defined.

(** X23.  Floated expressions hold no frame-sensitive reference.  When a
    visitor floats, neither the floated expression itself nor any node
    inside it is [this], a referenced [arguments], [super] or
    [new.target].  (The traversal of [containsFrameSensitiveThings] does
    not enter the node it starts from; but an initialiser that is itself
    such a reference has no free variables and is no literal, so the
    visitor leaves it.) *)
Theorem X23_floated_expressions_are_frame_free (fuel : nat) (st : RunState)
    (path : NodePath) (scope : Scope) (h : Hoist) (st' : RunState) :
  (visitCallExpression fuel st path scope = Some (Floated h, st') ->
   forall p, Within path p -> frameSensitiveVisit p = false) /\
  (visitVariableDeclarator fuel st path scope = Some (Floated h, st') ->
   exists initPath,
     getChild path Kinit = Some initPath /\
     forall p, Within initPath p -> frameSensitiveVisit p = false).
Proof.
  split.
  - intros H. apply visitCallExpression_Floated in H as (Hc & _ & Hf & _).
    apply Within_frame_free; [|done].
    by apply frameSensitiveVisit_call, (callIsCandidate_call st).
  - intros H. apply visitVariableDeclarator_Floated in H
      as (m & x & init & b & o & t & name & R & Hnode & _ & Hpure & _ & _ & Hfv & _).
    pose proof (getChild_init path m (Identifier x) init Hnode) as Hget.
    unfold isPureEnoughDecl in Hpure. unfold freeVarsOfDecl in Hfv.
    rewrite Hget in Hpure, Hfv.
    eexists. split; [exact Hget|].
    destruct (negb _); [done|].
    destruct (containsFrameSensitiveThings _) eqn:Ec; [done|].
    apply Within_frame_free; [|done].
    destruct (frameSensitiveVisit _) eqn:Er; [|done].
    apply frameSensitive_root in Er as [Hnil Hlit].
    destruct Hfv as [Hfv|Hfv]; [by destruct Hfv | congruence].
Qed.

(** X24.  Without shadowing the bindings are kept.  When no name is an
    own binding of two scopes of the use-site's chain, and no name bound
    there is also recorded as global, every free variable of a floated
    expression denotes at the target the binding it denotes at the
    use-site (or no binding at either). *)
Theorem X24_same_bindings_without_shadowing (fuel : nat) (st : RunState)
    (path : NodePath) (scope : Scope) (h : Hoist) (st' : RunState) :
  paramsBound scope = true -> uidsDistinct scope -> unshadowed scope ->
  (visitCallExpression fuel st path scope = Some (Floated h, st') ->
   forall n, In n (freeVarsOfNode path) -> getBinding (hTarget h) n = getBinding scope n) /\
  (visitVariableDeclarator fuel st path scope = Some (Floated h, st') ->
   forall n, In n (freeVarsOfDecl path) -> getBinding (hTarget h) n = getBinding scope n).
Proof.
  intros Hwf Hnd Hun. split.
  - intros H. apply visitCallExpression_Floated in H
      as (_ & _ & _ & t & name & R & Hout & Hsame & _ & _ & -> & _).
    by apply (outermostScopeWith_same_bindings (freeVarsOfNode path) scope).
  - intros H. apply visitVariableDeclarator_Floated in H
      as (m & idName & init & b & o & t & name & R & _ & _ & _ & _ & _ & _
          & Hout & Hsame & _ & -> & _).
    by apply (outermostScopeWith_same_bindings (freeVarsOfDecl path) scope).
Qed.

(** test_data/3: [add], [x] and [y] at the function of [y]. *)
Lemma X24_witness :
  getBinding (sampleYScope BHoisted) "add" = getBinding (sampleZScope BHoisted ∅) "add" /\
  getBinding (sampleYScope BHoisted) "x" = getBinding (sampleZScope BHoisted ∅) "x" /\
  getBinding (sampleYScope BHoisted) "y" = getBinding (sampleZScope BHoisted ∅) "y".
Proof.
  assert (Hnd : uidsDistinct (sampleZScope BHoisted ∅)).
  { unfold uidsDistinct. cbn. repeat constructor; simpl; intuition discriminate. }
  assert (Hwf : paramsBound (sampleZScope BHoisted ∅) = true) by reflexivity.
  assert (Hun : unshadowed (sampleZScope BHoisted ∅)).
  { split.
    - intros n s1 s2 H1 H2. unfold hasOwnBinding. rewrite !bool_decide_eq_true.
      rewrite <- !elem_of_dom. cbn in H1, H2.
      destruct H1 as [<-|[<-|[<-|[<-|[]]]]]; destruct H2 as [<-|[<-|[<-|[<-|[]]]]];
        try reflexivity; cbn [data bindings];
        rewrite ?dom_insert, ?dom_empty, ?elem_of_union, ?elem_of_singleton, ?elem_of_empty;
        intros Ha Hb; exfalso;
        repeat match goal with
          | H : _ \/ _ |- _ => destruct H
          | H : False |- _ => destruct H
          end; subst; discriminate.
    - intros n s1 _ _. cbn [hasGlobal sampleZScope sampleYScope sampleMainScope
                             sampleProgramScope data globals].
      rewrite !bool_decide_eq_false_2 by set_solver. done. }
  pose proof (proj1 (X24_same_bindings_without_shadowing 7 sampleState sumPath
                       (sampleZScope BHoisted ∅)
                       (buildHoist sampleState "add_y__fb" (sampleYScope BHoisted) addXY)
                       (MkRunState (<[2 := {["y"; "add_y__fb"]}]> (reservedNames sampleState))
                          (Some "floatedBinding"))
                       Hwf Hnd Hun)) as H.
  assert (Hrun : visitCallExpression 7 sampleState sumPath (sampleZScope BHoisted ∅)
                 = Some (Floated (buildHoist sampleState "add_y__fb" (sampleYScope BHoisted) addXY),
                         MkRunState (<[2 := {["y"; "add_y__fb"]}]> (reservedNames sampleState))
                           (Some "floatedBinding")))
    by (vm_compute; reflexivity).
  specialize (H Hrun). cbn [hTarget buildHoist] in H.
  repeat split; apply H; vm_compute; tauto.
Defined.
